(** * Feasible projection onto separation constraints

    A shallow embedding of [cola/libproject/feasible_projection_algorithm.cpp]
    (namespace [algorithm]): variables, separation constraints and blocks live
    in a heap addressed by pointers, the solver object holds the containers, and
    every member function is a computation in a state-and-failure monad.
    Numbers are IEEE 754 binary64 values ([double]). *)

From Stdlib Require Import Floats ZArith Uint63 Lia.
From stdpp Require Import gmap list sorting.

(** ** Numbers *)

(** [DBL_MAX] of <cfloat>: the largest finite double. *)
Definition DBL_MAX : float := 0x1.fffffffffffffp1023%float.

(** Conversion of a container size ([size_t]) to [double], for sizes below
    [2^63]. *)
Definition of_size (n : nat) : float :=
  PrimFloat.of_uint63 (Uint63.of_Z (Z.of_nat n)).

(** ** Objects *)

(** A pointer is an address; the null pointer is [None] in [option ptr]. *)
Abbreviation ptr := nat.

(** Modelled from the spec: the class declarations of
    feasible_projection_algorithm.h are not among the sources; the fields of
    [Variable] are those the member functions use. The source's [Variable] is
    called [Var] and its field [in] is [in_], both being reserved words. *)
Record Var := mkVar {
  d : float;            (* desired position *)
  x : float;            (* current position *)
  b : float;            (* offset into the block *)
  block : option ptr;   (* owning Block *)
  in_ : list ptr;       (* constraints whose right end is this variable *)
  out : list ptr        (* constraints whose left end is this variable *)
}.

(** Modelled from the spec: the declaration of [Constraint] is in the header;
    the fields are those its constructor initialises. *)
Record Constraint := mkConstraint {
  l : ptr;              (* left variable *)
  r : ptr;              (* right variable *)
  g : float;            (* required gap: x_r - x_l >= g *)
  active : bool;
  lm : float            (* Lagrange multiplier *)
}.

(** Modelled from the spec: the declaration of [Block] is in the header; the
    fields are those its constructor and member functions use. *)
Record Block := mkBlock {
  X : float;            (* the position the block is to move to *)
  XI : float;           (* the position the block moves from *)
  V : list ptr;         (* member variables *)
  C : list ptr          (* constraints of the block *)
}.

(** Modelled from the spec: the declaration of [FeasibleProjectionAlgorithm]
    is in the header. The state is the heap of the three classes together with
    the members of the one solver object: the vectors [vs], [cs] and [blocks],
    and [inactive], the set of constraints of the spec, which the source
    constructs from a range and erases from by key: a [std::set] of pointers,
    kept as the duplicate-free list of its elements in iteration order
    (increasing address). *)
Record state := mkState {
  vars : gmap nat Var;
  cons : gmap nat Constraint;
  blks : gmap nat Block;
  vs : list ptr;
  cs : list ptr;
  blocks : list ptr;
  inactive : list ptr
}.

Definition with_vars (f : gmap nat Var -> gmap nat Var) (st : state) : state :=
  mkState (f (vars st)) (cons st) (blks st) (vs st) (cs st) (blocks st) (inactive st).
Definition with_cons (f : gmap nat Constraint -> gmap nat Constraint) (st : state) : state :=
  mkState (vars st) (f (cons st)) (blks st) (vs st) (cs st) (blocks st) (inactive st).
Definition with_blks (f : gmap nat Block -> gmap nat Block) (st : state) : state :=
  mkState (vars st) (cons st) (f (blks st)) (vs st) (cs st) (blocks st) (inactive st).
Definition with_blocks (f : list ptr -> list ptr) (st : state) : state :=
  mkState (vars st) (cons st) (blks st) (vs st) (cs st) (f (blocks st)) (inactive st).
Definition with_inactive (f : list ptr -> list ptr) (st : state) : state :=
  mkState (vars st) (cons st) (blks st) (vs st) (cs st) (blocks st) (f (inactive st)).

(** ** The monad

    A computation takes the state and either returns a value and the new
    state, or [None]: a dereference of a pointer that addresses no object, an
    access beyond the end of a vector, or a recursion that ran out of fuel. *)
Definition M (A : Type) : Type := state -> option (A * state).

Definition ret {A} (a : A) : M A := fun st => Some (a, st).
Definition bind {A B} (m : M A) (k : A -> M B) : M B :=
  fun st => match m st with
            | Some (a, st') => k a st'
            | None => None
            end.
Definition fail {A} : M A := fun _ => None.
Definition get : M state := fun st => Some (st, st).
Definition modify (f : state -> state) : M unit := fun st => Some (tt, f st).
Definition lift {A} (o : option A) : M A :=
  fun st => match o with Some a => Some (a, st) | None => None end.

Declare Scope M_scope.
Delimit Scope M_scope with M.
Notation "x <- m ;; k" := (bind m (fun x => k))
  (at level 100, m at next level, right associativity) : M_scope.
Notation "m ;; k" := (bind m (fun _ => k))
  (at level 100, right associativity) : M_scope.
Local Open Scope M_scope.

(** Reads through a pointer. *)
Definition get_var (p : ptr) : M Var := st <- get ;; lift (vars st !! p).
Definition get_con (p : ptr) : M Constraint := st <- get ;; lift (cons st !! p).
Definition get_blk (p : ptr) : M Block := st <- get ;; lift (blks st !! p).

(** Writes of one field through a pointer. *)
Definition upd_var (p : ptr) (f : Var -> Var) : M unit :=
  v <- get_var p ;; modify (with_vars <[p := f v]>).
Definition upd_con (p : ptr) (f : Constraint -> Constraint) : M unit :=
  c <- get_con p ;; modify (with_cons <[p := f c]>).
Definition upd_blk (p : ptr) (f : Block -> Block) : M unit :=
  B <- get_blk p ;; modify (with_blks <[p := f B]>).

Definition set_b (z : float) (v : Var) : Var :=
  mkVar (d v) (x v) z (block v) (in_ v) (out v).
Definition set_block (p : option ptr) (v : Var) : Var :=
  mkVar (d v) (x v) (b v) p (in_ v) (out v).
Definition push_in (c : ptr) (v : Var) : Var :=
  mkVar (d v) (x v) (b v) (block v) (in_ v ++ [c]) (out v).
Definition push_out (c : ptr) (v : Var) : Var :=
  mkVar (d v) (x v) (b v) (block v) (in_ v) (out v ++ [c]).
Definition set_lm (z : float) (c : Constraint) : Constraint :=
  mkConstraint (l c) (r c) (g c) (active c) z.
Definition set_XI (z : float) (B : Block) : Block :=
  mkBlock (X B) z (V B) (C B).

(** [std::for_each] and [std::accumulate] over a range, with a function
    object whose state is threaded from one element to the next. *)
Fixpoint for_each {A S} (range : list A) (f : S -> A -> M S) (s : S) : M S :=
  match range with
  | [] => ret s
  | a :: range' => s' <- f s a ;; for_each range' f s'
  end.

Definition accumulate {A S} (range : list A) (init : S) (f : S -> A -> M S) : M S :=
  for_each range f init.

(** ** Constraint and Block *)

(** [Constraint::Constraint(l, r, g)], constructing the object at [this]. *)
Definition Constraint_ctor (this l0 r0 : ptr) (g0 : float) : M unit :=
  modify (with_cons <[this := mkConstraint l0 r0 g0 false 0%float]>) ;;
  upd_var l0 (push_out this) ;;
  upd_var r0 (push_in this).

(** [Block::Block(v)], constructing the object at [this]. *)
Definition Block_ctor (this v : ptr) : M unit :=
  vr <- get_var v ;;
  modify (with_blks <[this := mkBlock (d vr) (x vr) [] []]>) ;;
  upd_blk this (fun B => mkBlock (X B) (XI B) (V B ++ [v]) (C B)) ;;
  upd_var v (set_b 0%float) ;;
  upd_var v (set_block (Some this)).

Definition sum_posdiff (acc : float) (v : ptr) : M float :=
  vr <- get_var v ;; ret (acc + (d vr - b vr))%float.

(** [Block::optBlockPos() const]. *)
Definition optBlockPos (this : ptr) : M float :=
  B <- get_blk this ;;
  s <- accumulate (V B) 0%float sum_posdiff ;;
  ret (s / of_size (length (V B)))%float.

(** [Block::compute_dfdv(v, last)]. The recursion follows the constraint
    graph, so it is defined by recursion on a bound [n] on its depth. *)
Fixpoint compute_dfdv (n : nat) (v : ptr) (last : option ptr) : M float :=
  match n with
  | O => fail
  | S n' =>
    vr <- get_var v ;;
    dfdv <- for_each (out vr) (fun dfdv c =>
        if bool_decide (Some c ≠ last) then
          cr <- get_con c ;;
          if active cr then
            z <- compute_dfdv n' (r cr) (Some c) ;;
            upd_con c (set_lm z) ;;
            cr' <- get_con c ;;
            ret (dfdv + lm cr')%float
          else ret dfdv
        else ret dfdv) (2 * (x vr - d vr))%float ;;
    for_each (in_ vr) (fun dfdv c =>
        if bool_decide (Some c ≠ last) then
          cr <- get_con c ;;
          if active cr then
            z <- compute_dfdv n' (l cr) (Some c) ;;
            upd_con c (set_lm (- z)%float) ;;
            cr' <- get_con c ;;
            ret (dfdv - lm cr')%float
          else ret dfdv
        else ret dfdv) dfdv
  end.

Definition reset_lm (c : ptr) : M unit := upd_con c (set_lm 0%float).

(** [Block::computeLagrangians()]. *)
Definition computeLagrangians (n : nat) (this : ptr) : M unit :=
  B <- get_blk this ;;
  for_each (C B) (fun _ c => reset_lm c) tt ;;
  B' <- get_blk this ;;
  root <- lift (V B' !! 0) ;;
  compute_dfdv n root None ;;
  ret tt.

(** ** FeasibleProjectionAlgorithm *)

(** Insertion into a [std::set<Constraint*>]: the elements are kept in
    increasing order of address, without repetition. *)
Fixpoint set_insert (c : ptr) (s : list ptr) : list ptr :=
  match s with
  | [] => [c]
  | c' :: s' =>
    if decide (c < c') then c :: c' :: s'
    else if decide (c = c') then c' :: s'
    else c' :: set_insert c s'
  end.

Definition set_of_range (range : list ptr) : list ptr :=
  fold_left (fun s c => set_insert c s) range [].

(** [inactive.erase(c)], by key; a null key is in no set. *)
Definition set_erase (c : option ptr) (s : list ptr) : list ptr :=
  match c with
  | Some c => filter (fun c' => c' ≠ c) s
  | None => s
  end.

(** [FeasibleProjectionAlgorithm::FeasibleProjectionAlgorithm(vs, cs)]. *)
Definition FeasibleProjectionAlgorithm_ctor (vs0 cs0 : list ptr) : M unit :=
  modify (fun st =>
    mkState (vars st) (cons st) (blks st) vs0 cs0 [] (set_of_range cs0)).

(** [new Block]: storage at an address that holds no block yet. *)
Definition new_Block : M ptr :=
  st <- get ;; ret (fresh (dom (blks st))).

(** [FeasibleProjectionAlgorithm::init_blocks()]. *)
Definition init_blocks : M unit :=
  st <- get ;;
  for_each (vs st) (fun _ v =>
    p <- new_Block ;;
    Block_ctor p v ;;
    modify (with_blocks (fun bs => bs ++ [p]))) tt.

(** The function object [MaxSafeAlpha]: its two reference members are the
    caller's variables [c] and [alpha], here the object's state. *)
Record MaxSafeAlpha := mkMaxSafeAlpha {
  safeC : option ptr;
  safeAlpha : float
}.

Definition MaxSafeAlpha_ctor : MaxSafeAlpha :=
  mkMaxSafeAlpha None DBL_MAX.

(** The local [alpha] of [MaxSafeAlpha::operator()] for the constraint [c]. *)
Definition constraint_alpha (c : ptr) : M float :=
  cr <- get_con c ;;
  vl <- get_var (l cr) ;;
  vr <- get_var (r cr) ;;
  pl <- lift (block vl) ;;
  pr <- lift (block vr) ;;
  BL <- get_blk pl ;;
  BR <- get_blk pr ;;
  let Xl := X BL in
  let Xr := X BR in
  let bl := b vl in
  let br := b vr in
  if (Xl + bl + g cr <=? Xr + br)%float then ret 1%float
  else
    let XIl := XI BL in
    let XIr := XI BR in
    let Al := (XIl + bl)%float in
    let Ar := (XIr + br)%float in
    let Bl := (Xl - XIl)%float in
    let Br := (Xr - XIr)%float in
    ret ((g cr + Al - Ar) / (Br - Bl))%float.

(** [MaxSafeAlpha::operator()(c)]. *)
Definition MaxSafeAlpha_call (f : MaxSafeAlpha) (c : ptr) : M MaxSafeAlpha :=
  alpha <- constraint_alpha c ;;
  if (alpha <? safeAlpha f)%float then ret (mkMaxSafeAlpha (Some c) alpha)
  else ret f.

(** [for_each(inactive.begin(), inactive.end(), MaxSafeAlpha(c, alpha))]. *)
Definition safe_step_search : M MaxSafeAlpha :=
  st <- get ;;
  for_each (inactive st) MaxSafeAlpha_call MaxSafeAlpha_ctor.

(** The three operations whose bodies are empty. *)
Definition make_active (c : option ptr) (alpha : float) : M unit := ret tt.
Definition make_inactive (c : option ptr) : M unit := ret tt.
Definition split_blocks : M unit := ret tt.

(** The [while (alpha < 1)] loop of [make_optimal], entered with the result
    [f] of the search before it; [n] bounds the number of iterations. The
    value returned is the list of the constraints handed to [make_active],
    in order (the source returns nothing). *)
Fixpoint activation_loop (n : nat) (f : MaxSafeAlpha) : M (list (option ptr)) :=
  if (safeAlpha f <? 1)%float then
    match n with
    | O => fail
    | S n' =>
      make_active (safeC f) (safeAlpha f) ;;
      modify (with_inactive (set_erase (safeC f))) ;;
      f' <- safe_step_search ;;
      acts <- activation_loop n' f' ;;
      ret (safeC f :: acts)
    end
  else ret [].

(** [FeasibleProjectionAlgorithm::make_optimal()]. *)
Definition make_optimal (n : nat) : M (list (option ptr)) :=
  f <- safe_step_search ;;
  acts <- activation_loop n f ;;
  st <- get ;;
  for_each (blocks st) (fun _ p => upd_blk p (fun B => set_XI (X B) B)) tt ;;
  ret acts.

(** Modelled from the spec: the function object [delete_object] is declared
    in util.h, which is not among the sources. The solver owns its blocks, and
    the object applied to a pointer deletes the block the pointer addresses;
    deleting through a pointer that addresses no block, as a second time
    through the same pointer, is not defined. *)
Definition delete_object (p : ptr) : M unit :=
  get_blk p ;; modify (with_blks (delete p)).

(** [FeasibleProjectionAlgorithm::~FeasibleProjectionAlgorithm()], its
    body. *)
Definition FeasibleProjectionAlgorithm_dtor : M unit :=
  st <- get ;; for_each (blocks st) (fun _ p => delete_object p) tt.

(** * Specifications

    The vocabulary of the properties below: what a function leaves behind,
    the pure counterparts of the stateful functions, the graph of active
    constraints, and the example states. *)

(** ** Block creation *)

Definition singleton_block (vr : Var) (v : ptr) : Block :=
  mkBlock (d vr) (x vr) [v] [].

Definition owned_by (p : ptr) (vr : Var) : Var :=
  set_block (Some p) (set_b 0%float vr).

(** The state after one round of the loop of [init_blocks]. *)
Definition after_new_block (v : ptr) (vr : Var) (st : state) : state :=
  let p := fresh (dom (blks st)) in
  mkState (<[v := owned_by p vr]> (vars st)) (cons st)
          (<[p := singleton_block vr v]> (blks st))
          (vs st) (cs st) (blocks st ++ [p]) (inactive st).

(** The heap of blocks after the loop of the destructor over [range]. *)
Definition deleted (range : list ptr) (m : gmap nat Block) : gmap nat Block :=
  fold_left (fun m p => delete p m) range m.

(** The block pointer of a variable addresses no block. *)
Definition dangling (st : state) (vr : Var) : Prop :=
  exists p, block vr = Some p /\ blks st !! p = None.

(** ** The optimal position of a block *)

(** The sum of a sequence of doubles, added from the left starting at zero. *)
Definition fsum (terms : list float) : float :=
  fold_left PrimFloat.add terms 0%float.

(** The mean over the members of their desired positions less their
    offsets: the sum divided by the number of members. *)
Definition mean_posdiff (members : list Var) : float :=
  (fsum (map (fun v => d v - b v)%float members) / of_size (length members))%float.

(** ** The safe step of one constraint *)

(** The objects [MaxSafeAlpha::operator()] reaches from the constraint [c]:
    the constraint, its two variables and their blocks. *)
Definition resolves (st : state) (c : ptr)
    (cr : Constraint) (vl vr : Var) (BL BR : Block) : Prop :=
  cons st !! c = Some cr /\
  vars st !! l cr = Some vl /\
  vars st !! r cr = Some vr /\
  (block vl ≫= fun p => blks st !! p) = Some BL /\
  (block vr ≫= fun p => blks st !! p) = Some BR.

(** ** make_optimal *)

(** The inactive set after the constraints [acts] were erased in turn. *)
Definition erase_all (acts : list (option ptr)) (s : list ptr) : list ptr :=
  fold_left (fun s c => set_erase c s) acts s.

(** A block after the last loop of [make_optimal]. *)
Definition step_taken (B : Block) : Block := set_XI (X B) B.

(** Every constraint of the inactive set has its objects. *)
Definition searchable (st : state) : Prop :=
  Forall (fun c => is_Some (constraint_alpha c st)) (inactive st).

(** Each activation erases a constraint that is in the inactive set at
    that moment, which makes the set strictly smaller. *)
Fixpoint shrinking (acts : list (option ptr)) (s : list ptr) : Prop :=
  match acts with
  | [] => True
  | a :: acts' =>
    (exists c, a = Some c /\ c ∈ s) /\
    length (set_erase a s) < length s /\
    shrinking acts' (set_erase a s)
  end.

(** The last loop of [make_optimal], over the vector [blocks]. *)
Definition steps_taken (range : list ptr) (m : gmap nat Block) : gmap nat Block :=
  fold_left (fun m p => alter step_taken p m) range m.

(** The step fraction of the constraint [c] in the state [st]: the local
    [alpha] of the function object, for a constraint that has its objects. *)
Definition alpha_of (st : state) (c : ptr) : float :=
  match constraint_alpha c st with
  | Some (a, _) => a
  | None => nan
  end.

(** The step fraction of a constraint handed to [make_active]. *)
Definition act_alpha (st : state) (a : option ptr) : float :=
  match a with
  | Some c => alpha_of st c
  | None => DBL_MAX
  end.

(** The loop of [make_optimal] takes the constraint [c]: its step fraction
    is below 1. *)
Definition taken (st : state) (c : ptr) : Prop := (alpha_of st c <? 1)%float = true.

(** ** Lagrange multipliers *)

(** The assignment [c->lm = z] on the heap of constraints, and a sequence of
    such assignments from the left. *)
Definition assign_lm (st : state) (w : ptr * float) : state :=
  with_cons (alter (set_lm w.2) w.1) st.

Definition writes (ws : list (ptr * float)) (st : state) : state :=
  fold_left assign_lm ws st.

(** The loop [for_each(C.begin(), C.end(), reset_lm())] as assignments. *)
Definition resets (range : list ptr) : list (ptr * float) :=
  map (fun c => (c, 0%float)) range.

(** [dfdv] as a function of the constraint graph alone. [edges_spec] goes
    over the constraints [range] adjacent to a variable, the outgoing ones
    when [fwd] and the incoming ones otherwise: an active constraint other
    than [last] has the value [rec] gives at its far end as multiplier,
    negated for an incoming one; the multiplier is added to the value
    accumulated for an outgoing constraint and subtracted for an incoming
    one, and the assignment of the multiplier is recorded after those of the
    subtree. *)
Fixpoint edges_spec (rec : ptr -> option ptr -> option (float * list (ptr * float)))
    (G : state) (last : option ptr) (fwd : bool) (range : list ptr)
    (acc : float * list (ptr * float)) : option (float * list (ptr * float)) :=
  match range with
  | [] => Some acc
  | c :: range' =>
    if bool_decide (Some c ≠ last) then
      match cons G !! c with
      | None => None
      | Some cr =>
        if active cr then
          match rec (if fwd then r cr else l cr) (Some c) with
          | None => None
          | Some (z, ws) =>
            let m := if fwd then z else (- z)%float in
            edges_spec rec G last fwd range'
              (if fwd then (acc.1 + m)%float else (acc.1 - m)%float,
               acc.2 ++ ws ++ [(c, m)])
          end
        else edges_spec rec G last fwd range' acc
      end
    else edges_spec rec G last fwd range' acc
  end.

Fixpoint dfdv_spec (n : nat) (G : state) (v : ptr) (last : option ptr)
    : option (float * list (ptr * float)) :=
  match n with
  | O => None
  | S n' =>
    match vars G !! v with
    | None => None
    | Some vr =>
      match edges_spec (dfdv_spec n' G) G last true (out vr)
                       ((2 * (x vr - d vr))%float, []) with
      | None => None
      | Some acc => edges_spec (dfdv_spec n' G) G last false (in_ vr) acc
      end
    end
  end.

(** A result of the pure function as a result in the monad. *)
Definition performed (o : option (float * list (ptr * float))) (st : state)
    : option (float * state) :=
  match o with
  | Some (z, ws) => Some (z, writes ws st)
  | None => None
  end.

(** Two constraints that differ in their multiplier at most. *)
Definition same_edge (c1 c2 : Constraint) : Prop :=
  l c1 = l c2 /\ r c1 = r c2 /\ g c1 = g c2 /\ active c1 = active c2.

Definition same_graph (G1 G2 : state) : Prop :=
  vars G1 = vars G2 /\
  forall c, option_Forall2 same_edge (cons G1 !! c) (cons G2 !! c).

(** One round of either loop of [compute_dfdv], over the outgoing
    constraints when [fwd] and over the incoming ones otherwise. *)
Definition dfdv_round (n : nat) (last : option ptr) (fwd : bool)
    (dfdv : float) (c : ptr) : M float :=
  if bool_decide (Some c ≠ last) then
    cr <- get_con c ;;
    if active cr then
      z <- compute_dfdv n (if fwd then r cr else l cr) (Some c) ;;
      upd_con c (set_lm (if fwd then z else (- z)%float)) ;;
      cr' <- get_con c ;;
      ret (if fwd then (dfdv + lm cr')%float else (dfdv - lm cr')%float)
    else ret dfdv
  else ret dfdv.

(** The multiplier a sequence of assignments leaves in the constraint [c]:
    the one assigned last, or [acc] when there is no assignment to [c]. *)
Fixpoint last_write (ws : list (ptr * float)) (c : ptr) (acc : option float)
    : option float :=
  match ws with
  | [] => acc
  | w :: ws' => last_write ws' c (if decide (w.1 = c) then Some w.2 else acc)
  end.

(** A constraint with the multiplier assigned last, if any. *)
Definition written (o : option float) (cr : Constraint) : Constraint :=
  match o with
  | Some z => set_lm z cr
  | None => cr
  end.

(** ** The tree of active constraints *)

(** One step of the traversal of [compute_dfdv]: from the variable [v],
    reached by the constraint [last], along the active constraint [c] (an
    outgoing one to its right end, an incoming one to its left end) to [w]. *)
Definition hop (G : state) (last : option ptr) (v c w : ptr) : Prop :=
  exists vr cr,
    vars G !! v = Some vr /\ cons G !! c = Some cr /\
    active cr = true /\ Some c ≠ last /\
    ((c ∈ out vr /\ w = r cr) \/ (c ∈ in_ vr /\ w = l cr)).

(** A walk that never takes the constraint it has just come by. *)
Inductive walk (G : state) : option ptr -> ptr -> list ptr -> ptr -> Prop :=
  | walk_nil last v : walk G last v [] v
  | walk_cons last v c w p u :
      hop G last v c w -> walk G (Some c) w p u -> walk G last v (c :: p) u.

(** The constraint a walk arrives by. *)
Definition arrive (last : option ptr) (p : list ptr) : option ptr :=
  match list.last p with
  | Some c => Some c
  | None => last
  end.

(** A constraint of the heap, to which a property applies. *)
Definition at_con (G : state) (c : ptr) (P : Constraint -> Prop) : Prop :=
  match cons G !! c with
  | Some cr => P cr
  | None => False
  end.

(** The lists of a variable name each constraint once; the outgoing list
    names constraints whose left end is the variable, the incoming list
    constraints whose right end it is, and the other end is a variable of the
    heap. *)
Definition var_ok (G : state) (v : ptr) (vr : Var) : Prop :=
  NoDup (out vr) /\ NoDup (in_ vr) /\
  Forall (fun c => at_con G c (fun cr => l cr = v /\ is_Some (vars G !! r cr))) (out vr) /\
  Forall (fun c => at_con G c (fun cr => r cr = v /\ is_Some (vars G !! l cr))) (in_ vr).

(** A variable of the heap, to which a property applies. *)
Definition at_var (G : state) (v : ptr) (P : Var -> Prop) : Prop :=
  match vars G !! v with
  | Some vr => P vr
  | None => False
  end.

(** A constraint is in the outgoing list of its left variable and in the
    incoming list of its right variable. *)
Definition con_ok (G : state) (c : ptr) (cr : Constraint) : Prop :=
  at_var G (l cr) (fun vl => c ∈ out vl) /\
  at_var G (r cr) (fun vr => c ∈ in_ vr).

(** The heap as the constructor of [Constraint] leaves it. *)
Definition graph_ok (G : state) : Prop :=
  map_Forall (var_ok G) (vars G) /\ map_Forall (con_ok G) (cons G).

(** No cycle of active constraints: a walk from a variable reachable from
    [root] does not come back to the variable. *)
Definition acyclic (G : state) (root : ptr) : Prop :=
  forall p0 u p, walk G None root p0 u -> walk G None u p u -> p = [].

(** Two walks from [v] to the same variable are the same walk; from the
    root, this is to say that the active constraints reachable from it form a
    tree. *)
Definition unique_walks (G : state) (last : option ptr) (v : ptr) : Prop :=
  forall u p q, walk G last v p u -> walk G last v q u -> p = q.

Definition tree_at (G : state) (root : ptr) : Prop := unique_walks G None root.

(** The constraints of that tree. *)
Definition tree_edge (G : state) (root c : ptr) : Prop :=
  exists p u, walk G None root (p ++ [c]) u.

(** [D] bounds the length of every walk between two variables of the
    tree: the diameter is at most [D]. *)
Definition diam_le (G : state) (root : ptr) (D : nat) : Prop :=
  forall p0 v p u, walk G None root p0 v -> walk G None v p u -> length p <= D.

(** [n] exceeds the length of every walk from [v] on. *)
Definition below (G : state) (last : option ptr) (v : ptr) (n : nat) : Prop :=
  forall p u, walk G last v p u -> length p < n.

(** The constraints of [range] the traversal follows, each with the
    variable at its far end. *)
Definition kid (G : state) (last : option ptr) (fwd : bool) (c : ptr)
    : option (ptr * ptr) :=
  if bool_decide (Some c ≠ last) then
    match cons G !! c with
    | Some cr => if active cr then Some (c, if fwd then r cr else l cr) else None
    | None => None
    end
  else None.

Definition kids (G : state) (last : option ptr) (fwd : bool) (range : list ptr)
    : list (ptr * ptr) :=
  omap (kid G last fwd) range.

Definition all_kids (G : state) (last : option ptr) (vr : Var) : list (ptr * ptr) :=
  kids G last true (out vr) ++ kids G last false (in_ vr).

(** The assignments of one followed constraint: those of the subtree at
    its far end, then its own. *)
Definition segment (rec : ptr -> option ptr -> option (float * list (ptr * float)))
    (k : ptr * ptr) (seg : list (ptr * float)) : Prop :=
  exists z ws m, rec k.2 (Some k.1) = Some (z, ws) /\ seg = ws ++ [(k.1, m)].

(** The assignments of one followed constraint are to distinct
    constraints, each the last of a walk from [v] that starts with the
    followed constraint. *)
Definition branch (G : state) (last : option ptr) (v : ptr) (k : ptr * ptr)
    (seg : list (ptr * float)) : Prop :=
  NoDup (seg.*1) /\
  forall e, e ∈ seg.*1 ->
    exists p u, walk G last v (p ++ [e]) u /\ head (p ++ [e]) = Some k.1.

(** ** Deciding well-formedness *)

#[global] Instance at_con_dec G c P `{!forall cr, Decision (P cr)} :
  Decision (at_con G c P).
Proof. unfold at_con. destruct (cons G !! c); apply _. Defined.

#[global] Instance var_ok_dec G v vr : Decision (var_ok G v vr).
Proof. unfold var_ok. apply _. Defined.

#[global] Instance at_var_dec G v P `{!forall vr, Decision (P vr)} :
  Decision (at_var G v P).
Proof. unfold at_var. destruct (vars G !! v); apply _. Defined.

#[global] Instance con_ok_dec G c cr : Decision (con_ok G c cr).
Proof. unfold con_ok. apply _. Defined.

#[global] Instance graph_ok_dec G : Decision (graph_ok G).
Proof. unfold graph_ok. apply _. Defined.

#[global] Instance taken_dec st c : Decision (taken st c).
Proof. unfold taken. apply _. Defined.

(** ** Example states *)

(** Two variables at 0 and 2, both wanted at 0, and the constraint
    [x2 - x1 >= 2], after the constructors and after [init_blocks]. *)
Definition ex_built : state :=
  mkState {[1 := mkVar 0 0 0 None [] [10]; 2 := mkVar 0 2 0 None [10] []]}
          {[10 := mkConstraint 1 2 2 false 0]} ∅ [1; 2] [10] [] [10].

Definition ex_blocks : state :=
  mkState {[1 := mkVar 0 0 0 (Some 0) [] [10]; 2 := mkVar 0 2 0 (Some 1) [10] []]}
          {[10 := mkConstraint 1 2 2 false 0]}
          {[0 := mkBlock 0 0 [1] []; 1 := mkBlock 0 2 [2] []]}
          [1; 2] [10] [0; 1] [10].

(** Three variables at 0, 3 and 6, all wanted at 0, with gaps of 2
    required between neighbours: both constraints have the same step
    fraction. *)
Definition ex_tie : state :=
  mkState {[1 := mkVar 0 0 0 (Some 0) [] [10];
            2 := mkVar 0 3 0 (Some 1) [10] [11];
            3 := mkVar 0 6 0 (Some 2) [11] []]}
          {[10 := mkConstraint 1 2 2 false 0; 11 := mkConstraint 2 3 2 false 0]}
          {[0 := mkBlock 0 0 [1] []; 1 := mkBlock 0 3 [2] []; 2 := mkBlock 0 6 [3] []]}
          [1; 2; 3] [10; 11] [0; 1; 2] [10; 11].

Definition ex_tie_done : state :=
  mkState (vars ex_tie) (cons ex_tie)
          {[0 := mkBlock 0 0 [1] []; 1 := mkBlock 0 0 [2] []; 2 := mkBlock 0 0 [3] []]}
          [1; 2; 3] [10; 11] [0; 1; 2] [].

(** Two variables at -100 and 110, both wanted at [0x1.8p60], where doubles
    are 256 apart, and a required gap of 200, which the positions satisfy:
    both blocks are to move by the same double. *)
Definition ex_degenerate : state :=
  mkState {[1 := mkVar 0x1.8p60 (-100) 0 (Some 0) [] [10];
            2 := mkVar 0x1.8p60 110 0 (Some 1) [10] []]}
          {[10 := mkConstraint 1 2 200 false 0]}
          {[0 := mkBlock 0x1.8p60 (-100) [1] []; 1 := mkBlock 0x1.8p60 110 [2] []]}
          [1; 2] [10] [0; 1] [10].

(** A block of three variables at -1, 0 and 1, all wanted at 0, held
    together by two active constraints with gap 1. *)
Definition ex_chain : state :=
  mkState {[1 := mkVar 0 (-1) (-1) (Some 0) [] [10];
            2 := mkVar 0 0 0 (Some 0) [10] [11];
            3 := mkVar 0 1 1 (Some 0) [11] []]}
          {[10 := mkConstraint 1 2 1 true 7; 11 := mkConstraint 2 3 1 true 7]}
          {[0 := mkBlock 0 0 [2; 1; 3] [10; 11]]}
          [1; 2; 3] [10; 11] [0] [].

Definition ex_chain_done : state :=
  mkState (vars ex_chain)
          {[10 := mkConstraint 1 2 1 true 2; 11 := mkConstraint 2 3 1 true 2]}
          (blks ex_chain) [1; 2; 3] [10; 11] [0] [].

(** Two variables before any constraint is constructed. *)
Definition ex_vars : state :=
  mkState {[1 := mkVar 0 0 0 None [] []; 2 := mkVar 0 2 0 None [] []]}
          ∅ ∅ [] [] [] [].

(** Two variables held together by two active constraints between the
    same ends: a cycle of two constraints. *)
Definition ex_cycle : state :=
  mkState {[1 := mkVar 0 0 0 (Some 0) [] [10; 11];
            2 := mkVar 0 1 1 (Some 0) [10; 11] []]}
          {[10 := mkConstraint 1 2 1 true 0; 11 := mkConstraint 1 2 1 true 0]}
          {[0 := mkBlock 0 0 [1; 2] [10; 11]]}
          [1; 2] [10; 11] [0] [].

(** The block of [ex_chain] with its second constraint inactive, and the
    state after [computeLagrangians] on it. *)
Definition ex_half : state :=
  mkState (vars ex_chain)
          {[10 := mkConstraint 1 2 1 true 7; 11 := mkConstraint 2 3 1 false 7]}
          (blks ex_chain) [1; 2; 3] [10; 11] [0] [11].

Definition ex_half_done : state :=
  mkState (vars ex_chain)
          {[10 := mkConstraint 1 2 1 true 2; 11 := mkConstraint 2 3 1 false 0]}
          (blks ex_chain) [1; 2; 3] [10; 11] [0] [11].

(** A block without members. *)
Definition ex_hollow : state :=
  mkState ∅ ∅ {[0 := mkBlock 0 0 [] []]} [] [] [0] [].

(** Two variables whose blocks are where they are to go, both at 0, with a
    required gap of 2 between them: the one constraint is violated and neither
    block moves, so that its step fraction is 2 / 0. *)
Definition ex_stuck : state :=
  mkState {[1 := mkVar 0 0 0 (Some 0) [] [10]; 2 := mkVar 0 0 0 (Some 1) [10] []]}
          {[10 := mkConstraint 1 2 2 false 0]}
          {[0 := mkBlock 0 0 [1] []; 1 := mkBlock 0 0 [2] []]}
          [1; 2] [10] [0; 1] [10].

(** ** Deciding at the examples *)

Ltac decide_it := apply (bool_decide_unpack _); vm_compute; exact I.

(** * Properties *)

(** ** Reasoning in the monad *)

Lemma bind_Some {A B} (m : M A) (k : A -> M B) st b1 st' :
  bind m k st = Some (b1, st') <->
  exists a st1, m st = Some (a, st1) /\ k a st1 = Some (b1, st').
Proof.
  unfold bind. split.
  - destruct (m st) as [[a st1]|] eqn:E; [eauto | discriminate].
  - intros (a & st1 & -> & Hk). exact Hk.
Qed.

Lemma bind_assoc {A B D} (m : M A) (f : A -> M B) (h : B -> M D) st :
  bind (bind m f) h st = bind m (fun a => bind (f a) h) st.
Proof. unfold bind. destruct (m st) as [[a st1]|]; reflexivity. Qed.

Lemma bind_eq {A B} (m : M A) (k : A -> M B) st a st1 :
  m st = Some (a, st1) -> bind m k st = k a st1.
Proof. unfold bind. intros ->. reflexivity. Qed.

Lemma get_var_Some p st v :
  vars st !! p = Some v -> get_var p st = Some (v, st).
Proof. unfold get_var, bind, get, lift. intros ->. reflexivity. Qed.

Lemma get_con_Some p st c :
  cons st !! p = Some c -> get_con p st = Some (c, st).
Proof. unfold get_con, bind, get, lift. intros ->. reflexivity. Qed.

Lemma get_blk_Some p st B :
  blks st !! p = Some B -> get_blk p st = Some (B, st).
Proof. unfold get_blk, bind, get, lift. intros ->. reflexivity. Qed.

Lemma get_var_inv p st v st' :
  get_var p st = Some (v, st') -> st' = st /\ vars st !! p = Some v.
Proof.
  unfold get_var, bind, get, lift. destruct (vars st !! p); [|discriminate].
  intros [= -> ->]. auto.
Qed.

Lemma get_con_inv p st c st' :
  get_con p st = Some (c, st') -> st' = st /\ cons st !! p = Some c.
Proof.
  unfold get_con, bind, get, lift. destruct (cons st !! p); [|discriminate].
  intros [= -> ->]. auto.
Qed.

Lemma get_blk_inv p st B st' :
  get_blk p st = Some (B, st') -> st' = st /\ blks st !! p = Some B.
Proof.
  unfold get_blk, bind, get, lift. destruct (blks st !! p); [|discriminate].
  intros [= -> ->]. auto.
Qed.

Lemma upd_var_Some p f st v :
  vars st !! p = Some v ->
  upd_var p f st = Some (tt, with_vars <[p := f v]> st).
Proof. intros H. unfold upd_var. rewrite (bind_eq _ _ _ _ _ (get_var_Some _ _ _ H)). reflexivity. Qed.

Lemma upd_con_Some p f st c :
  cons st !! p = Some c ->
  upd_con p f st = Some (tt, with_cons <[p := f c]> st).
Proof. intros H. unfold upd_con. rewrite (bind_eq _ _ _ _ _ (get_con_Some _ _ _ H)). reflexivity. Qed.

Lemma upd_blk_Some p f st B :
  blks st !! p = Some B ->
  upd_blk p f st = Some (tt, with_blks <[p := f B]> st).
Proof. intros H. unfold upd_blk. rewrite (bind_eq _ _ _ _ _ (get_blk_Some _ _ _ H)). reflexivity. Qed.

Lemma upd_con_inv p f st u st' :
  upd_con p f st = Some (u, st') ->
  exists c, cons st !! p = Some c /\ st' = with_cons <[p := f c]> st.
Proof.
  unfold upd_con. intros H. apply bind_Some in H as (c & st1 & Hg & Hm).
  apply get_con_inv in Hg as [-> Hc]. injection Hm as _ <-. eauto.
Qed.

Lemma upd_blk_inv p f st u st' :
  upd_blk p f st = Some (u, st') ->
  exists B, blks st !! p = Some B /\ st' = with_blks <[p := f B]> st.
Proof.
  unfold upd_blk. intros H. apply bind_Some in H as (c & st1 & Hg & Hm).
  apply get_blk_inv in Hg as [-> Hc]. injection Hm as _ <-. eauto.
Qed.

(** ** The empty operations *)

(** C9: [make_active], [make_inactive] and [split_blocks] return with the
    whole state (every variable, constraint and block, the containers of the
    solver and the inactive set) exactly as it was at the call. *)
Theorem stubs_leave_state_unchanged (c : option ptr) (alpha : float) (st : state) :
  make_active c alpha st = Some (tt, st) /\
  make_inactive c st = Some (tt, st) /\
  split_blocks st = Some (tt, st).
Proof. repeat split. Qed.

(** ** Block creation *)

Lemma Block_ctor_Some p v vr st :
  vars st !! v = Some vr ->
  Block_ctor p v st =
    Some (tt, mkState (<[v := owned_by p vr]> (vars st)) (cons st)
                      (<[p := singleton_block vr v]> (blks st))
                      (vs st) (cs st) (blocks st) (inactive st)).
Proof.
  intros Hv. unfold Block_ctor.
  rewrite (bind_eq _ _ _ _ _ (get_var_Some _ _ _ Hv)).
  unfold bind at 1. unfold modify at 1.
  erewrite bind_eq; [|apply upd_blk_Some; simpl; apply lookup_insert_eq].
  erewrite bind_eq; [|apply upd_var_Some; simpl; exact Hv].
  erewrite upd_var_Some; [|simpl; apply lookup_insert_eq].
  unfold with_vars, with_blks; simpl.
  rewrite !insert_insert_eq. reflexivity.
Qed.

Lemma init_round_Some v vr st :
  vars st !! v = Some vr ->
  (p <- new_Block ;; Block_ctor p v ;; modify (with_blocks (fun bs => bs ++ [p]))) st
  = Some (tt, after_new_block v vr st).
Proof.
  intros Hv. unfold new_Block.
  unfold bind at 1. unfold bind at 1. unfold get at 1. unfold ret at 1.
  erewrite bind_eq; [|apply Block_ctor_Some; exact Hv].
  reflexivity.
Qed.

(** What the loop of [init_blocks] over the variables [range] establishes. *)
Lemma init_loop (range : list ptr) : forall st,
  (forall v, v ∈ range -> is_Some (vars st !! v)) ->
  exists st' ps,
    for_each range (fun (_ : unit) v =>
      p <- new_Block ;; Block_ctor p v ;;
      modify (with_blocks (fun bs => bs ++ [p]))) tt st = Some (tt, st') /\
    blocks st' = blocks st ++ ps /\
    length ps = length range /\
    NoDup ps /\
    (forall p, p ∈ ps -> blks st !! p = None) /\
    (forall q, is_Some (blks st !! q) -> blks st' !! q = blks st !! q) /\
    (forall i v, range !! i = Some v ->
       exists p vr vr', ps !! i = Some p /\
         vars st !! v = Some vr /\
         blks st' !! p = Some (singleton_block vr v) /\
         vars st' !! v = Some vr' /\ b vr' = 0%float) /\
    (forall v vr, vars st !! v = Some vr ->
       exists vr', vars st' !! v = Some vr' /\
         d vr' = d vr /\ x vr' = x vr /\ in_ vr' = in_ vr /\ out vr' = out vr /\
         (v ∈ range -> b vr' = 0%float /\
            exists p, p ∈ ps /\ block vr' = Some p /\ V <$> blks st' !! p = Some [v]) /\
         (v ∉ range -> vr' = vr)) /\
    cons st' = cons st /\ vs st' = vs st /\ cs st' = cs st /\
    inactive st' = inactive st.
Proof.
  induction range as [|v range IH]; intros st Hok.
  - exists st, []. simpl. rewrite app_nil_r.
    repeat split; auto using NoDup_nil_2.
    + intros p Hp. inversion Hp.
    + intros i v Hi. rewrite lookup_nil in Hi. discriminate.
    + intros v vr Hv. exists vr. do 5 (split; [done|]).
      split; [|done]. intros Hin. by apply elem_of_nil in Hin.
  - destruct (Hok v) as [vr Hv]; [left|].
    set (p := fresh (dom (blks st))).
    assert (Hp : blks st !! p = None).
    { apply not_elem_of_dom. apply is_fresh. }
    set (st1 := after_new_block v vr st).
    destruct (IH st1) as (st' & ps & Hrun & Hbl & Hlen & Hnd & Hfresh & Hkeep
                          & Hnew & Hvars & Hc & Hvs & Hcs & Hin).
    { intros w Hw. simpl. destruct (decide (v = w)) as [->|Hne].
      - rewrite lookup_insert_eq. eauto.
      - rewrite lookup_insert_ne by done. apply Hok. by right. }
    assert (Hpps : p ∉ ps).
    { intros Hpin. apply Hfresh in Hpin. simpl in Hpin.
      fold p in Hpin. rewrite lookup_insert_eq in Hpin. discriminate. }
    assert (Hkp : blks st' !! p = Some (singleton_block vr v)).
    { rewrite Hkeep; simpl; fold p; rewrite lookup_insert_eq; eauto. }
    exists st', (p :: ps). simpl.
    rewrite (bind_eq _ _ _ _ _ (init_round_Some _ _ _ Hv)).
    split; [exact Hrun|].
    split. { rewrite Hbl. simpl. fold p. by rewrite <- app_assoc. }
    split. { by rewrite Hlen. }
    split. { by apply NoDup_cons_2. }
    split.
    { intros q Hq. apply elem_of_cons in Hq as [->|Hq]; [done|].
      apply Hfresh in Hq. simpl in Hq. fold p in Hq.
      destruct (decide (p = q)) as [->|Hne]; [done|].
      by rewrite lookup_insert_ne in Hq. }
    split.
    { intros q Hq. rewrite Hkeep; simpl; fold p.
      - rewrite lookup_insert_ne; [done|]. intros <-. rewrite Hp in Hq. by destruct Hq.
      - destruct (decide (p = q)) as [->|Hne];
          [rewrite lookup_insert_eq | rewrite lookup_insert_ne by done]; eauto. }
    split.
    { intros [|i] w Hi; simpl in Hi.
      - injection Hi as <-.
        destruct (Hvars v (owned_by p vr)) as (vr' & Hv' & _ & _ & _ & _ & Hin1 & Hout1).
        { simpl. apply lookup_insert_eq. }
        exists p, vr, vr'. repeat split; auto.
        destruct (decide (v ∈ range)) as [Hi|Hni].
        + by destruct (Hin1 Hi).
        + by rewrite (Hout1 Hni).
      - destruct (Hnew i w Hi) as (q & wr & wr' & Hq & Hw & Hbq & Hw' & Hb0).
        simpl in Hw. destruct (decide (v = w)) as [->|Hne].
        + rewrite lookup_insert_eq in Hw. injection Hw as <-.
          exists q, vr, wr'. repeat split; auto.
        + rewrite lookup_insert_ne in Hw by done.
          exists q, wr, wr'. repeat split; auto. }
    split.
    { intros w wr Hw. destruct (decide (v = w)) as [<-|Hne].
      - assert (wr = vr) as -> by congruence.
        destruct (Hvars v (owned_by p vr)) as (vr' & Hv' & Hd & Hx & Hi & Ho & Hin1 & Hout1).
        { simpl. apply lookup_insert_eq. }
        exists vr'. do 5 (split; [done|]). split.
        + intros _. destruct (decide (v ∈ range)) as [Hi'|Hni].
          * destruct (Hin1 Hi') as (Hb0 & q & Hq & Hbq & HV).
            split; [done|]. exists q. split; [by right|]. auto.
          * rewrite (Hout1 Hni). split; [done|].
            exists p. split; [by left|]. split; [done|]. by rewrite Hkp.
        + intros Hn. exfalso. apply Hn. by left.
      - destruct (Hvars w wr) as (wr' & Hw' & Hd & Hx & Hi & Ho & Hin1 & Hout1).
        { simpl. by rewrite lookup_insert_ne. }
        exists wr'. do 5 (split; [done|]). split.
        + intros Hwin. apply elem_of_cons in Hwin as [->|Hwin]; [done|].
          destruct (Hin1 Hwin) as (Hb0 & q & Hq & Hbq & HV).
          split; [done|]. exists q. split; [by right|]. auto.
        + intros Hn. apply Hout1. intros Hwin. apply Hn. by right. }
    auto.
Qed.

(** C8: [init_blocks] creates one new block for each entry of [vs], in order,
    at pairwise distinct fresh addresses; the block created for the variable
    [v] has [v] as its only member, [XI] (the position the block starts from)
    equal to [v]'s position [x] and [X] equal to [v]'s desired position, and
    [v]'s offset [b] is zero afterwards, its position being untouched. *)
Theorem init_blocks_one_singleton_per_variable (st : state) :
  Forall (fun v => is_Some (vars st !! v)) (vs st) ->
  exists st' ps,
    init_blocks st = Some (tt, st') /\
    blocks st' = blocks st ++ ps /\
    length ps = length (vs st) /\
    NoDup ps /\
    Forall (fun p => blks st !! p = None) ps /\
    forall i v, vs st !! i = Some v ->
      exists p vr vr',
        ps !! i = Some p /\
        vars st !! v = Some vr /\
        blks st' !! p = Some (mkBlock (d vr) (x vr) [v] []) /\
        vars st' !! v = Some vr' /\
        b vr' = 0%float /\ x vr' = x vr /\ d vr' = d vr.
Proof.
  intros Hok.
  destruct (init_loop (vs st) st) as (st' & ps & Hrun & Hbl & Hlen & Hnd & Hfresh
                                      & _ & Hnew & Hvars & _).
  { by apply Forall_forall. }
  exists st', ps. split.
  { unfold init_blocks. unfold bind at 1. exact Hrun. }
  do 3 (split; [done|]). split; [by apply Forall_forall|].
  intros i v Hi.
  destruct (Hnew i v Hi) as (p & vr & vr' & Hp & Hv & Hb & Hv' & Hb0).
  destruct (Hvars v vr Hv) as (vr2 & Hv2 & Hd & Hx & _).
  assert (vr2 = vr') as -> by congruence.
  exists p, vr, vr'. by repeat split.
Qed.

(** ** The optimal position of a block *)

Lemma accumulate_sum_posdiff (members : list ptr) (vrs : list Var) st : forall acc,
  Forall2 (fun v vr => vars st !! v = Some vr) members vrs ->
  accumulate members acc sum_posdiff st =
    Some (fold_left PrimFloat.add (map (fun v => d v - b v)%float vrs) acc, st).
Proof.
  unfold accumulate. intros acc H. revert acc.
  induction H as [|v vr members vrs Hv _ IH]; intros acc; [reflexivity|].
  simpl. unfold sum_posdiff at 1.
  erewrite bind_eq; [apply IH|].
  erewrite bind_eq; [reflexivity|]. by apply get_var_Some.
Qed.

(** C4: [optBlockPos] returns the sum over the members, in order, of
    desired position less offset, divided by the number of members; the value
    is determined by the member list and the members' [d] and [b] alone, and
    the state after the call is the state before it. *)
Theorem optBlockPos_is_mean (this : ptr) (B : Block) (vrs : list Var) (st : state) :
  blks st !! this = Some B ->
  Forall2 (fun v vr => vars st !! v = Some vr) (V B) vrs ->
  optBlockPos this st = Some (mean_posdiff vrs, st).
Proof.
  intros HB Hm. unfold optBlockPos.
  rewrite (bind_eq _ _ _ _ _ (get_blk_Some _ _ _ HB)).
  rewrite (bind_eq _ _ _ _ _ (accumulate_sum_posdiff _ _ _ _ Hm)).
  unfold ret, mean_posdiff, fsum. by rewrite (Forall2_length _ _ _ Hm).
Qed.

(** ** The order of doubles

    Facts about the comparisons of IEEE doubles, from the specification of
    the primitive operations. *)
Section float_order.
Local Open Scope float_scope.

Lemma SFcompare_finite s1 m1 e1 s2 m2 e2 :
  SFcompare (S754_finite s1 m1 e1) (S754_finite s2 m2 e2) =
  Some (if s1 then
          if s2 then
            CompOpp (match (e1 ?= e2)%Z with Eq => (m1 ?= m2)%positive | c => c end)
          else Lt
        else
          if s2 then Gt
          else match (e1 ?= e2)%Z with Eq => (m1 ?= m2)%positive | c => c end).
Proof. simpl. destruct s1, s2; try reflexivity; destruct (e1 ?= e2)%Z; reflexivity. Qed.

Ltac cmp_cases :=
  repeat match goal with
  | |- context [(?a ?= ?b)%Z] => destruct (Z.compare_spec a b)
  | |- context [(?a ?= ?b)%positive] => destruct (Pos.compare_spec a b)
  | H : context [(?a ?= ?b)%Z] |- _ => destruct (Z.compare_spec a b)
  | H : context [(?a ?= ?b)%positive] |- _ => destruct (Pos.compare_spec a b)
  end; simpl in *; try discriminate; try reflexivity; try lia.

Ltac sf_cases :=
  rewrite ?SFcompare_finite; simpl; try discriminate; try reflexivity;
  repeat match goal with s : bool |- _ => destruct s end; simpl;
  try discriminate; try reflexivity; cmp_cases.

Lemma SFltb_trans u v w : SFltb u v = true -> SFltb v w = true -> SFltb u w = true.
Proof.
  unfold SFltb.
  destruct u as [su|su| |su mu eu], v as [sv|sv| |sv mv ev], w as [sw|sw| |sw mw ew];
    sf_cases.
Qed.

Lemma SFleb_ltb_trans u v w : SFleb u v = true -> SFltb v w = true -> SFltb u w = true.
Proof.
  unfold SFltb, SFleb.
  destruct u as [su|su| |su mu eu], v as [sv|sv| |sv mv ev], w as [sw|sw| |sw mw ew];
    sf_cases.
Qed.

Lemma SFltb_irrefl u : SFltb u u = false.
Proof.
  unfold SFltb. destruct u as [su|su| |su mu eu]; rewrite ?SFcompare_finite; simpl;
    repeat match goal with s : bool |- _ => destruct s end; simpl; try reflexivity.
  all: rewrite Z.compare_refl, Pos.compare_refl; reflexivity.
Qed.

Lemma ltb_trans u v w : (u <? v) = true -> (v <? w) = true -> (u <? w) = true.
Proof. rewrite !FloatAxioms.ltb_spec. apply SFltb_trans. Qed.

Lemma leb_ltb_trans u v w : (u <=? v) = true -> (v <? w) = true -> (u <? w) = true.
Proof. rewrite FloatAxioms.leb_spec, !FloatAxioms.ltb_spec. apply SFleb_ltb_trans. Qed.

Lemma ltb_irrefl u : (u <? u) = false.
Proof. rewrite FloatAxioms.ltb_spec. apply SFltb_irrefl. Qed.

Lemma ltb_asym u v : (u <? v) = true -> (v <? u) = false.
Proof.
  intros H. destruct (v <? u) eqn:E; [|reflexivity].
  rewrite <- (ltb_irrefl u). symmetry. eapply ltb_trans; eassumption.
Qed.

Lemma ltb_not_leb u v : (u <? v) = true -> (v <=? u) = false.
Proof.
  intros H. destruct (v <=? u) eqn:E; [|reflexivity].
  rewrite <- (ltb_irrefl v). symmetry. eapply leb_ltb_trans; eassumption.
Qed.

(** Nothing is above [infinity], and [nan] is below nothing. *)
Lemma infinity_ltb u : (infinity <? u) = false.
Proof.
  rewrite FloatAxioms.ltb_spec. change (Prim2SF infinity) with (S754_infinity false).
  unfold SFltb. destruct (Prim2SF u) as [s|s| |s m e]; simpl; try reflexivity;
    destruct s; reflexivity.
Qed.

Lemma nan_ltb u : (nan <? u) = false.
Proof.
  rewrite FloatAxioms.ltb_spec. change (Prim2SF nan) with S754_nan. reflexivity.
Qed.

(** A quotient whose divisor compares equal to zero is a NaN or an
    infinity. *)
Lemma div_by_zero u v :
  (v =? 0) = true ->
  u / v = nan \/ u / v = infinity \/ u / v = neg_infinity.
Proof.
  rewrite FloatAxioms.eqb_spec. change (Prim2SF 0) with (S754_zero false).
  intros Hv.
  assert (Hq : Prim2SF (u / v) = S754_nan \/
               Prim2SF (u / v) = S754_infinity false \/
               Prim2SF (u / v) = S754_infinity true).
  { rewrite FloatAxioms.div_spec. unfold SF64div, SFdiv.
    destruct (Prim2SF v) as [sv|sv| |sv mv ev]; simpl in Hv;
      try discriminate; try (destruct sv; discriminate).
    destruct (Prim2SF u) as [su|su| |su mu eu]; auto;
      destruct (xorb su sv); auto. }
  destruct Hq as [Hq|[Hq|Hq]]; [left|right; left|right; right];
    apply Prim2SF_inj; rewrite Hq; reflexivity.
Qed.

End float_order.

(** ** The safe step of one constraint *)

Lemma constraint_alpha_unfold c st cr vl vr BL BR :
  resolves st c cr vl vr BL BR ->
  constraint_alpha c st =
    Some (if (X BL + b vl + g cr <=? X BR + b vr)%float then 1%float
          else ((g cr + (XI BL + b vl) - (XI BR + b vr)) /
                (X BR - XI BR - (X BL - XI BL)))%float, st).
Proof.
  intros (Hc & Hl & Hr & HBl & HBr). unfold constraint_alpha.
  rewrite (bind_eq _ _ _ _ _ (get_con_Some _ _ _ Hc)).
  rewrite (bind_eq _ _ _ _ _ (get_var_Some _ _ _ Hl)).
  rewrite (bind_eq _ _ _ _ _ (get_var_Some _ _ _ Hr)).
  destruct (block vl) as [pl|]; [|discriminate].
  destruct (block vr) as [pr|]; [|discriminate].
  simpl in HBl, HBr.
  unfold bind at 1, lift at 1. unfold bind at 1, lift at 1.
  rewrite (bind_eq _ _ _ _ _ (get_blk_Some _ _ _ HBl)).
  rewrite (bind_eq _ _ _ _ _ (get_blk_Some _ _ _ HBr)).
  destruct (X BL + b vl + g cr <=? X BR + b vr)%float; reflexivity.
Qed.

Lemma constraint_alpha_state c st a st' :
  constraint_alpha c st = Some (a, st') -> st' = st.
Proof.
  unfold constraint_alpha. intros H.
  apply bind_Some in H as (cr & s1 & H1 & H). apply get_con_inv in H1 as [E1 _].
  apply bind_Some in H as (vl & s2 & H2 & H). apply get_var_inv in H2 as [E2 _].
  apply bind_Some in H as (vr & s3 & H3 & H). apply get_var_inv in H3 as [E3 _].
  apply bind_Some in H as (pl & s4 & H4 & H).
  unfold lift in H4. destruct (block vl); [|discriminate]. injection H4 as _ E4.
  apply bind_Some in H as (pr & s5 & H5 & H).
  unfold lift in H5. destruct (block vr); [|discriminate]. injection H5 as _ E5.
  apply bind_Some in H as (BL & s6 & H6 & H). apply get_blk_inv in H6 as [E6 _].
  apply bind_Some in H as (BR & s7 & H7 & H). apply get_blk_inv in H7 as [E7 _].
  assert (st' = s7) as -> by (destruct (_ <=? _)%float; by injection H).
  congruence.
Qed.

Lemma MaxSafeAlpha_call_unfold f c st a :
  constraint_alpha c st = Some (a, st) ->
  MaxSafeAlpha_call f c st =
    Some (if (a <? safeAlpha f)%float then mkMaxSafeAlpha (Some c) a else f, st).
Proof.
  intros H. unfold MaxSafeAlpha_call. rewrite (bind_eq _ _ _ _ _ H).
  destruct (a <? safeAlpha f)%float; reflexivity.
Qed.

(** C1: for a constraint whose objects are all there, the step fraction is
    1 when the left block's target [X] plus the left offset plus the gap is
    at most the right block's target plus the right offset, and otherwise
    the quotient [(g + Al - Ar) / (Br - Bl)] with [Al = XI_l + b_l],
    [Ar = XI_r + b_r], [Bl = X_l - XI_l] and [Br = X_r - XI_r]. *)
Theorem constraint_alpha_value (c : ptr) (st : state)
    (cr : Constraint) (vl vr : Var) (BL BR : Block) :
  resolves st c cr vl vr BL BR ->
  let Al := (XI BL + b vl)%float in
  let Ar := (XI BR + b vr)%float in
  let Bl := (X BL - XI BL)%float in
  let Br := (X BR - XI BR)%float in
  constraint_alpha c st =
    Some (if (X BL + b vl + g cr <=? X BR + b vr)%float then 1%float
          else ((g cr + Al - Ar) / (Br - Bl))%float, st).
Proof. intros H. simpl. by apply constraint_alpha_unfold. Qed.

Lemma float_nan_not_one : nan ≠ 1%float.
Proof. intros H. apply (f_equal is_nan) in H. discriminate H. Qed.

Lemma float_infinity_not_one : infinity ≠ 1%float.
Proof. intros H. apply (f_equal is_infinity) in H. discriminate H. Qed.

Lemma float_neg_infinity_not_one : neg_infinity ≠ 1%float.
Proof. intros H. apply (f_equal is_infinity) in H. discriminate H. Qed.

(** C2, as the code has it: when the constraint is not satisfied at full
    interpolation and the divisor [Br - Bl] compares equal to zero, the step
    fraction is still the quotient [(g + Al - Ar) / (Br - Bl)]; it is a NaN or
    an infinity, never 1, and unless it is minus infinity the call of the
    function object leaves the constraint and fraction found so far as they
    were. *)
Theorem zero_divisor_alpha (c : ptr) (st : state)
    (cr : Constraint) (vl vr : Var) (BL BR : Block) :
  resolves st c cr vl vr BL BR ->
  (X BL + b vl + g cr <=? X BR + b vr)%float = false ->
  (X BR - XI BR - (X BL - XI BL) =? 0)%float = true ->
  let q := ((g cr + (XI BL + b vl) - (XI BR + b vr)) /
            (X BR - XI BR - (X BL - XI BL)))%float in
  constraint_alpha c st = Some (q, st) /\
  (q = nan \/ q = infinity \/ q = neg_infinity) /\
  q ≠ 1%float /\
  (q ≠ neg_infinity -> forall f, MaxSafeAlpha_call f c st = Some (f, st)).
Proof.
  intros Hres Hle Hz q.
  assert (Ha : constraint_alpha c st = Some (q, st)).
  { rewrite (constraint_alpha_unfold _ _ _ _ _ _ _ Hres), Hle. reflexivity. }
  pose proof (div_by_zero (g cr + (XI BL + b vl) - (XI BR + b vr)) _ Hz) as Hq.
  fold q in Hq. split; [exact Ha|]. split; [exact Hq|]. split.
  - destruct Hq as [->|[->| ->]];
      auto using float_nan_not_one, float_infinity_not_one, float_neg_infinity_not_one.
  - intros Hneg f. rewrite (MaxSafeAlpha_call_unfold _ _ _ _ Ha).
    destruct Hq as [->|[->|Hq]]; [by rewrite nan_ltb|by rewrite infinity_ltb|done].
Qed.

(** ** The search for the safe step *)

(** The search from the function object [f0] over [range], whose step
    fractions are [alphas]: either nothing in the range is below [f0]'s
    fraction and [f0] is returned, or the result is the first position
    whose fraction is below [f0]'s and not above any other's. *)
Lemma for_each_MaxSafeAlpha st (range : list ptr) (alphas : list float) :
  Forall2 (fun c a => constraint_alpha c st = Some (a, st)) range alphas ->
  forall f0, exists f,
    for_each range MaxSafeAlpha_call f0 st = Some (f, st) /\
    (forall a, a ∈ alphas -> (a <? safeAlpha f)%float = false) /\
    ((f = f0) \/
     exists i c, range !! i = Some c /\ alphas !! i = Some (safeAlpha f) /\
       safeC f = Some c /\
       (safeAlpha f <? safeAlpha f0)%float = true /\
       forall j a, j < i -> alphas !! j = Some a -> (a <=? safeAlpha f)%float = false).
Proof.
  induction 1 as [|c a range alphas Hc _ IH]; intros f0.
  - exists f0. split; [reflexivity|]. split; [|by left].
    intros a Ha. by apply elem_of_nil in Ha.
  - simpl. rewrite (bind_eq _ _ _ _ _ (MaxSafeAlpha_call_unfold f0 _ _ _ Hc)).
    destruct (a <? safeAlpha f0)%float eqn:Hlt.
    + destruct (IH (mkMaxSafeAlpha (Some c) a)) as (f & Hrun & Hmin & Hsel).
      exists f. split; [exact Hrun|].
      destruct Hsel as [->|(i & ci & Hi & Hai & HC & Hlt' & Hfirst)]; simpl in *.
      * split.
        { intros a' Ha'. apply elem_of_cons in Ha' as [->|Ha'];
            [apply ltb_irrefl | by apply Hmin]. }
        right. exists 0, c. simpl. repeat split; auto. intros j a' Hj. lia.
      * split.
        { intros a' Ha'. apply elem_of_cons in Ha' as [->|Ha'];
            [by apply ltb_asym | by apply Hmin]. }
        right. exists (S i), ci. simpl. repeat split; auto.
        { eapply ltb_trans; eassumption. }
        intros [|j] a' Hj Ha'; simpl in Ha'.
        -- injection Ha' as <-. by apply ltb_not_leb.
        -- apply (Hfirst j); [lia|done].
    + destruct (IH f0) as (f & Hrun & Hmin & Hsel).
      exists f. split; [exact Hrun|].
      destruct Hsel as [->|(i & ci & Hi & Hai & HC & Hlt' & Hfirst)].
      * split; [|by left].
        intros a' Ha'. apply elem_of_cons in Ha' as [->|Ha']; [done | by apply Hmin].
      * split.
        { intros a' Ha'. apply elem_of_cons in Ha' as [->|Ha']; [|by apply Hmin].
          destruct (a <? safeAlpha f)%float eqn:E; [|done].
          rewrite <- Hlt. symmetry. eapply ltb_trans; eassumption. }
        right. exists (S i), ci. simpl. repeat split; auto.
        intros [|j] a' Hj Ha'; simpl in Ha'.
        -- injection Ha' as <-.
           destruct (a <=? safeAlpha f)%float eqn:E; [|done].
           rewrite <- Hlt. symmetry. eapply leb_ltb_trans; eassumption.
        -- apply (Hfirst j); [lia|done].
Qed.

(** C5, as the code has it: a pass of the search over the inactive set,
    whose step fractions are [alphas], returns a fraction that no fraction of
    the set is below. It returns no constraint (a null pointer) exactly when no
    fraction of the set is below [DBL_MAX], as when the set is empty or its
    fractions are NaNs or plus infinity, and the fraction it returns then is
    [DBL_MAX], the fraction of no constraint. Otherwise it returns a constraint
    of the set together with its fraction, which is the least one, and every
    earlier position has a fraction that is not less than or equal to it: among
    equal least fractions the first in iteration order is taken. *)
Theorem safe_step_search_minimum (st : state) (alphas : list float) :
  Forall2 (fun c a => constraint_alpha c st = Some (a, st)) (inactive st) alphas ->
  exists f,
    safe_step_search st = Some (f, st) /\
    (forall a, a ∈ alphas -> (a <? safeAlpha f)%float = false) /\
    (safeC f = None <-> forall a, a ∈ alphas -> (a <? DBL_MAX)%float = false) /\
    match safeC f with
    | Some c =>
      exists i, inactive st !! i = Some c /\ alphas !! i = Some (safeAlpha f) /\
        (safeAlpha f <? DBL_MAX)%float = true /\
        forall j a, j < i -> alphas !! j = Some a -> (a <=? safeAlpha f)%float = false
    | None => safeAlpha f = DBL_MAX
    end.
Proof.
  intros H.
  destruct (for_each_MaxSafeAlpha st _ _ H MaxSafeAlpha_ctor) as (f & Hrun & Hmin & Hsel).
  exists f. split; [exact Hrun|]. split; [exact Hmin|].
  destruct Hsel as [->|(i & c & Hi & Hai & HC & Hlt & Hfirst)].
  - split; [|reflexivity]. split; [intros _; exact Hmin | reflexivity].
  - rewrite HC. split; [|exists i; auto]. split; [discriminate|].
    intros Hnone. exfalso.
    assert (Hin : safeAlpha f ∈ alphas) by by eapply list_elem_of_lookup_2.
    simpl in Hlt. rewrite (Hnone _ Hin) in Hlt. discriminate Hlt.
Qed.

(** ** make_optimal *)

Lemma MaxSafeAlpha_call_state f c st f' st' :
  MaxSafeAlpha_call f c st = Some (f', st') -> st' = st.
Proof.
  unfold MaxSafeAlpha_call. intros H.
  apply bind_Some in H as (a & s1 & Ha & H).
  apply constraint_alpha_state in Ha as ->.
  destruct (a <? safeAlpha f)%float; by injection H.
Qed.

Lemma for_each_MaxSafeAlpha_state range : forall f st f' st',
  for_each range MaxSafeAlpha_call f st = Some (f', st') -> st' = st.
Proof.
  induction range as [|c range IH]; intros f st f' st' H; simpl in H.
  - by injection H.
  - apply bind_Some in H as (f1 & s1 & H1 & H).
    apply MaxSafeAlpha_call_state in H1 as ->. eauto.
Qed.

Lemma safe_step_search_state st f st' :
  safe_step_search st = Some (f, st') -> st' = st.
Proof. unfold safe_step_search, bind at 1, get. apply for_each_MaxSafeAlpha_state. Qed.

(** The step fraction of a constraint does not depend on the inactive set. *)
Lemma constraint_alpha_inactive c h st :
  constraint_alpha c (with_inactive h st) =
  match constraint_alpha c st with
  | Some (a, s) => Some (a, with_inactive h s)
  | None => None
  end.
Proof.
  unfold constraint_alpha, bind, get_con, get_var, get_blk, bind, get, lift, ret.
  simpl.
  destruct (cons st !! c) as [cr|]; simpl; [|done].
  destruct (vars st !! l cr) as [vl|]; simpl; [|done].
  destruct (vars st !! r cr) as [vr|]; simpl; [|done].
  destruct (block vl) as [pl|]; simpl; [|done].
  destruct (block vr) as [pr|]; simpl; [|done].
  destruct (blks st !! pl) as [BL|]; simpl; [|done].
  destruct (blks st !! pr) as [BR|]; simpl; [|done].
  by destruct (_ <=? _)%float.
Qed.

Lemma searchable_alphas st :
  searchable st ->
  exists alphas,
    Forall2 (fun c a => constraint_alpha c st = Some (a, st)) (inactive st) alphas.
Proof.
  unfold searchable. induction 1 as [|c range [[a s] Hc] _ [alphas IH]].
  - exists []. constructor.
  - exists (a :: alphas). constructor; [|exact IH].
    by rewrite Hc, (constraint_alpha_state _ _ _ _ Hc).
Qed.

Lemma searchable_erase c st :
  searchable st -> searchable (with_inactive (set_erase c) st).
Proof.
  unfold searchable. intros H. simpl.
  assert (Hsub : Forall (fun c' => is_Some (constraint_alpha c' st))
                        (set_erase c (inactive st))).
  { destruct c as [c|]; simpl; [|done].
    apply Forall_forall. intros c' Hc'. apply list_elem_of_filter in Hc' as [_ Hc'].
    revert c' Hc'. by apply Forall_forall. }
  eapply Forall_impl; [exact Hsub|]. intros c' [[a s] Hc'].
  rewrite constraint_alpha_inactive, Hc'. eauto.
Qed.

Lemma set_erase_shrinks c (s : list ptr) :
  c ∈ s -> length (set_erase (Some c) s) < length s.
Proof. intros Hc. simpl. apply (length_filter_lt _ _ c); [done|]. by intros H. Qed.

(** A search that returns a fraction below 1 returns a constraint of the
    inactive set with it. *)
Lemma safe_step_search_selected st f :
  searchable st ->
  safe_step_search st = Some (f, st) ->
  (safeAlpha f <? 1)%float = true ->
  exists c, safeC f = Some c /\ c ∈ inactive st.
Proof.
  intros Hs Hrun Hlt.
  destruct (searchable_alphas _ Hs) as [alphas Hal].
  destruct (for_each_MaxSafeAlpha st _ _ Hal MaxSafeAlpha_ctor)
    as (f' & Hrun' & _ & Hsel).
  assert (f' = f) as ->.
  { unfold safe_step_search, bind at 1, get in Hrun. congruence. }
  destruct Hsel as [->|(i & c & Hi & _ & HC & _)].
  - discriminate Hlt.
  - exists c. split; [done|]. by eapply list_elem_of_lookup_2.
Qed.

Lemma safe_step_search_total st :
  searchable st -> exists f, safe_step_search st = Some (f, st).
Proof.
  intros Hs. destruct (searchable_alphas _ Hs) as [alphas Hal].
  destruct (for_each_MaxSafeAlpha st _ _ Hal MaxSafeAlpha_ctor) as (f & Hrun & _).
  by exists f.
Qed.

Lemma with_inactive_id st : with_inactive (erase_all []) st = st.
Proof. by destruct st. Qed.

(** The activation loop changes nothing but the inactive set, from which
    it erases the constraints it activates. *)
Lemma activation_loop_state n : forall f st acts st',
  activation_loop n f st = Some (acts, st') ->
  st' = with_inactive (erase_all acts) st.
Proof.
  induction n as [|n IH]; intros f st acts st' H; simpl in H;
    destruct (safeAlpha f <? 1)%float; try discriminate.
  - injection H as <- <-. by rewrite with_inactive_id.
  - unfold make_active in H. unfold bind at 1, ret at 1 in H.
    unfold bind at 1, modify at 1 in H.
    apply bind_Some in H as (f' & s1 & Hs & H).
    apply safe_step_search_state in Hs as ->.
    apply bind_Some in H as (acts' & s2 & Hl & H).
    injection H as <- <-. by rewrite (IH _ _ _ _ Hl).
  - injection H as <- <-. by rewrite with_inactive_id.
Qed.

Lemma shrinking_length acts : forall s,
  shrinking acts s -> length (erase_all acts s) + length acts <= length s.
Proof.
  induction acts as [|a acts IH]; intros s; simpl; [unfold erase_all; simpl; lia|].
  intros (_ & Hlt & Hs). specialize (IH _ Hs). unfold erase_all in *. simpl. lia.
Qed.

Lemma activation_loop_total n : forall f st,
  length (inactive st) <= n ->
  searchable st ->
  safe_step_search st = Some (f, st) ->
  exists acts,
    activation_loop n f st = Some (acts, with_inactive (erase_all acts) st) /\
    shrinking acts (inactive st).
Proof.
  induction n as [|n IH]; intros f st Hn Hs Hrun; simpl.
  - destruct (safeAlpha f <? 1)%float eqn:Hlt.
    + destruct (safe_step_search_selected _ _ Hs Hrun Hlt) as (c & _ & Hc).
      destruct (inactive st); [by apply elem_of_nil in Hc | simpl in Hn; lia].
    + exists []. by rewrite with_inactive_id.
  - destruct (safeAlpha f <? 1)%float eqn:Hlt.
    + destruct (safe_step_search_selected _ _ Hs Hrun Hlt) as (c & HC & Hc).
      pose proof (set_erase_shrinks _ _ Hc) as Hsh.
      set (st1 := with_inactive (set_erase (safeC f)) st).
      assert (Hs1 : searchable st1) by by apply searchable_erase.
      destruct (safe_step_search_total _ Hs1) as [f' Hrun'].
      destruct (IH f' st1) as (acts & Hloop & Hshr); [|done|done|].
      { simpl. rewrite HC. lia. }
      exists (safeC f :: acts).
      unfold make_active. unfold bind at 1, ret at 1.
      unfold bind at 1, modify at 1. fold st1.
      rewrite (bind_eq _ _ _ _ _ Hrun'), (bind_eq _ _ _ _ _ Hloop).
      split; [reflexivity|]. simpl. rewrite HC. split; [by exists c|].
      split; [done|]. subst st1. simpl in Hshr. by rewrite HC in Hshr.
    + exists []. by rewrite with_inactive_id.
Qed.

Lemma steps_taken_lookup range : forall (m : gmap nat Block) p,
  steps_taken range m !! p =
    if decide (p ∈ range) then step_taken <$> m !! p else m !! p.
Proof.
  induction range as [|q range IH]; intros m p.
  - case_decide as Hin; [by apply elem_of_nil in Hin | done].
  - change (steps_taken (q :: range) m) with (steps_taken range (alter step_taken q m)).
    rewrite IH. destruct (decide (p = q)) as [->|Hne].
    + rewrite lookup_alter_eq. rewrite (decide_True (P := q ∈ q :: range)) by by left.
      case_decide; [|done]. by destruct (m !! q).
    + rewrite lookup_alter_ne by done.
      destruct (decide (p ∈ range)) as [Hin|Hnin].
      * rewrite decide_True; [done | by right].
      * rewrite decide_False; [done|].
        intros [?|?]%elem_of_cons; contradiction.
Qed.

Lemma insert_step_taken (m : gmap nat Block) p B :
  m !! p = Some B -> <[p := set_XI (X B) B]> m = alter step_taken p m.
Proof.
  intros HB. apply map_eq. intros q. destruct (decide (p = q)) as [->|Hne].
  - by rewrite lookup_insert_eq, lookup_alter_eq, HB.
  - by rewrite lookup_insert_ne, lookup_alter_ne.
Qed.

Lemma for_each_step_state range : forall st u st',
  for_each range (fun _ p => upd_blk p (fun B => set_XI (X B) B)) tt st = Some (u, st') ->
  st' = with_blks (steps_taken range) st.
Proof.
  induction range as [|p range IH]; intros st u st' H; simpl in H.
  - injection H as _ <-. by destruct st.
  - apply bind_Some in H as ([] & s1 & Hu & H).
    apply upd_blk_inv in Hu as (B & HB & ->).
    apply IH in H as ->. unfold with_blks; simpl.
    rewrite (insert_step_taken _ _ _ HB). reflexivity.
Qed.

Lemma for_each_step_total range : forall st,
  Forall (fun p => is_Some (blks st !! p)) range ->
  for_each range (fun _ p => upd_blk p (fun B => set_XI (X B) B)) tt st =
    Some (tt, with_blks (steps_taken range) st).
Proof.
  induction range as [|p range IH]; intros st H; simpl.
  - by destruct st.
  - apply Forall_cons in H as [[B HB] H].
    rewrite (bind_eq _ _ _ _ _ (upd_blk_Some _ _ _ _ HB)).
    rewrite IH.
    { unfold with_blks; simpl. rewrite (insert_step_taken _ _ _ HB). reflexivity. }
    eapply Forall_impl; [exact H|]. intros q [Bq Hq]. simpl.
    rewrite (insert_step_taken _ _ _ HB).
    destruct (decide (p = q)) as [->|Hne].
    + rewrite lookup_alter_eq, Hq. by eexists.
    + rewrite lookup_alter_ne by done. eauto.
Qed.

(** The constructor leaves in [inactive] each constraint of [cs] once. *)
Lemma set_insert_elem c s c' : c' ∈ set_insert c s <-> c' = c \/ c' ∈ s.
Proof.
  induction s as [|c0 s IH]; simpl.
  - rewrite list_elem_of_singleton, elem_of_nil. tauto.
  - repeat case_decide; rewrite ?elem_of_cons, ?IH; subst; tauto.
Qed.

Lemma set_insert_sorted c s :
  StronglySorted lt s -> StronglySorted lt (set_insert c s).
Proof.
  induction 1 as [|c0 s Hs IH Hall]; simpl.
  - repeat constructor.
  - repeat case_decide.
    + constructor; [by constructor|]. constructor; [done|].
      eapply Forall_impl; [exact Hall|]. simpl. lia.
    + by constructor.
    + constructor; [done|]. apply Forall_forall. intros c' Hc'.
      apply set_insert_elem in Hc' as [->|Hc']; [lia|].
      revert c' Hc'. by apply Forall_forall.
Qed.

Lemma StronglySorted_lt_NoDup (s : list ptr) : StronglySorted lt s -> NoDup s.
Proof.
  induction 1 as [|c s _ IH Hall]; constructor; [|done].
  intros Hc. rewrite Forall_forall in Hall. specialize (Hall _ Hc). lia.
Qed.

Lemma set_of_range_spec range :
  StronglySorted lt (set_of_range range) /\
  forall c, c ∈ set_of_range range <-> c ∈ range.
Proof.
  unfold set_of_range.
  assert (H : forall s, StronglySorted lt s ->
            StronglySorted lt (fold_left (fun s c => set_insert c s) range s) /\
            forall c, c ∈ fold_left (fun s c => set_insert c s) range s <->
                      c ∈ range \/ c ∈ s).
  { induction range as [|c0 range IH]; intros s Hs; simpl.
    - split; [done|]. intros c. rewrite elem_of_nil. tauto.
    - destruct (IH (set_insert c0 s)) as [H1 H2]; [by apply set_insert_sorted|].
      split; [done|]. intros c. rewrite H2, set_insert_elem, elem_of_cons. tauto. }
  destruct (H []) as [H1 H2]; [constructor|]. split; [done|].
  intros c. rewrite H2, elem_of_nil. tauto.
Qed.

(** After the constructor the inactive set holds the constraints of [cs],
    each once. *)
Lemma FeasibleProjectionAlgorithm_ctor_inactive vs0 cs0 st :
  exists st',
    FeasibleProjectionAlgorithm_ctor vs0 cs0 st = Some (tt, st') /\
    cs st' = cs0 /\ NoDup (inactive st') /\ inactive st' ⊆ cs st' /\
    length (inactive st') <= length cs0.
Proof.
  eexists. split; [reflexivity|]. simpl.
  destruct (set_of_range_spec cs0) as [Hs He].
  assert (Hnd : NoDup (set_of_range cs0)) by by apply StronglySorted_lt_NoDup.
  split; [done|]. split; [done|]. split.
  - intros c. apply He.
  - apply submseteq_length, NoDup_submseteq; [done|]. intros c. apply He.
Qed.

(** C6: started with at least as much fuel as there are constraints in
    [cs], [make_optimal] returns. Each round of its loop activates a
    constraint that is in the inactive set at that moment and erases it, which
    makes the set strictly smaller, so the rounds are at most as many as the
    inactive set has elements, and that is at most the number of
    constraints. *)
Theorem make_optimal_terminates (st : state) :
  searchable st ->
  Forall (fun p => is_Some (blks st !! p)) (blocks st) ->
  NoDup (inactive st) ->
  inactive st ⊆ cs st ->
  exists acts st',
    make_optimal (length (cs st)) st = Some (acts, st') /\
    shrinking acts (inactive st) /\
    inactive st' = erase_all acts (inactive st) /\
    length (inactive st') + length acts <= length (inactive st) /\
    length (inactive st) <= length (cs st).
Proof.
  intros Hs Hb Hnd Hsub.
  assert (Hlen : length (inactive st) <= length (cs st)).
  { apply submseteq_length, NoDup_submseteq; [done|]. intros c Hc. by apply Hsub. }
  destruct (safe_step_search_total _ Hs) as [f Hrun].
  destruct (activation_loop_total (length (cs st)) f st Hlen Hs Hrun)
    as (acts & Hloop & Hshr).
  exists acts, (with_blks (steps_taken (blocks st)) (with_inactive (erase_all acts) st)).
  split.
  { unfold make_optimal.
    rewrite (bind_eq _ _ _ _ _ Hrun), (bind_eq _ _ _ _ _ Hloop).
    unfold bind at 1, get at 1.
    change (blocks (with_inactive (erase_all acts) st)) with (blocks st).
    rewrite (bind_eq _ _ _ _ _
               (for_each_step_total (blocks st) (with_inactive (erase_all acts) st) Hb)).
    reflexivity. }
  split; [done|]. split; [done|]. split; [|done].
  simpl. by apply shrinking_length.
Qed.

(** C10: a call of [make_optimal] that returns leaves every variable and
    every constraint as it was, and the vectors of the solver too; every block
    that is in [blocks] keeps its [X], its members and its constraint list and
    has [XI] equal to [X], every other block is as it was; and the inactive
    set is the one before less the constraints the loop activated. *)
Theorem make_optimal_frame (n : nat) (st : state) (acts : list (option ptr)) (st' : state) :
  make_optimal n st = Some (acts, st') ->
  vars st' = vars st /\
  cons st' = cons st /\
  vs st' = vs st /\ cs st' = cs st /\ blocks st' = blocks st /\
  inactive st' = erase_all acts (inactive st) /\
  forall p,
    blks st' !! p =
      if decide (p ∈ blocks st)
      then (fun B => mkBlock (X B) (X B) (V B) (C B)) <$> blks st !! p
      else blks st !! p.
Proof.
  unfold make_optimal. intros H.
  apply bind_Some in H as (f & s1 & Hs & H).
  apply safe_step_search_state in Hs as ->.
  apply bind_Some in H as (acts' & s2 & Hl & H).
  apply activation_loop_state in Hl as ->.
  unfold bind at 1, get at 1 in H.
  apply bind_Some in H as ([] & s3 & Hf & H).
  apply for_each_step_state in Hf as ->.
  injection H as <- <-. simpl. repeat split.
  intros p. apply steps_taken_lookup.
Qed.

(** ** Lagrange multipliers *)

Lemma writes_app ws1 ws2 st : writes (ws1 ++ ws2) st = writes ws2 (writes ws1 st).
Proof. apply fold_left_app. Qed.

Lemma writes_vars ws : forall st, vars (writes ws st) = vars st.
Proof. induction ws as [|w ws IH]; intros st; simpl; [done|]. by rewrite IH. Qed.

Lemma writes_blks ws : forall st, blks (writes ws st) = blks st.
Proof. induction ws as [|w ws IH]; intros st; simpl; [done|]. by rewrite IH. Qed.

Lemma same_graph_refl G : same_graph G G.
Proof.
  split; [done|]. intros c. destruct (cons G !! c); constructor. by repeat split.
Qed.

Lemma same_graph_trans G1 G2 G3 : same_graph G1 G2 -> same_graph G2 G3 -> same_graph G1 G3.
Proof.
  intros [Hv1 Hc1] [Hv2 Hc2]. split; [congruence|]. intros c.
  specialize (Hc1 c). specialize (Hc2 c).
  destruct Hc1 as [c1 c2 (?&?&?&?)|]; inversion Hc2 as [c2' c3 (?&?&?&?)|]; subst;
    constructor. repeat split; congruence.
Qed.

Lemma same_graph_assign G w : same_graph G (assign_lm G w).
Proof.
  split; [done|]. intros c. simpl. destruct (decide (w.1 = c)) as [<-|Hne].
  - rewrite lookup_alter_eq. destruct (cons G !! w.1); constructor. by repeat split.
  - rewrite lookup_alter_ne by done. destruct (cons G !! c); constructor. by repeat split.
Qed.

Lemma same_graph_writes ws : forall G, same_graph G (writes ws G).
Proof.
  induction ws as [|w ws IH]; intros G; simpl; [apply same_graph_refl|].
  eapply same_graph_trans; [apply same_graph_assign | apply IH].
Qed.

(** The pure function does not read the multipliers. *)
Lemma edges_spec_same_graph rec1 rec2 G1 G2 last fwd range :
  same_graph G1 G2 ->
  (forall w k, rec1 w k = rec2 w k) ->
  forall acc, edges_spec rec1 G1 last fwd range acc = edges_spec rec2 G2 last fwd range acc.
Proof.
  intros [_ HG] Hrec. induction range as [|c range IH]; intros acc; simpl; [done|].
  destruct (bool_decide (Some c ≠ last)); [|apply IH].
  destruct (HG c) as [c1 c2 (Hl & Hr & _ & Ha)|]; [|done].
  rewrite Ha, Hl, Hr, Hrec.
  destruct (active c2); [|apply IH].
  destruct (rec2 _ _) as [[z ws]|]; [apply IH | done].
Qed.

Lemma dfdv_spec_same_graph n : forall G1 G2 v last,
  same_graph G1 G2 -> dfdv_spec n G1 v last = dfdv_spec n G2 v last.
Proof.
  induction n as [|n IH]; intros G1 G2 v last HG; simpl; [done|].
  destruct HG as [Hv HG]. rewrite Hv. destruct (vars G2 !! v) as [vr|]; [|done].
  rewrite (edges_spec_same_graph (dfdv_spec n G1) (dfdv_spec n G2) G1 G2);
    [|by split | by intros; apply IH].
  destruct (edges_spec _ _ _ _ _ _) as [acc|]; [|done].
  apply edges_spec_same_graph; [by split | by intros; apply IH].
Qed.

Lemma insert_as_alter {A} (m : gmap nat A) (f : A -> A) i a :
  m !! i = Some a -> <[i := f a]> m = alter f i m.
Proof.
  intros Hi. apply map_eq. intros j. destruct (decide (i = j)) as [->|Hne].
  - by rewrite lookup_insert_eq, lookup_alter_eq, Hi.
  - by rewrite lookup_insert_ne, lookup_alter_ne.
Qed.

Lemma upd_con_assign c z st :
  is_Some (cons st !! c) ->
  upd_con c (set_lm z) st = Some (tt, assign_lm st (c, z)).
Proof.
  intros [cr Hc]. rewrite (upd_con_Some _ _ _ _ Hc).
  unfold assign_lm, with_cons. simpl. by rewrite (insert_as_alter _ _ _ _ Hc).
Qed.

Lemma compute_dfdv_S n v last :
  compute_dfdv (S n) v last =
    (vr <- get_var v ;;
     dfdv <- for_each (out vr) (dfdv_round n last true) (2 * (x vr - d vr))%float ;;
     for_each (in_ vr) (dfdv_round n last false) dfdv).
Proof. reflexivity. Qed.

Lemma same_graph_sym G1 G2 : same_graph G1 G2 -> same_graph G2 G1.
Proof.
  intros [Hv Hc]. split; [done|]. intros c.
  destruct (Hc c) as [c1 c2 (?&?&?&?)|]; constructor. by repeat split.
Qed.

Lemma writes_cons_None ws G c :
  cons G !! c = None -> cons (writes ws G) !! c = None.
Proof.
  intros Hc. destruct (same_graph_writes ws G) as [_ H]. specialize (H c).
  rewrite Hc in H. by inversion H.
Qed.

Lemma writes_cons_Some ws G c cr :
  cons G !! c = Some cr ->
  exists cr', cons (writes ws G) !! c = Some cr' /\ same_edge cr cr'.
Proof.
  intros Hc. destruct (same_graph_writes ws G) as [_ H]. specialize (H c).
  rewrite Hc in H. inversion H; subst. eauto.
Qed.

Lemma dfdv_rounds_refine n last fwd G
    (IH : forall G v k, compute_dfdv n v k G = performed (dfdv_spec n G v k) G) :
  forall range a ws0,
    for_each range (dfdv_round n last fwd) a (writes ws0 G) =
    match edges_spec (dfdv_spec n G) G last fwd range (a, ws0) with
    | Some (a', ws') => Some (a', writes ws' G)
    | None => None
    end.
Proof.
  induction range as [|c range IHr]; intros a ws0; [reflexivity|].
  simpl. unfold dfdv_round at 1.
  destruct (bool_decide (Some c ≠ last)).
  2:{ unfold bind at 1, ret at 1. apply IHr. }
  destruct (cons G !! c) as [cr|] eqn:EG.
  2:{ unfold bind, get_con, bind, get, lift.
      by rewrite (writes_cons_None ws0 _ _ EG). }
  destruct (writes_cons_Some ws0 _ _ _ EG) as (cr' & EW & Hl & Hr & _ & Ha).
  rewrite bind_assoc, (bind_eq _ _ _ _ _ (get_con_Some _ _ _ EW)).
  rewrite <- Ha, <- Hl, <- Hr.
  destruct (active cr).
  2:{ unfold bind at 1, ret at 1. apply IHr. }
  rewrite bind_assoc. unfold bind at 1. rewrite IH.
  rewrite (dfdv_spec_same_graph n (writes ws0 G) G)
    by apply same_graph_sym, same_graph_writes.
  destruct (dfdv_spec n G (if fwd then r cr else l cr) (Some c)) as [[z ws]|];
    [|reflexivity].
  unfold performed. rewrite <- writes_app.
  set (m := if fwd then z else (- z)%float).
  destruct (writes_cons_Some (ws0 ++ ws) _ _ _ EG) as (cr2 & Hc2 & _).
  rewrite bind_assoc.
  rewrite (bind_eq _ _ _ _ _ (upd_con_assign c m _ (ex_intro _ cr2 Hc2))).
  change (assign_lm (writes (ws0 ++ ws) G) (c, m))
    with (writes [(c, m)] (writes (ws0 ++ ws) G)).
  rewrite <- writes_app, <- app_assoc.
  assert (Hc3 : cons (writes (ws0 ++ ws ++ [(c, m)]) G) !! c = Some (set_lm m cr2)).
  { rewrite app_assoc, writes_app. simpl. by rewrite lookup_alter_eq, Hc2. }
  rewrite bind_assoc.
  rewrite (bind_eq _ _ _ _ _ (get_con_Some _ _ _ Hc3)).
  unfold bind at 1, ret at 1. simpl lm.
  rewrite IHr. simpl. by destruct fwd.
Qed.

(** [compute_dfdv] performs the assignments of the pure function on the
    heap and returns its value; it fails exactly when the pure function has no
    value. *)
Lemma compute_dfdv_refines n : forall G v last,
  compute_dfdv n v last G = performed (dfdv_spec n G v last) G.
Proof.
  induction n as [|n IH]; intros G v last; [reflexivity|].
  rewrite compute_dfdv_S. simpl dfdv_spec.
  destruct (vars G !! v) as [vr|] eqn:Ev.
  2:{ unfold bind, get_var, bind, get, lift. by rewrite Ev. }
  rewrite (bind_eq _ _ _ _ _ (get_var_Some _ _ _ Ev)).
  unfold bind at 1.
  change G with (writes [] G) at 1.
  rewrite (dfdv_rounds_refine n last true G IH).
  destruct (edges_spec _ _ _ true _ _) as [[a1 ws1]|]; [|reflexivity].
  rewrite (dfdv_rounds_refine n last false G IH).
  by destruct (edges_spec _ _ _ false _ _) as [[a2 ws2]|].
Qed.

Lemma reset_loop range : forall st,
  Forall (fun c => is_Some (cons st !! c)) range ->
  for_each range (fun _ c => reset_lm c) tt st = Some (tt, writes (resets range) st).
Proof.
  induction range as [|c range IH]; intros st H; [reflexivity|].
  apply Forall_cons in H as [Hc H]. simpl.
  unfold reset_lm at 1. rewrite (bind_eq _ _ _ _ _ (upd_con_assign c _ _ Hc)).
  apply IH. eapply Forall_impl; [exact H|]. intros c' [cr Hc'].
  destruct (writes_cons_Some [(c, 0%float)] _ _ _ Hc') as (cr' & Hcr' & _). eauto.
Qed.

(** C3: [computeLagrangians] on a block whose constraint list addresses
    constraints first assigns zero to the multiplier of each constraint of the
    list, and then, from the first member [V[0]] with no constraint to skip,
    returns as [dfdv_spec] says: the value at a variable is [2 * (x - d)], to
    which is added, for each active outgoing constraint other than the one
    arrived by, the value at its right end, that value being assigned to the
    constraint's multiplier, and from which is subtracted, for each such
    incoming constraint, the negated value at its left end, that negated
    value being assigned to the multiplier. *)
Theorem computeLagrangians_refines (n : nat) (this : ptr) (st : state) (B : Block) :
  blks st !! this = Some B ->
  Forall (fun c => is_Some (cons st !! c)) (C B) ->
  let st0 := writes (resets (C B)) st in
  computeLagrangians n this st =
    match V B !! 0 with
    | None => None
    | Some root =>
      match dfdv_spec n st0 root None with
      | Some (z, ws) => Some (tt, writes ws st0)
      | None => None
      end
    end.
Proof.
  intros HB HC st0. unfold computeLagrangians.
  rewrite (bind_eq _ _ _ _ _ (get_blk_Some _ _ _ HB)).
  rewrite (bind_eq _ _ _ _ _ (reset_loop _ _ HC)). fold st0.
  assert (HB0 : blks st0 !! this = Some B) by (unfold st0; by rewrite writes_blks).
  rewrite (bind_eq _ _ _ _ _ (get_blk_Some _ _ _ HB0)).
  destruct (V B !! 0) as [root|]; [|reflexivity].
  unfold bind at 1, lift at 1. unfold bind at 1.
  rewrite compute_dfdv_refines.
  by destruct (dfdv_spec n st0 root None) as [[z ws]|].
Qed.

(** ** The tree of active constraints *)

Lemma arrive_snoc last p c : arrive last (p ++ [c]) = Some c.
Proof. unfold arrive. by rewrite last_snoc. Qed.

Lemma arrive_cons last c p : arrive last (c :: p) = arrive (Some c) p.
Proof.
  unfold arrive. rewrite last_cons. by destruct (list.last p).
Qed.

Lemma walk_snoc_inv G p : forall last v e u,
  walk G last v (p ++ [e]) u ->
  exists y, walk G last v p y /\ hop G (arrive last p) y e u.
Proof.
  induction p as [|c p IH]; intros last v e u H; simpl in H.
  - inversion H as [|? ? ? w ? ? Hh Hw]; subst. inversion Hw; subst.
    exists v. split; [constructor | exact Hh].
  - inversion H as [|? ? ? w ? ? Hh Hw]; subst.
    destruct (IH _ _ _ _ Hw) as (y & Hp & Hy).
    exists y. rewrite arrive_cons. split; [econstructor; eauto | done].
Qed.

Lemma walk_snoc G p : forall last v y e u,
  walk G last v p y -> hop G (arrive last p) y e u -> walk G last v (p ++ [e]) u.
Proof.
  induction p as [|c p IH]; intros last v y e u Hp Hh; simpl.
  - inversion Hp; subst. econstructor; [exact Hh | constructor].
  - inversion Hp as [|? ? ? w ? ? Hh' Hw]; subst. rewrite arrive_cons in Hh.
    econstructor; [exact Hh' | eapply IH; eauto].
Qed.

Lemma walk_app_inv G p : forall q last v u,
  walk G last v (p ++ q) u -> exists y, walk G last v p y.
Proof.
  induction p as [|c p IH]; intros q last v u H; simpl in H.
  - exists v. constructor.
  - inversion H as [|? ? ? w ? ? Hh Hw]; subst.
    destruct (IH _ _ _ _ Hw) as [y Hy]. exists y. econstructor; eauto.
Qed.

Lemma graph_ok_out G v vr c :
  graph_ok G -> vars G !! v = Some vr -> c ∈ out vr ->
  exists cr, cons G !! c = Some cr /\ l cr = v /\ is_Some (vars G !! r cr).
Proof.
  intros [HG _] Hv Hc. destruct (HG v vr Hv) as (_ & _ & Ho & _).
  rewrite Forall_forall in Ho. specialize (Ho c Hc). unfold at_con in Ho.
  destruct (cons G !! c) as [cr|]; [|done]. exists cr. by destruct Ho.
Qed.

Lemma graph_ok_in G v vr c :
  graph_ok G -> vars G !! v = Some vr -> c ∈ in_ vr ->
  exists cr, cons G !! c = Some cr /\ r cr = v /\ is_Some (vars G !! l cr).
Proof.
  intros [HG _] Hv Hc. destruct (HG v vr Hv) as (_ & _ & _ & Hi).
  rewrite Forall_forall in Hi. specialize (Hi c Hc). unfold at_con in Hi.
  destruct (cons G !! c) as [cr|]; [|done]. exists cr. by destruct Hi.
Qed.

(** The walks from a variable of a tree that end with the same constraint
    are the same. *)
Lemma walk_last_unique G last v p1 p2 e u1 u2 :
  graph_ok G -> unique_walks G last v ->
  walk G last v (p1 ++ [e]) u1 -> walk G last v (p2 ++ [e]) u2 -> p1 = p2.
Proof.
  intros HG HU H1 H2.
  destruct (walk_snoc_inv _ _ _ _ _ _ H1) as (y1 & Hp1 & Hh1).
  destruct (walk_snoc_inv _ _ _ _ _ _ H2) as (y2 & Hp2 & Hh2).
  destruct Hh1 as (vr1 & cr1 & Hv1 & Hc1 & _ & Hne1 & Hd1).
  destruct Hh2 as (vr2 & cr2 & Hv2 & Hc2 & _ & Hne2 & Hd2).
  assert (cr2 = cr1) as -> by congruence.
  destruct Hd1 as [[Ho1 ->]|[Hi1 ->]], Hd2 as [[Ho2 ->]|[Hi2 ->]].
  - by apply (app_inj_tail p1 p2 e e), (HU _ _ _ H1 H2).
  - destruct (graph_ok_out _ _ _ _ HG Hv1 Ho1) as (cr & Hc & Hl & _).
    assert (cr = cr1) as -> by congruence. subst y1.
    pose proof (HU _ _ _ Hp1 H2) as ->. by rewrite arrive_snoc in Hne1.
  - destruct (graph_ok_out _ _ _ _ HG Hv2 Ho2) as (cr & Hc & Hl & _).
    assert (cr = cr1) as -> by congruence. subst y2.
    pose proof (HU _ _ _ Hp2 H1) as ->. by rewrite arrive_snoc in Hne2.
  - by apply (app_inj_tail p1 p2 e e), (HU _ _ _ H1 H2).
Qed.

Lemma unique_walks_hop G last v c w :
  unique_walks G last v -> hop G last v c w -> unique_walks G (Some c) w.
Proof.
  intros HU Hh u p q Hp Hq.
  assert (c :: p = c :: q) as [= ->]; [|done].
  apply (HU u); econstructor; eauto.
Qed.

Lemma below_hop G last v c w n :
  below G last v (S n) -> hop G last v c w -> below G (Some c) w n.
Proof.
  intros Hb Hh p u Hp.
  assert (length (c :: p) < S n); [|simpl in *; lia].
  apply (Hb _ u). econstructor; eauto.
Qed.

Lemma elem_of_kids G last fwd range c w :
  (c, w) ∈ kids G last fwd range <->
  c ∈ range /\ exists cr, cons G !! c = Some cr /\ active cr = true /\
    Some c ≠ last /\ w = if fwd then r cr else l cr.
Proof.
  unfold kids. rewrite list_elem_of_omap. unfold kid. split.
  - intros (c' & Hc' & Hk).
    destruct (bool_decide (Some c' ≠ last)) eqn:Eb; [|done].
    destruct (cons G !! c') as [cr|] eqn:E; [|done].
    destruct (active cr) eqn:Ea; [|done]. simpl in Hk. injection Hk as <- <-.
    apply bool_decide_eq_true in Eb. split; [done|]. by exists cr.
  - intros (Hc & cr & Hcr & Ha & Hne & ->). exists c. split; [done|].
    rewrite bool_decide_eq_true_2, Hcr, Ha by done. reflexivity.
Qed.

Lemma kids_fst G last fwd range c :
  c ∈ (kids G last fwd range).*1 -> c ∈ range.
Proof.
  intros Hc. apply list_elem_of_fmap in Hc as ([c' w] & -> & Hk).
  by apply elem_of_kids in Hk as [? _].
Qed.

Lemma kids_NoDup G last fwd range :
  NoDup range -> NoDup (kids G last fwd range).*1.
Proof.
  induction 1 as [|c range Hc Hnd IH]; simpl; [constructor|].
  unfold kids; simpl. destruct (kid G last fwd c) as [[c' w]|] eqn:E; [|exact IH].
  assert (c' = c) as ->.
  { unfold kid in E. destruct (bool_decide _); [|done].
    destruct (cons G !! c) as [cr|]; [|done].
    destruct (active cr); [|done]. by injection E. }
  simpl. constructor; [|exact IH]. intros Hin. by apply kids_fst in Hin.
Qed.

Lemma hop_all_kids G last v vr c w :
  vars G !! v = Some vr ->
  hop G last v c w <-> (c, w) ∈ all_kids G last vr.
Proof.
  intros Hv. unfold all_kids. rewrite elem_of_app, !elem_of_kids. split.
  - intros (vr' & cr & Hv' & Hc & Ha & Hne & Hd).
    assert (vr' = vr) as -> by congruence.
    destruct Hd as [[Ho ->]|[Hi ->]]; [left|right]; (split; [done|]); by exists cr.
  - intros [(Ho & cr & Hc & Ha & Hne & ->)|(Hi & cr & Hc & Ha & Hne & ->)];
      exists vr, cr; repeat split; auto.
Qed.

Lemma edges_spec_segments rec G last fwd range : forall a0 ws0 a' ws',
  edges_spec rec G last fwd range (a0, ws0) = Some (a', ws') ->
  exists segs, ws' = ws0 ++ concat segs /\
    Forall2 (segment rec) (kids G last fwd range) segs.
Proof.
  induction range as [|c range IH]; intros a0 ws0 a' ws' H; simpl in H.
  - injection H as _ <-. exists []. simpl. by rewrite app_nil_r.
  - unfold kids. simpl. unfold kid at 1.
    destruct (bool_decide (Some c ≠ last)).
    2:{ apply IH in H as (segs & -> & Hsegs). by exists segs. }
    destruct (cons G !! c) as [cr|]; [|done].
    destruct (active cr).
    + destruct (rec _ _) as [[z ws]|] eqn:Er; [|done]. simpl in H.
      apply IH in H as (segs & -> & Hsegs).
      exists ((ws ++ [(c, if fwd then z else (- z)%float)]) :: segs). split.
      * simpl. by rewrite <- !app_assoc.
      * constructor; [|exact Hsegs]. by eexists z, ws, _.
    + apply IH in H as (segs & -> & Hsegs). by exists segs.
Qed.

Lemma edges_spec_is_Some rec G last fwd range :
  Forall (fun c => is_Some (cons G !! c)) range ->
  Forall (fun k => is_Some (rec k.2 (Some k.1))) (kids G last fwd range) ->
  forall acc, is_Some (edges_spec rec G last fwd range acc).
Proof.
  induction range as [|c range IH]; intros Hc Hk acc; simpl; [eauto|].
  apply Forall_cons in Hc as [[cr Hcr] Hc]. unfold kids in Hk. simpl in Hk.
  unfold kid at 1 in Hk.
  destruct (bool_decide (Some c ≠ last)); [|by apply IH].
  rewrite Hcr in *. destruct (active cr).
  - apply Forall_cons in Hk as [[[z ws] Hz] Hk]. simpl in Hz. rewrite Hz.
    by apply IH.
  - by apply IH.
Qed.

Lemma dfdv_spec_segments n G v last z ws :
  dfdv_spec (S n) G v last = Some (z, ws) ->
  exists vr segs, vars G !! v = Some vr /\ ws = concat segs /\
    Forall2 (segment (dfdv_spec n G)) (all_kids G last vr) segs.
Proof.
  simpl. destruct (vars G !! v) as [vr|]; [|done].
  destruct (edges_spec _ _ _ true _ _) as [[a1 ws1]|] eqn:E1; [|done]. intros E2.
  apply edges_spec_segments in E1 as (segs1 & -> & H1).
  apply edges_spec_segments in E2 as (segs2 & -> & H2).
  exists vr, (segs1 ++ segs2). split; [done|]. split.
  - by rewrite concat_app.
  - by apply Forall2_app.
Qed.

Lemma segs_elem {A B} (P : A -> list B -> Prop) ks segs (y : B) :
  Forall2 P ks segs -> y ∈ concat segs ->
  exists k seg, k ∈ ks /\ P k seg /\ y ∈ seg.
Proof.
  induction 1 as [|k seg ks segs HP _ IH]; simpl; intros Hy.
  - by apply elem_of_nil in Hy.
  - apply elem_of_app in Hy as [Hy|Hy].
    + exists k, seg. split; [by left | done].
    + destruct (IH Hy) as (k' & seg' & Hk' & HP' & Hy').
      exists k', seg'. split; [by right | done].
Qed.

Lemma segs_kid {A B} (P : A -> list B -> Prop) ks segs k :
  Forall2 P ks segs -> k ∈ ks ->
  exists seg, P k seg /\ forall y, y ∈ seg -> y ∈ concat segs.
Proof.
  induction 1 as [|k0 seg ks segs HP _ IH]; intros Hk.
  - by apply elem_of_nil in Hk.
  - apply elem_of_cons in Hk as [->|Hk].
    + exists seg. split; [done|]. intros y Hy. simpl. apply elem_of_app. by left.
    + destruct (IH Hk) as (seg' & HP' & Hsub). exists seg'. split; [done|].
      intros y Hy. simpl. apply elem_of_app. right. by apply Hsub.
Qed.

Section traversal.
Context (G : state).

(** Enough fuel: more than the length of every walk from [v] on. *)
Lemma dfdv_spec_total n : forall v last,
  graph_ok G -> is_Some (vars G !! v) -> below G last v n ->
  is_Some (dfdv_spec n G v last).
Proof.
  induction n as [|n IH]; intros v last HG [vr Hv] Hb.
  - specialize (Hb [] v (walk_nil _ _ _)). simpl in Hb. lia.
  - simpl. rewrite Hv.
    assert (Hkids : forall fwd range,
      (forall c w, (c, w) ∈ kids G last fwd range -> hop G last v c w /\
         is_Some (vars G !! w)) ->
      Forall (fun k => is_Some (dfdv_spec n G k.2 (Some k.1))) (kids G last fwd range)).
    { intros fwd range Hr. apply Forall_forall. intros [c w] Hk.
      destruct (Hr c w Hk) as [Hh Hw]. simpl.
      apply IH; [done|done|]. by eapply below_hop. }
    destruct (edges_spec_is_Some (dfdv_spec n G) G last true (out vr))
      with (acc := ((2 * (x vr - d vr))%float, @nil (ptr * float))) as [acc1 E1].
    { apply Forall_forall. intros c Hc.
      destruct (graph_ok_out _ _ _ _ HG Hv Hc) as (cr & -> & _). eauto. }
    { apply Hkids. intros c w Hk. split.
      - apply (hop_all_kids _ _ _ vr); [done|]. apply elem_of_app. by left.
      - apply elem_of_kids in Hk as (Hc & cr & Hcr & _ & _ & ->).
        destruct (graph_ok_out _ _ _ _ HG Hv Hc) as (cr' & Hcr' & _ & Hr).
        by assert (cr' = cr) as -> by congruence. }
    rewrite E1. apply edges_spec_is_Some.
    { apply Forall_forall. intros c Hc.
      destruct (graph_ok_in _ _ _ _ HG Hv Hc) as (cr & -> & _). eauto. }
    { apply Hkids. intros c w Hk. split.
      - apply (hop_all_kids _ _ _ vr); [done|]. apply elem_of_app. by right.
      - apply elem_of_kids in Hk as (Hc & cr & Hcr & _ & _ & ->).
        destruct (graph_ok_in _ _ _ _ HG Hv Hc) as (cr' & Hcr' & _ & Hl).
        by assert (cr' = cr) as -> by congruence. }
Qed.

(** More fuel does not change a result. *)
Lemma edges_spec_mono rec1 rec2 last fwd range :
  (forall w k res, rec1 w k = Some res -> rec2 w k = Some res) ->
  forall acc res, edges_spec rec1 G last fwd range acc = Some res ->
    edges_spec rec2 G last fwd range acc = Some res.
Proof.
  intros Hrec. induction range as [|c range IH]; intros acc res H; simpl in *; [done|].
  destruct (bool_decide (Some c ≠ last)); [|by apply IH].
  destruct (cons G !! c) as [cr|]; [|done].
  destruct (active cr); [|by apply IH].
  destruct (rec1 _ _) as [[z ws]|] eqn:E; [|done].
  rewrite (Hrec _ _ _ E). by apply IH.
Qed.

Lemma dfdv_spec_S n : forall v last res,
  dfdv_spec n G v last = Some res -> dfdv_spec (S n) G v last = Some res.
Proof.
  induction n as [|n IH]; intros v last res H; [done|].
  change (dfdv_spec (S (S n)) G v last) with
    (match vars G !! v with
     | None => None
     | Some vr =>
       match edges_spec (dfdv_spec (S n) G) G last true (out vr)
                        ((2 * (x vr - d vr))%float, []) with
       | None => None
       | Some acc => edges_spec (dfdv_spec (S n) G) G last false (in_ vr) acc
       end
     end).
  simpl in H. destruct (vars G !! v) as [vr|]; [|done].
  destruct (edges_spec (dfdv_spec n G) G last true _ _) as [acc|] eqn:E1; [|done].
  rewrite (edges_spec_mono _ _ _ _ _ IH _ _ E1).
  by apply (edges_spec_mono _ _ _ _ _ IH).
Qed.

Lemma dfdv_spec_le n m v last res :
  n <= m -> dfdv_spec n G v last = Some res -> dfdv_spec m G v last = Some res.
Proof.
  intros Hle Hn. induction Hle as [|m Hle IH]; [done|]. by apply dfdv_spec_S.
Qed.

(** Each assignment is to the last constraint of a walk from [v]. *)
Lemma dfdv_spec_sound n : forall v last z ws e,
  dfdv_spec n G v last = Some (z, ws) -> e ∈ ws.*1 ->
  exists p u, walk G last v (p ++ [e]) u.
Proof.
  induction n as [|n IH]; intros v last z ws e H He; [done|].
  apply dfdv_spec_segments in H as (vr & segs & Hv & -> & Hsegs).
  apply list_elem_of_fmap in He as ([e' m'] & -> & He). simpl.
  destruct (segs_elem _ _ _ _ Hsegs He) as ([c w] & seg & Hk & Hseg & Hin).
  apply (hop_all_kids _ _ _ _ _ _ Hv) in Hk.
  destruct Hseg as (z' & ws' & m & Hrec & ->). simpl in *.
  apply elem_of_app in Hin as [Hin|Hin].
  - destruct (IH w (Some c) z' ws' e' Hrec) as (p & u & Hw).
    { apply list_elem_of_fmap. by exists (e', m'). }
    exists (c :: p), u. simpl. econstructor; eauto.
  - apply list_elem_of_singleton in Hin as [= -> ->].
    exists [], w. simpl. econstructor; [done | constructor].
Qed.

(** The last constraint of each walk from [v] is assigned. *)
Lemma dfdv_spec_complete n : forall v last z ws p e u,
  dfdv_spec n G v last = Some (z, ws) -> walk G last v (p ++ [e]) u -> e ∈ ws.*1.
Proof.
  induction n as [|n IH]; intros v last z ws p e u H Hw; [done|].
  apply dfdv_spec_segments in H as (vr & segs & Hv & -> & Hsegs).
  destruct p as [|c p]; simpl in Hw; inversion Hw as [|? ? ? w ? ? Hh Hw']; subst.
  - apply (hop_all_kids _ _ _ _ _ _ Hv) in Hh.
    destruct (segs_kid _ _ _ _ Hsegs Hh) as (seg & (z' & ws' & m & _ & ->) & Hsub).
    apply list_elem_of_fmap. exists (e, m). split; [done|].
    apply Hsub, elem_of_app. right. by left.
  - apply (hop_all_kids _ _ _ _ _ _ Hv) in Hh.
    destruct (segs_kid _ _ _ _ Hsegs Hh) as (seg & (z' & ws' & m & Hrec & ->) & Hsub).
    simpl in Hrec. specialize (IH _ _ _ _ _ _ _ Hrec Hw').
    apply list_elem_of_fmap in IH as (y & -> & Hy).
    apply list_elem_of_fmap. exists y. split; [done|].
    apply Hsub, elem_of_app. by left.
Qed.

Lemma Forall2_impl_in {A B} (P Q : A -> B -> Prop) ks segs :
  Forall2 P ks segs -> (forall k seg, k ∈ ks -> P k seg -> Q k seg) ->
  Forall2 Q ks segs.
Proof.
  induction 1 as [|k seg ks segs HP _ IH]; intros HPQ; constructor.
  - apply HPQ; [by left | done].
  - apply IH. intros k' seg' Hk'. apply HPQ. by right.
Qed.

Lemma branches_NoDup last v ks segs :
  graph_ok G -> unique_walks G last v ->
  Forall2 (branch G last v) ks segs -> NoDup (ks.*1) -> NoDup (concat segs).*1.
Proof.
  intros HG HU. induction 1 as [|k seg ks segs [Hnd Hws] Hrest IH]; intros Hks.
  - constructor.
  - simpl in *. rewrite fmap_app. apply NoDup_cons in Hks as [Hk Hks].
    apply NoDup_app. split; [done|]. split; [|by apply IH].
    intros e He He'. apply list_elem_of_fmap in He' as (y & -> & Hy).
    destruct (segs_elem _ _ _ _ Hrest Hy) as (k' & seg' & Hk' & [_ Hws'] & Hy').
    destruct (Hws _ He) as (p & u & Hp & Hhd).
    destruct (Hws' y.1) as (p' & u' & Hp' & Hhd').
    { apply list_elem_of_fmap. by exists y. }
    assert (p = p') as <- by (by eapply walk_last_unique).
    apply Hk. apply list_elem_of_fmap. exists k'. split; [congruence | done].
Qed.

Lemma all_kids_NoDup last v vr :
  graph_ok G -> unique_walks G last v -> vars G !! v = Some vr ->
  NoDup (all_kids G last vr).*1.
Proof.
  intros HG HU Hv. destruct (proj1 HG v vr Hv) as (Ho & Hi & _).
  unfold all_kids. rewrite fmap_app. apply NoDup_app.
  split; [by apply kids_NoDup|]. split; [|by apply kids_NoDup].
  intros c Hc1 Hc2.
  apply list_elem_of_fmap in Hc1 as ([c1 w1] & -> & Hk1).
  apply list_elem_of_fmap in Hc2 as ([c2 w2] & Heq & Hk2). simpl in Heq. subst c2.
  apply elem_of_kids in Hk1 as (Hco & cr & Hcr & Ha & Hne & ->).
  apply elem_of_kids in Hk2 as (Hci & cr' & Hcr' & _ & _ & ->).
  destruct (graph_ok_in _ _ _ _ HG Hv Hci) as (cr2 & Hcr2 & Hr & _).
  assert (cr2 = cr) as -> by congruence.
  assert (Hw : walk G last v [c1] v).
  { econstructor; [|constructor]. exists vr, cr. repeat split; auto. }
  by pose proof (HU _ _ _ Hw (walk_nil _ _ _)).
Qed.

(** In a tree no constraint is assigned twice. *)
Lemma dfdv_spec_NoDup n : forall v last z ws,
  graph_ok G -> unique_walks G last v ->
  dfdv_spec n G v last = Some (z, ws) -> NoDup (ws.*1).
Proof.
  induction n as [|n IH]; intros v last z ws HG HU H; [done|].
  apply dfdv_spec_segments in H as (vr & segs & Hv & -> & Hsegs).
  apply (branches_NoDup last v (all_kids G last vr)); auto.
  2:{ by apply (all_kids_NoDup last v). }
  eapply Forall2_impl_in; [exact Hsegs|].
  intros [c w] seg Hk (z' & ws' & m & Hrec & ->). simpl in *.
  apply (hop_all_kids _ _ _ _ _ _ Hv) in Hk.
  assert (Hone : walk G last v ([] ++ [c]) w).
  { simpl. econstructor; [done | constructor]. }
  split.
  - rewrite fmap_app. apply NoDup_app.
    split; [by eapply IH, Hrec; [|eapply unique_walks_hop]|].
    split; [|apply NoDup_singleton].
    intros e He Hec. apply list_elem_of_singleton in Hec. simpl in Hec. subst e.
    destruct (dfdv_spec_sound _ _ _ _ _ _ Hrec He) as (p & u & Hp).
    assert (Hlong : walk G last v ((c :: p) ++ [c]) u) by (econstructor; eauto).
    by pose proof (walk_last_unique _ _ _ _ _ _ _ _ HG HU Hone Hlong).
  - intros e He. rewrite fmap_app in He. apply elem_of_app in He as [He|He].
    + destruct (dfdv_spec_sound _ _ _ _ _ _ Hrec He) as (p & u & Hp).
      exists (c :: p), u. split; [econstructor; eauto | done].
    + apply list_elem_of_singleton in He. simpl in He. subst e.
      by exists [], w.
Qed.

End traversal.

(** The variables a walk passes through after its start: the ends of its
    non-empty prefixes, all of them variables of the heap. *)
Lemma walk_visits G last v p u :
  graph_ok G -> walk G last v p u ->
  exists visited : list ptr, length visited = length p /\
    forall i w, visited !! i = Some w ->
      walk G last v (take (S i) p) w /\ is_Some (vars G !! w).
Proof.
  intros HG. induction 1 as [last v|last v c w p u Hh Hw (visited & Hlen & Hvis)].
  - exists []. split; [done|]. intros i w Hi. by rewrite lookup_nil in Hi.
  - exists (w :: visited). split; [simpl; by rewrite Hlen|].
    intros [|i] w' Hi; simpl in Hi.
    + injection Hi as <-. split.
      * simpl. rewrite take_0. econstructor; [done | constructor].
      * destruct Hh as (vr & cr & Hv & Hc & _ & _ & [[Ho ->]|[Hi ->]]).
        -- destruct (graph_ok_out _ _ _ _ HG Hv Ho) as (cr' & Hc' & _ & Hr).
           by assert (cr' = cr) as -> by congruence.
        -- destruct (graph_ok_in _ _ _ _ HG Hv Hi) as (cr' & Hc' & _ & Hl).
           by assert (cr' = cr) as -> by congruence.
    + destruct (Hvis i w' Hi) as [Hw' Hs]. split; [|done].
      change (take (S (S i)) (c :: p)) with (c :: take (S i) p).
      econstructor; eauto.
Qed.

(** In a tree a walk from the root passes through each variable at most
    once, so it is shorter than the number of variables. *)
Lemma tree_walks_bounded G root :
  graph_ok G -> is_Some (vars G !! root) -> tree_at G root ->
  below G None root (size (vars G)).
Proof.
  intros HG Hroot HU p u Hp.
  destruct (walk_visits _ _ _ _ _ HG Hp) as (visited & Hlen & Hvis).
  assert (Hnd : NoDup (root :: visited)).
  { apply NoDup_alt. intros i j w Hi Hj.
    assert (Hpre : forall k, (root :: visited) !! k = Some w ->
              walk G None root (take k p) w /\ k <= length p).
    { intros [|k] Hk; simpl in Hk.
      - injection Hk as <-. rewrite take_0. split; [constructor | lia].
      - destruct (Hvis k w Hk) as [Hw _]. split; [done|].
        apply lookup_lt_Some in Hk. lia. }
    destruct (Hpre i Hi) as [Hwi Hli], (Hpre j Hj) as [Hwj Hlj].
    pose proof (f_equal length (HU _ _ _ Hwi Hwj)) as Heq.
    rewrite !length_take in Heq. lia. }
  assert (Hsub : root :: visited ⊆+ elements (dom (vars G))).
  { apply NoDup_submseteq; [done|]. intros w Hw.
    apply elem_of_elements, elem_of_dom.
    apply elem_of_cons in Hw as [->|Hw]; [done|].
    apply list_elem_of_lookup in Hw as [i Hi]. by destruct (Hvis i w Hi). }
  apply submseteq_length in Hsub. simpl in Hsub.
  change (length (elements (dom (vars G)))) with (size (dom (vars G))) in Hsub.
  rewrite size_dom in Hsub. lia.
Qed.

Lemma diam_le_below G root D : diam_le G root D -> below G None root (S D).
Proof.
  intros HD p u Hp. specialize (HD [] root p u (walk_nil _ _ _) Hp). lia.
Qed.

(** ** Trees and cycles *)

Lemma walk_weaken G last v p u : walk G last v p u -> walk G None v p u.
Proof.
  intros H. inversion H as [|? ? c w p' ? Hh Hw]; subst; [constructor|].
  econstructor; [|exact Hw].
  destruct Hh as (vr & cr & Hv & Hc & Ha & _ & Hd). by exists vr, cr.
Qed.

Lemma walk_app G p : forall last v y q u,
  walk G last v p y -> walk G (arrive last p) y q u -> walk G last v (p ++ q) u.
Proof.
  induction p as [|c p IH]; intros last v y q u Hp Hq; simpl.
  - by inversion Hp; subst.
  - inversion Hp as [|? ? ? w ? ? Hh Hw]; subst. rewrite arrive_cons in Hq.
    econstructor; [exact Hh | eapply IH; eauto].
Qed.

(** A step can be taken back. *)
Lemma hop_back G last last' v c w :
  graph_ok G -> hop G last v c w -> Some c ≠ last' -> hop G last' w c v.
Proof.
  intros HG (vr & cr & Hv & Hc & Ha & _ & Hd) Hne.
  destruct (proj2 HG c cr Hc) as [Hcl Hcr]. unfold at_var in Hcl, Hcr.
  destruct Hd as [[Ho ->]|[Hi ->]].
  - destruct (graph_ok_out _ _ _ _ HG Hv Ho) as (cr' & Hc' & Hl & _).
    assert (cr' = cr) as -> by congruence.
    destruct (vars G !! r cr) as [vw|] eqn:Ew; [|done].
    exists vw, cr. repeat split; auto.
  - destruct (graph_ok_in _ _ _ _ HG Hv Hi) as (cr' & Hc' & Hr & _).
    assert (cr' = cr) as -> by congruence.
    destruct (vars G !! l cr) as [vw|] eqn:Ew; [|done].
    exists vw, cr. repeat split; auto.
Qed.

(** A walk can be walked back, after any constraint but its last. *)
Lemma walk_back G : forall p last last' v u,
  graph_ok G -> walk G last v p u ->
  (forall e, list.last p = Some e -> Some e ≠ last') ->
  walk G last' u (reverse p) v.
Proof.
  induction p as [|c p IH]; intros last last' v u HG Hp Hlast.
  - inversion Hp; subst. constructor.
  - inversion Hp as [|? ? ? w ? ? Hh Hw]; subst. rewrite reverse_cons.
    apply (walk_snoc _ _ _ _ w).
    + apply (IH (Some c)); [done|done|].
      intros e He. apply Hlast. rewrite last_cons, He. done.
    + eapply hop_back; [done|exact Hh|].
      unfold arrive. rewrite last_reverse.
      destruct p as [|c' p]; simpl.
      * apply Hlast. reflexivity.
      * inversion Hw as [|? ? ? ? ? ? (_ & _ & _ & _ & _ & Hne & _) _]; subst.
        intros [= ->]. done.
Qed.

(** A step along a constraint leads to one variable, whichever list the
    constraint was found in. *)
Lemma hop_target G last1 last2 v c w1 w2 :
  graph_ok G -> hop G last1 v c w1 -> hop G last2 v c w2 -> w1 = w2.
Proof.
  intros HG (vr & cr & Hv & Hc & _ & _ & Hd1) (vr' & cr' & Hv' & Hc' & _ & _ & Hd2).
  assert (vr' = vr) as -> by congruence. assert (cr' = cr) as -> by congruence.
  destruct Hd1 as [[Ho1 ->]|[Hi1 ->]], Hd2 as [[Ho2 ->]|[Hi2 ->]]; try done.
  - destruct (graph_ok_out _ _ _ _ HG Hv Ho1) as (c1 & Hc1 & Hl & _).
    destruct (graph_ok_in _ _ _ _ HG Hv Hi2) as (c2 & Hc2 & Hr & _).
    congruence.
  - destruct (graph_ok_in _ _ _ _ HG Hv Hi1) as (c1 & Hc1 & Hr & _).
    destruct (graph_ok_out _ _ _ _ HG Hv Ho2) as (c2 & Hc2 & Hl & _).
    congruence.
Qed.

(** A step along a constraint comes from one variable. *)
Lemma hop_source G last1 last2 v1 v2 c w :
  graph_ok G -> hop G last1 v1 c w -> hop G last2 v2 c w -> v1 = v2.
Proof.
  intros HG H1 H2.
  assert (Hb1 : hop G None w c v1) by (eapply hop_back; eauto; done).
  assert (Hb2 : hop G None w c v2) by (eapply hop_back; eauto; done).
  by eapply hop_target.
Qed.

(** Without cycles, two walks from a variable that start with different
    constraints do not meet. *)
Lemma walks_diverge G y n : forall last e1 p1 e2 p2 u,
  graph_ok G ->
  (forall p, walk G None y p y -> p = []) ->
  length p1 < n ->
  walk G last y (e1 :: p1) u -> walk G last y (e2 :: p2) u -> e1 ≠ e2 -> False.
Proof.
  induction n as [|n IH]; intros last e1 p1 e2 p2 u HG Hcyc Hn H1 H2 Hne; [lia|].
  destruct (list.last (e1 :: p1)) as [f1|] eqn:Ef1; [|by rewrite last_cons in Ef1;
    destruct (list.last p1)].
  destruct (list.last (e2 :: p2)) as [f2|] eqn:Ef2; [|by rewrite last_cons in Ef2;
    destruct (list.last p2)].
  destruct (decide (f1 = f2)) as [<-|Hf].
  - apply last_Some in Ef1 as [P' EP]. apply last_Some in Ef2 as [Q' EQ].
    rewrite EP in H1. rewrite EQ in H2.
    destruct (walk_snoc_inv _ _ _ _ _ _ H1) as (a1 & HP' & Hh1).
    destruct (walk_snoc_inv _ _ _ _ _ _ H2) as (a2 & HQ' & Hh2).
    assert (a1 = a2) as <- by (by eapply hop_source).
    destruct P' as [|e1' P']; destruct Q' as [|e2' Q']; simpl in EP, EQ.
    + congruence.
    + inversion HP'; subst. injection EP as -> _. injection EQ as <- _.
      by pose proof (Hcyc _ (walk_weaken _ _ _ _ _ HQ')).
    + inversion HQ'; subst. injection EP as <- _. injection EQ as -> _.
      by pose proof (Hcyc _ (walk_weaken _ _ _ _ _ HP')).
    + injection EP as <- EP. injection EQ as <- EQ.
      apply (IH last e1 P' e2 Q' a1); auto.
      rewrite EP, length_app in Hn. simpl in Hn. lia.
  - assert (Hback : walk G (arrive last (e1 :: p1)) u (reverse (e2 :: p2)) y).
    { eapply walk_back; [done|exact H2|]. intros e He. unfold arrive.
      rewrite Ef1. rewrite Ef2 in He. injection He as <-. intros [= ->]. done. }
    pose proof (walk_app _ _ _ _ _ _ _ H1 Hback) as Hloop.
    by pose proof (Hcyc _ (walk_weaken _ _ _ _ _ Hloop)).
Qed.

(** Without cycles the walks from [root] are unique. *)
Lemma acyclic_unique_walks G root :
  graph_ok G -> acyclic G root -> tree_at G root.
Proof.
  intros HG Hac.
  assert (H : forall p p0 y q u,
            walk G None root p0 y ->
            walk G (arrive None p0) y p u -> walk G (arrive None p0) y q u -> p = q).
  { induction p as [|e1 p1 IH]; intros p0 y q u Hy Hp Hq.
    - inversion Hp; subst. symmetry. apply (Hac p0 u q Hy).
      by eapply walk_weaken.
    - destruct q as [|e2 q1].
      + inversion Hq; subst. apply (Hac p0 u (e1 :: p1) Hy). by eapply walk_weaken.
      + destruct (decide (e1 = e2)) as [<-|Hne].
        * inversion Hp as [|? ? ? w1 ? ? Hh1 Hw1]; subst.
          inversion Hq as [|? ? ? w2 ? ? Hh2 Hw2]; subst.
          assert (w2 = w1) as -> by (by eapply hop_target).
          f_equal. apply (IH (p0 ++ [e1]) w1 q1 u).
          { eapply walk_snoc; [exact Hy | exact Hh1]. }
          { by rewrite arrive_snoc. }
          { by rewrite arrive_snoc. }
        * exfalso. eapply (walks_diverge G y (S (length p1))); eauto. }
  intros u p q Hp Hq. apply (H p [] root q u); [constructor|done|done].
Qed.

(** C7: when the heap is as the constructors leave it and no cycle of
    active constraints is reachable from [root], [compute_dfdv] started at
    [root] with no constraint to skip returns; a recursion depth of one more
    than a bound [D] on the tree's diameter is enough for it; and what it has
    done then is one assignment to the multiplier of each constraint of the
    tree, and no other. *)
Theorem compute_dfdv_on_tree (G : state) (root : ptr) :
  graph_ok G ->
  is_Some (vars G !! root) ->
  acyclic G root ->
  exists z ws,
    compute_dfdv (size (vars G)) root None G = Some (z, writes ws G) /\
    (forall D, diam_le G root D ->
       compute_dfdv (S D) root None G = Some (z, writes ws G)) /\
    dfdv_spec (size (vars G)) G root None = Some (z, ws) /\
    NoDup (ws.*1) /\
    forall c, c ∈ ws.*1 <-> tree_edge G root c.
Proof.
  intros HG Hroot Hac.
  pose proof (acyclic_unique_walks _ _ HG Hac) as HU.
  destruct (dfdv_spec_total G (size (vars G)) root None HG Hroot
              (tree_walks_bounded _ _ HG Hroot HU)) as [[z ws] Hspec].
  exists z, ws. split; [by rewrite compute_dfdv_refines, Hspec|]. split.
  { intros D HD.
    destruct (dfdv_spec_total G (S D) root None HG Hroot (diam_le_below _ _ _ HD))
      as [res HspecD].
    pose proof (dfdv_spec_le G _ (S D `max` size (vars G)) _ _ _
                  (Nat.le_max_l _ _) HspecD) as H1.
    pose proof (dfdv_spec_le G _ (S D `max` size (vars G)) _ _ _
                  (Nat.le_max_r _ _) Hspec) as H2.
    assert (res = (z, ws)) as -> by congruence.
    by rewrite compute_dfdv_refines, HspecD. }
  split; [done|]. split; [by eapply dfdv_spec_NoDup|].
  intros c. split.
  - intros Hc. by eapply dfdv_spec_sound.
  - intros (p & u & Hp). by eapply dfdv_spec_complete.
Qed.

(** * Examples *)

Example constructors_build_ex_built :
  (Constraint_ctor 10 1 2 2%float ;; FeasibleProjectionAlgorithm_ctor [1; 2] [10])
    (mkState {[1 := mkVar 0 0 0 None [] []; 2 := mkVar 0 2 0 None [] []]}
             ∅ ∅ [] [] [] [])
  = Some (tt, ex_built).
Proof. vm_compute. reflexivity. Qed.

Example init_blocks_ex_built : init_blocks ex_built = Some (tt, ex_blocks).
Proof. vm_compute. reflexivity. Qed.

Example make_optimal_ex_tie :
  make_optimal 2 ex_tie = Some ([Some 10; Some 11], ex_tie_done).
Proof. vm_compute. reflexivity. Qed.

Example computeLagrangians_ex_chain :
  computeLagrangians 2 0 ex_chain = Some (tt, ex_chain_done).
Proof. vm_compute. reflexivity. Qed.

Example optBlockPos_ex_chain :
  optBlockPos 0 ex_chain = Some (0%float, ex_chain).
Proof. vm_compute. reflexivity. Qed.

(** * The theorems at the examples *)

Lemma init_blocks_witness :
  Forall (fun v => is_Some (vars ex_built !! v)) (vs ex_built) /\
  exists st' ps,
    init_blocks ex_built = Some (tt, st') /\
    length ps = 2 /\ NoDup ps /\
    forall i v, vs ex_built !! i = Some v ->
      exists p vr vr',
        ps !! i = Some p /\ vars ex_built !! v = Some vr /\
        blks st' !! p = Some (mkBlock (d vr) (x vr) [v] []) /\
        vars st' !! v = Some vr' /\ b vr' = 0%float.
Proof.
  assert (H : Forall (fun v => is_Some (vars ex_built !! v)) (vs ex_built))
    by decide_it.
  split; [exact H|].
  destruct (init_blocks_one_singleton_per_variable ex_built H)
    as (st' & ps & Hrun & _ & Hlen & Hnd & _ & Hnew).
  exists st', ps. split; [exact Hrun|]. split; [exact Hlen|]. split; [exact Hnd|].
  intros i v Hi. destruct (Hnew i v Hi) as (p & vr & vr' & H1 & H2 & H3 & H4 & H5 & _).
  exists p, vr, vr'. auto.
Defined.

Lemma optBlockPos_witness :
  optBlockPos 0 ex_chain =
    Some (mean_posdiff [mkVar 0 0 0 (Some 0) [10] [11];
                        mkVar 0 (-1) (-1) (Some 0) [] [10];
                        mkVar 0 1 1 (Some 0) [11] []], ex_chain).
Proof.
  apply (optBlockPos_is_mean 0 (mkBlock 0 0 [2; 1; 3] [10; 11])).
  - reflexivity.
  - repeat constructor.
Defined.

Lemma constraint_alpha_witness :
  constraint_alpha 10 ex_tie =
    Some (((2 + (0 + 0) - (3 + 0)) / (0 - 3 - (0 - 0)))%float, ex_tie).
Proof.
  apply (constraint_alpha_value 10 ex_tie (mkConstraint 1 2 2 false 0)
           (mkVar 0 0 0 (Some 0) [] [10]) (mkVar 0 3 0 (Some 1) [10] [11])
           (mkBlock 0 0 [1] []) (mkBlock 0 3 [2] [])).
  repeat split.
Defined.

(** C2 fails as stated: in [ex_degenerate] the gap is satisfied where the
    variables are, the constraint is not satisfied at full interpolation and
    the divisor is zero, yet the step fraction is minus infinity and the
    search returns the constraint with it, so that [make_optimal] activates
    it. *)
Lemma zero_divisor_becomes_binding :
  resolves ex_degenerate 10 (mkConstraint 1 2 200 false 0)
    (mkVar 0x1.8p60 (-100) 0 (Some 0) [] [10]) (mkVar 0x1.8p60 110 0 (Some 1) [10] [])
    (mkBlock 0x1.8p60 (-100) [1] []) (mkBlock 0x1.8p60 110 [2] []) /\
  (-100 + 200 <=? 110)%float = true /\
  (0x1.8p60 + 0 + 200 <=? 0x1.8p60 + 0)%float = false /\
  (0x1.8p60 - 110 - (0x1.8p60 - -100) =? 0)%float = true /\
  constraint_alpha 10 ex_degenerate = Some (neg_infinity, ex_degenerate) /\
  neg_infinity ≠ 1%float /\
  safe_step_search ex_degenerate =
    Some (mkMaxSafeAlpha (Some 10) neg_infinity, ex_degenerate) /\
  fst <$> make_optimal 1 ex_degenerate = Some [Some 10].
Proof.
  split; [repeat split|]. repeat split; try (vm_compute; reflexivity).
  apply float_neg_infinity_not_one.
Qed.

Lemma zero_divisor_witness :
  constraint_alpha 10 ex_degenerate = Some (neg_infinity, ex_degenerate) /\
  neg_infinity ≠ 1%float.
Proof.
  destruct (zero_divisor_alpha 10 ex_degenerate (mkConstraint 1 2 200 false 0)
    (mkVar 0x1.8p60 (-100) 0 (Some 0) [] [10]) (mkVar 0x1.8p60 110 0 (Some 1) [10] [])
    (mkBlock 0x1.8p60 (-100) [1] []) (mkBlock 0x1.8p60 110 [2] []))
    as (Ha & _ & Hne & _).
  - repeat split.
  - reflexivity.
  - reflexivity.
  - split; [exact Ha | exact Hne].
Defined.

Lemma safe_step_search_witness :
  exists f,
    safe_step_search ex_tie = Some (f, ex_tie) /\
    safeC f = Some 10 /\
    forall a, a ∈ [(1 / 3)%float; (1 / 3)%float] -> (a <? safeAlpha f)%float = false.
Proof.
  destruct (safe_step_search_minimum ex_tie [(1 / 3)%float; (1 / 3)%float])
    as (f & Hrun & Hmin & _ & Hsel).
  - repeat constructor.
  - exists f. split; [exact Hrun|]. split; [|exact Hmin].
    vm_compute in Hrun. injection Hrun as <-. reflexivity.
Defined.

(** C5 fails as stated: a pass need not return a constraint or the least
    fraction of the set. In [ex_stuck] the inactive set has one constraint,
    whose step fraction is plus infinity; the pass returns no constraint and
    [DBL_MAX], which is the fraction of no constraint and is below the least
    fraction of the set. On an empty inactive set, as in [ex_tie_done], it
    returns the same. *)
Lemma safe_step_search_returns_no_constraint :
  inactive ex_stuck = [10] /\
  constraint_alpha 10 ex_stuck = Some (infinity, ex_stuck) /\
  safe_step_search ex_stuck = Some (mkMaxSafeAlpha None DBL_MAX, ex_stuck) /\
  DBL_MAX ≠ infinity /\ (DBL_MAX <? infinity)%float = true /\
  inactive ex_tie_done = [] /\
  safe_step_search ex_tie_done = Some (mkMaxSafeAlpha None DBL_MAX, ex_tie_done).
Proof.
  repeat split; try (vm_compute; reflexivity).
  intros H. apply (f_equal is_infinity) in H. discriminate H.
Qed.

Lemma make_optimal_terminates_witness :
  exists acts st',
    make_optimal 2 ex_tie = Some (acts, st') /\ length acts <= 2.
Proof.
  destruct (make_optimal_terminates ex_tie) as (acts & st' & Hrun & _ & _ & Hlen & Hle).
  - decide_it.
  - decide_it.
  - decide_it.
  - decide_it.
  - exists acts, st'. split; [exact Hrun|]. simpl in Hlen. lia.
Defined.

Lemma make_optimal_frame_witness :
  vars ex_tie_done = vars ex_tie /\
  cons ex_tie_done = cons ex_tie /\
  inactive ex_tie_done = erase_all [Some 10; Some 11] (inactive ex_tie) /\
  blks ex_tie_done !! 1 = Some (mkBlock 0 0 [2] []).
Proof.
  destruct (make_optimal_frame 2 ex_tie [Some 10; Some 11] ex_tie_done)
    as (Hv & Hc & _ & _ & _ & Hi & Hb).
  - vm_compute. reflexivity.
  - split; [exact Hv|]. split; [exact Hc|]. split; [exact Hi|].
    rewrite (Hb 1). reflexivity.
Defined.

Lemma computeLagrangians_witness :
  computeLagrangians 2 0 ex_chain =
    match dfdv_spec 2 (writes (resets [10; 11]) ex_chain) 2 None with
    | Some (z, ws) => Some (tt, writes ws (writes (resets [10; 11]) ex_chain))
    | None => None
    end.
Proof.
  apply (computeLagrangians_refines 2 0 ex_chain (mkBlock 0 0 [2; 1; 3] [10; 11])).
  - reflexivity.
  - decide_it.
Defined.

(** The steps possible in [ex_chain]. *)
Lemma ex_chain_hops last v c w :
  hop ex_chain last v c w ->
  Some c ≠ last /\
  ((v = 1 /\ c = 10 /\ w = 2) \/ (v = 2 /\ c = 11 /\ w = 3) \/
   (v = 2 /\ c = 10 /\ w = 1) \/ (v = 3 /\ c = 11 /\ w = 2)).
Proof.
  intros (vr & cr & Hv & Hc & _ & Hne & Hd). split; [done|].
  assert (Hvs : v = 1 \/ v = 2 \/ v = 3).
  { assert (Hin : v ∈ elements (dom (vars ex_chain)))
      by (apply elem_of_elements, elem_of_dom; eauto).
    vm_compute in Hin. repeat (apply elem_of_cons in Hin as [->|Hin]); auto.
    by apply elem_of_nil in Hin. }
  destruct Hvs as [->|[->| ->]]; vm_compute in Hv; injection Hv as <-;
    simpl in Hd; destruct Hd as [[Hin ->]|[Hin ->]];
    repeat (apply elem_of_cons in Hin as [->|Hin]);
    try (by apply elem_of_nil in Hin);
    vm_compute in Hc; injection Hc as <-; simpl; auto 10.
Qed.

Ltac chain_hop H :=
  apply ex_chain_hops in H;
  destruct H as [? [(? & ? & ?)|[(? & ? & ?)|[(? & ? & ?)|(? & ? & ?)]]]];
  subst; try done.

(** A walk in [ex_chain] has at most two constraints and does not come
    back to where it started. *)
Lemma ex_chain_walks last v p u :
  walk ex_chain last v p u -> length p <= 2 /\ (p = [] \/ u ≠ v).
Proof.
  intros H. inversion H as [|? ? c1 w1 p1 ? Hh1 Hw1]; subst; [by auto|].
  inversion Hw1 as [|? ? c2 w2 p2 ? Hh2 Hw2]; subst.
  { chain_hop Hh1; (split; [simpl; lia | right; lia]). }
  inversion Hw2 as [|? ? c3 w3 p3 ? Hh3 Hw3]; subst.
  { chain_hop Hh1; chain_hop Hh2; (split; [simpl; lia | right; lia]). }
  chain_hop Hh1; chain_hop Hh2; chain_hop Hh3.
Qed.

Lemma ex_chain_acyclic : acyclic ex_chain 2.
Proof.
  intros p0 u p _ Hp. by destruct (ex_chain_walks _ _ _ _ Hp) as [_ [->|?]].
Qed.

Lemma ex_chain_diameter : diam_le ex_chain 2 2.
Proof. intros p0 v p u _ Hp. by destruct (ex_chain_walks _ _ _ _ Hp). Qed.

Lemma compute_dfdv_on_tree_witness :
  graph_ok ex_chain /\ acyclic ex_chain 2 /\ diam_le ex_chain 2 2 /\
  exists z ws,
    compute_dfdv 3 2 None ex_chain = Some (z, writes ws ex_chain) /\
    NoDup (ws.*1) /\
    forall c, c ∈ ws.*1 <-> tree_edge ex_chain 2 c.
Proof.
  assert (HG : graph_ok ex_chain) by decide_it.
  split; [exact HG|]. split; [exact ex_chain_acyclic|].
  split; [exact ex_chain_diameter|].
  destruct (compute_dfdv_on_tree ex_chain 2 HG (mk_is_Some _ _ eq_refl) ex_chain_acyclic)
    as (z & ws & _ & Hrun & _ & Hnd & Hall).
  exists z, ws. split; [exact (Hrun 2 ex_chain_diameter)|]. auto.
Defined.

(** In [ex_chain] the walks between variables of the tree have at most
    two constraints, and a depth of three is enough. *)
Example ex_chain_depth :
  fst <$> compute_dfdv 2 2 None ex_chain = Some 0%float /\
  fst <$> compute_dfdv 3 1 None ex_chain = Some 0%float /\
  compute_dfdv 2 1 None ex_chain = None.
Proof. repeat split; vm_compute; reflexivity. Qed.

(** * The constructor keeps the lists well formed *)

Lemma at_con_allocated G c P : at_con G c P -> is_Some (cons G !! c).
Proof. unfold at_con. destruct (cons G !! c); [eauto | done]. Qed.

Lemma var_ok_fresh G v vr this :
  var_ok G v vr -> cons G !! this = None -> (this ∉ out vr) /\ (this ∉ in_ vr).
Proof.
  intros (_ & _ & Ho & Hi) Hthis. rewrite Forall_forall in Ho, Hi. split; intros Hin.
  - apply Ho, at_con_allocated in Hin as [cr Hcr]. congruence.
  - apply Hi, at_con_allocated in Hin as [cr Hcr]. congruence.
Qed.

(** X1: [Constraint::Constraint] at a fresh address, between two variables
    of the heap, returns and keeps the heap well formed: the lists of every
    variable name each constraint once, a constraint of an outgoing list has
    the variable as left end and one of an incoming list has it as right end,
    and every constraint is in the lists of its two ends. *)
Lemma Constraint_ctor_graph_ok this l0 r0 g0 st :
  graph_ok st -> cons st !! this = None ->
  is_Some (vars st !! l0) -> is_Some (vars st !! r0) ->
  exists st', Constraint_ctor this l0 r0 g0 st = Some (tt, st') /\ graph_ok st'.
Proof.
  intros [HG HGc] Hthis [vl Hl] [vr0 Hr].
  set (new := mkConstraint l0 r0 g0 false 0%float).
  set (vars1 := <[l0 := push_out this vl]> (vars st)).
  assert (Hr1 : exists vr1, vars1 !! r0 = Some vr1 /\
            in_ vr1 = in_ vr0 /\
            out vr1 = if decide (l0 = r0) then out vr0 ++ [this] else out vr0).
  { unfold vars1. destruct (decide (l0 = r0)) as [->|Hne].
    - rewrite lookup_insert_eq. assert (vl = vr0) as -> by congruence. by eexists.
    - rewrite lookup_insert_ne by done. by exists vr0. }
  destruct Hr1 as (vr1 & Hr1 & Hin1 & Hout1).
  set (vars2 := <[r0 := push_in this vr1]> vars1).
  set (st' := mkState vars2 (<[this := new]> (cons st)) (blks st) (vs st) (cs st)
                      (blocks st) (inactive st)).
  exists st'. split.
  { unfold Constraint_ctor. unfold bind at 1, modify at 1.
    erewrite bind_eq; [|apply upd_var_Some; exact Hl].
    erewrite upd_var_Some; [reflexivity | exact Hr1]. }
  assert (Hl2 : exists vl2, vars2 !! l0 = Some vl2 /\ out vl2 = out vl ++ [this]).
  { unfold vars2. destruct (decide (r0 = l0)) as [->|Hne].
    - rewrite lookup_insert_eq. eexists. split; [done|]. simpl.
      rewrite Hout1, decide_True by done. congruence.
    - rewrite lookup_insert_ne by done. unfold vars1. rewrite lookup_insert_eq.
      by eexists. }
  assert (Hmono : forall k vk, vars st !! k = Some vk ->
            exists vk', vars2 !! k = Some vk' /\
              (forall c, c ∈ out vk -> c ∈ out vk') /\
              (forall c, c ∈ in_ vk -> c ∈ in_ vk')).
  { intros k vk Hk. unfold vars2.
    destruct (decide (r0 = k)) as [<-|Hnr].
    - rewrite lookup_insert_eq. eexists. split; [done|]. simpl.
      assert (vk = vr0) as -> by congruence. rewrite Hin1, Hout1. split.
      + intros c Hc. destruct (decide (l0 = r0)); [|done]. apply elem_of_app. by left.
      + intros c Hc. apply elem_of_app. by left.
    - rewrite lookup_insert_ne by done. unfold vars1.
      destruct (decide (l0 = k)) as [<-|Hnl].
      + rewrite lookup_insert_eq. eexists. split; [done|]. simpl.
        assert (vk = vl) as -> by congruence. split; [|done].
        intros c Hc. apply elem_of_app. by left.
      + rewrite lookup_insert_ne by done. by exists vk. }
  assert (Hdom : forall k, is_Some (vars st !! k) -> is_Some (vars2 !! k)).
  { intros k [vk Hk]. destruct (Hmono k vk Hk) as (vk' & -> & _). eauto. }
  assert (Hkeep_out : forall v range,
    Forall (fun c => at_con st c (fun cr => l cr = v /\ is_Some (vars st !! r cr))) range ->
    Forall (fun c => at_con st' c (fun cr => l cr = v /\ is_Some (vars2 !! r cr))) range).
  { intros v range Hf. eapply Forall_impl; [exact Hf|].
    intros c Hc. unfold at_con in *. simpl.
    destruct (decide (this = c)) as [<-|Hne]; [by rewrite Hthis in Hc|].
    rewrite lookup_insert_ne by done. destruct (cons st !! c); [|done].
    destruct Hc. auto. }
  assert (Hkeep_in : forall v range,
    Forall (fun c => at_con st c (fun cr => r cr = v /\ is_Some (vars st !! l cr))) range ->
    Forall (fun c => at_con st' c (fun cr => r cr = v /\ is_Some (vars2 !! l cr))) range).
  { intros v range Hf. eapply Forall_impl; [exact Hf|].
    intros c Hc. unfold at_con in *. simpl.
    destruct (decide (this = c)) as [<-|Hne]; [by rewrite Hthis in Hc|].
    rewrite lookup_insert_ne by done. destruct (cons st !! c); [|done].
    destruct Hc. auto. }
  assert (Hnew_out : at_con st' this (fun cr => l cr = l0 /\ is_Some (vars2 !! r cr))).
  { unfold at_con. simpl. rewrite lookup_insert_eq. simpl. split; [done|].
    apply Hdom. eauto. }
  assert (Hnew_in : at_con st' this (fun cr => r cr = r0 /\ is_Some (vars2 !! l cr))).
  { unfold at_con. simpl. rewrite lookup_insert_eq. simpl. split; [done|].
    apply Hdom. eauto. }
  pose proof (HG l0 vl Hl) as Hokl. pose proof (HG r0 vr0 Hr) as Hokr.
  destruct (var_ok_fresh _ _ _ _ Hokl Hthis) as [Hfl _].
  destruct (var_ok_fresh _ _ _ _ Hokr Hthis) as [Hfro Hfr].
  destruct Hokl as (Hlo & Hli & Hlout & Hlin).
  destruct Hokr as (Hro & Hri & Hrout & Hrin).
  split.
  - intros v vr' Hv. simpl in Hv. unfold vars2 in Hv.
    destruct (decide (r0 = v)) as [<-|Hnr].
    + rewrite lookup_insert_eq in Hv. injection Hv as <-.
      unfold var_ok. simpl. rewrite Hin1, Hout1. split; [|split; [|split]].
      * destruct (decide (l0 = r0)); [|done].
        apply NoDup_app. split; [done|]. split; [|apply NoDup_singleton].
        intros c Hc ->%list_elem_of_singleton. done.
      * apply NoDup_app. split; [done|]. split; [|apply NoDup_singleton].
        intros c Hc ->%list_elem_of_singleton. done.
      * destruct (decide (l0 = r0)) as [->|]; [|by apply Hkeep_out].
        apply Forall_app. split; [by apply Hkeep_out|]. by constructor.
      * apply Forall_app. split; [by apply Hkeep_in|]. by constructor.
    + rewrite lookup_insert_ne in Hv by done. unfold vars1 in Hv.
      destruct (decide (l0 = v)) as [<-|Hnl].
      * rewrite lookup_insert_eq in Hv. injection Hv as <-.
        unfold var_ok. simpl. split; [|split; [|split]].
        -- apply NoDup_app. split; [done|]. split; [|apply NoDup_singleton].
           intros c Hc ->%list_elem_of_singleton. done.
        -- done.
        -- apply Forall_app. split; [by apply Hkeep_out|]. by constructor.
        -- by apply Hkeep_in.
      * rewrite lookup_insert_ne in Hv by done.
        destruct (HG v vr' Hv) as (Ho & Hi & Hout & Hin).
        split; [done|]. split; [done|].
        split; [by apply Hkeep_out | by apply Hkeep_in].
  - intros c cr Hc. simpl in Hc. unfold con_ok, at_var. simpl.
    destruct (decide (this = c)) as [<-|Hne].
    + rewrite lookup_insert_eq in Hc. injection Hc as <-. simpl.
      destruct Hl2 as (vl2 & -> & ->). unfold vars2. rewrite lookup_insert_eq. simpl.
      split; apply elem_of_app; right; by left.
    + rewrite lookup_insert_ne in Hc by done.
      destruct (HGc c cr Hc) as [Hcl Hcr]. unfold at_var in Hcl, Hcr.
      destruct (vars st !! l cr) as [vl'|] eqn:El; [|done].
      destruct (vars st !! r cr) as [vr'|] eqn:Er; [|done].
      destruct (Hmono _ _ El) as (vl2' & -> & Ho' & _).
      destruct (Hmono _ _ Er) as (vr2' & -> & _ & Hi'). auto.
Qed.

(** * Further properties

    What else the functions do: at the edges of their domains, to the state
    they are given, and one after the other. *)

(** ** The constructor of Constraint *)

Lemma upd_var_inv p f st u st' :
  upd_var p f st = Some (u, st') ->
  exists v, vars st !! p = Some v /\ st' = with_vars <[p := f v]> st.
Proof.
  unfold upd_var. intros H. apply bind_Some in H as (v & s1 & Hv & H).
  apply get_var_inv in Hv as [-> Hv]. injection H as _ <-. eauto.
Qed.

(** What the constructor has done when it returns: the new constraint is
    in the heap, inactive and with multiplier zero, at the end of the
    outgoing list of [l0] and of the incoming list of [r0]. *)
Lemma Constraint_ctor_inv this l0 r0 g0 st u st' :
  Constraint_ctor this l0 r0 g0 st = Some (u, st') ->
  cons st' = <[this := mkConstraint l0 r0 g0 false 0%float]> (cons st) /\
  blks st' = blks st /\
  forall v, vars st' !! v =
    (fun vr => mkVar (d vr) (x vr) (b vr) (block vr)
                 (if decide (v = r0) then in_ vr ++ [this] else in_ vr)
                 (if decide (v = l0) then out vr ++ [this] else out vr))
    <$> vars st !! v.
Proof.
  unfold Constraint_ctor. unfold bind at 1, modify at 1. intros H.
  apply bind_Some in H as ([] & s1 & H1 & H).
  apply upd_var_inv in H1 as (vl & Hl & ->).
  apply upd_var_inv in H as (vr1 & Hr & ->).
  simpl in *. do 2 (split; [done|]). intros v.
  destruct (decide (v = r0)) as [->|Hnr].
  - rewrite lookup_insert_eq.
    destruct (decide (r0 = l0)) as [->|Hnl].
    + rewrite lookup_insert_eq in Hr. injection Hr as <-. by rewrite Hl.
    + rewrite lookup_insert_ne in Hr by done. rewrite Hr. by destruct vr1.
  - rewrite lookup_insert_ne by done.
    destruct (decide (v = l0)) as [->|Hnl].
    + rewrite lookup_insert_eq, Hl. reflexivity.
    + rewrite lookup_insert_ne by done. destruct (vars st !! v) as [[]|]; reflexivity.
Qed.

(** The loops of the recursion over a list that the constructor may have
    extended by the new constraint. *)
Lemma edges_spec_ctor rec1 rec2 G1 G2 this new last fwd tail :
  cons G2 = <[this := new]> (cons G1) -> active new = false ->
  (forall w k, rec2 w k = rec1 w k) ->
  tail = [] \/ tail = [this] ->
  forall range, this ∉ range ->
  forall acc, edges_spec rec2 G2 last fwd (range ++ tail) acc =
              edges_spec rec1 G1 last fwd range acc.
Proof.
  intros HG Hnew Hrec Htail.
  induction range as [|c range IH]; intros Hn acc; simpl.
  - destruct Htail as [->| ->]; simpl; [done|].
    rewrite HG, lookup_insert_eq, Hnew. by case_bool_decide.
  - apply not_elem_of_cons in Hn as [Hne Hn].
    rewrite HG, lookup_insert_ne by done.
    case_bool_decide; [|by apply IH].
    destruct (cons G1 !! c) as [cr|]; [|done].
    destruct (active cr); [|by apply IH].
    rewrite Hrec. destruct (rec1 _ _) as [[z ws]|]; [by apply IH | done].
Qed.

Lemma dfdv_spec_ctor this l0 r0 g0 st u st' :
  graph_ok st -> cons st !! this = None ->
  Constraint_ctor this l0 r0 g0 st = Some (u, st') ->
  forall n v last, dfdv_spec n st' v last = dfdv_spec n st v last.
Proof.
  intros [HG _] Hthis H.
  destruct (Constraint_ctor_inv _ _ _ _ _ _ _ H) as (Hc & _ & Hv).
  induction n as [|n IH]; intros v last; [done|]. simpl.
  rewrite Hv. destruct (vars st !! v) as [vr|] eqn:Ev; simpl; [|done].
  destruct (var_ok_fresh _ _ _ _ (HG v vr Ev) Hthis) as [Ho Hi].
  assert (Hout : forall acc,
    edges_spec (dfdv_spec n st') st' last true
      (if decide (v = l0) then out vr ++ [this] else out vr) acc =
    edges_spec (dfdv_spec n st) st last true (out vr) acc).
  { intros acc. destruct (decide (v = l0)).
    - eapply edges_spec_ctor; eauto.
    - rewrite <- (app_nil_r (out vr)) at 1. eapply edges_spec_ctor; eauto. }
  assert (Hin : forall acc,
    edges_spec (dfdv_spec n st') st' last false
      (if decide (v = r0) then in_ vr ++ [this] else in_ vr) acc =
    edges_spec (dfdv_spec n st) st last false (in_ vr) acc).
  { intros acc. destruct (decide (v = r0)).
    - eapply edges_spec_ctor; eauto.
    - rewrite <- (app_nil_r (in_ vr)) at 1. eapply edges_spec_ctor; eauto. }
  rewrite Hout. destruct (edges_spec _ _ _ true _ _) as [acc|]; [|done]. apply Hin.
Qed.

(** X2: a constraint constructed at a fresh address is inactive, with
    multiplier zero, and takes no part in [compute_dfdv]: called after the
    construction, from any variable, [compute_dfdv] returns the value it would
    have returned before and makes the same assignments (or returns in
    neither state). *)
Theorem Constraint_ctor_new_constraint_is_ignored
    (this l0 r0 : ptr) (g0 : float) (st : state) (u : unit) (st' : state) :
  graph_ok st -> cons st !! this = None ->
  Constraint_ctor this l0 r0 g0 st = Some (u, st') ->
  cons st' !! this = Some (mkConstraint l0 r0 g0 false 0%float) /\
  forall n v last,
    compute_dfdv n v last st' = performed (dfdv_spec n st v last) st' /\
    fst <$> compute_dfdv n v last st' = fst <$> compute_dfdv n v last st.
Proof.
  intros HG Hthis H. split.
  - destruct (Constraint_ctor_inv _ _ _ _ _ _ _ H) as (-> & _).
    apply lookup_insert_eq.
  - intros n v last. rewrite !compute_dfdv_refines.
    rewrite (dfdv_spec_ctor _ _ _ _ _ _ _ HG Hthis H). split; [done|].
    by destruct (dfdv_spec n st v last) as [[z ws]|].
Qed.

(** ** optBlockPos *)

(** X3: [optBlockPos] of a block without members is a NaN, the quotient of
    zero by zero. *)
Theorem optBlockPos_of_no_member (this : ptr) (st : state) (B : Block) :
  blks st !! this = Some B -> V B = [] ->
  optBlockPos this st = Some (nan, st).
Proof.
  intros HB HV. unfold optBlockPos.
  rewrite (bind_eq _ _ _ _ _ (get_blk_Some _ _ _ HB)), HV. reflexivity.
Qed.

(** ** compute_dfdv *)

Lemma writes_solver ws : forall st,
  vs (writes ws st) = vs st /\ cs (writes ws st) = cs st /\
  blocks (writes ws st) = blocks st /\ inactive (writes ws st) = inactive st.
Proof.
  induction ws as [|w ws IH]; intros st; simpl; [done|].
  destruct (IH (assign_lm st w)) as (-> & -> & -> & ->). done.
Qed.

(** A constraint that is not assigned keeps its multiplier. *)
Lemma writes_not_in ws : forall G c,
  c ∉ ws.*1 -> cons (writes ws G) !! c = cons G !! c.
Proof.
  induction ws as [|w ws IH]; intros G c Hc; simpl; [done|].
  rewrite fmap_cons, not_elem_of_cons in Hc. destruct Hc as [Hne Hc].
  rewrite IH by done. simpl. by rewrite lookup_alter_ne.
Qed.

(** Where the recursion returns, it has returned at the far end of each
    constraint it follows. *)
Lemma dfdv_spec_hop n G v last res c w :
  dfdv_spec (S n) G v last = Some res -> hop G last v c w ->
  is_Some (dfdv_spec n G w (Some c)).
Proof.
  destruct res as [z ws]. intros H Hh.
  apply dfdv_spec_segments in H as (vr & segs & Hv & -> & Hsegs).
  apply (hop_all_kids _ _ _ _ _ _ Hv) in Hh.
  destruct (segs_kid _ _ _ _ Hsegs Hh) as (seg & (z' & ws' & m & Hrec & _) & _).
  simpl in Hrec. eauto.
Qed.

(** A recursion that returns within depth [n] has no walk of [n]
    constraints before it. *)
Lemma dfdv_spec_bounds_walks n : forall G v last res p u,
  dfdv_spec n G v last = Some res -> walk G last v p u -> length p < n.
Proof.
  induction n as [|n IH]; intros G v last res p u H Hw; [done|].
  inversion Hw as [|? ? c w p' ? Hh Hw']; subst; simpl; [lia|].
  destruct (dfdv_spec_hop _ _ _ _ _ _ _ H Hh) as [res' Hres'].
  specialize (IH _ _ _ _ _ _ Hres' Hw'). lia.
Qed.

(** A closed walk that arrives as it started can be walked any number of
    times. *)
Lemma walk_iterate G c v p k :
  walk G (Some c) v (p ++ [c]) v ->
  exists q, k <= length q /\ walk G (Some c) v q v /\ arrive (Some c) q = Some c.
Proof.
  intros Hp. induction k as [|k (q & Hk & Hq & Ha)].
  - exists []. split; [simpl; lia|]. split; [constructor | done].
  - exists (q ++ p ++ [c]). split; [rewrite !length_app; simpl; lia|]. split.
    + eapply walk_app; [exact Hq|]. by rewrite Ha.
    + by rewrite app_assoc, arrive_snoc.
Qed.

(** X4: a call of [compute_dfdv] that returns has changed nothing but
    multipliers: the variables, the blocks and the containers of the solver
    are as they were, every constraint has its ends, its gap and its [active]
    flag, no constraint was created or freed, and a constraint that is not
    the last of a walk of active constraints from [v] has its multiplier
    too. *)
Theorem compute_dfdv_changes_multipliers_only
    (n : nat) (v : ptr) (last : option ptr) (G : state) (z : float) (G' : state) :
  compute_dfdv n v last G = Some (z, G') ->
  vars G' = vars G /\ blks G' = blks G /\
  vs G' = vs G /\ cs G' = cs G /\ blocks G' = blocks G /\ inactive G' = inactive G /\
  (forall c, option_Forall2 same_edge (cons G !! c) (cons G' !! c)) /\
  (forall c, (forall p u, ¬ walk G last v (p ++ [c]) u) -> cons G' !! c = cons G !! c).
Proof.
  rewrite compute_dfdv_refines.
  destruct (dfdv_spec n G v last) as [[z' ws]|] eqn:Hspec; [|done].
  intros [= <- <-].
  destruct (writes_solver ws G) as (-> & -> & -> & ->).
  rewrite writes_vars, writes_blks. do 6 (split; [done|]). split.
  - apply same_graph_writes.
  - intros c Hc. apply writes_not_in. intros Hin.
    destruct (dfdv_spec_sound _ _ _ _ _ _ _ Hspec Hin) as (p & u & Hw).
    by apply (Hc p u).
Qed.

Lemma edges_spec_skip rec G last fwd range acc :
  Forall (fun c => Some c = last \/ at_con G c (fun cr => active cr = false)) range ->
  edges_spec rec G last fwd range acc = Some acc.
Proof.
  induction 1 as [|c range Hc _ IH]; simpl; [done|].
  case_bool_decide as Hne; [|done].
  destruct Hc as [Hc|Hc]; [done|]. unfold at_con in Hc.
  destruct (cons G !! c) as [cr|]; [|done]. by rewrite Hc.
Qed.

(** X5: at a variable all of whose constraints are inactive or the one
    arrived by, [compute_dfdv] returns [2 * (x - d)] at depth one, follows no
    constraint and assigns no multiplier: the state is as it was. *)
Theorem compute_dfdv_at_leaf
    (n : nat) (v : ptr) (last : option ptr) (G : state) (vr : Var) :
  vars G !! v = Some vr ->
  Forall (fun c => Some c = last \/ at_con G c (fun cr => active cr = false))
         (out vr ++ in_ vr) ->
  compute_dfdv (S n) v last G = Some ((2 * (x vr - d vr))%float, G).
Proof.
  intros Hv Hall. apply Forall_app in Hall as [Ho Hi].
  rewrite compute_dfdv_refines. simpl. rewrite Hv.
  rewrite (edges_spec_skip _ _ _ _ _ _ Ho), (edges_spec_skip _ _ _ _ _ _ Hi).
  reflexivity.
Qed.

(** X6: [compute_dfdv] keeps no record of the variables it has visited.
    When the traversal from [root] reaches a variable [v] by a constraint [c]
    and can, from there, come back to [v] by [c] along active constraints,
    never taking the constraint it has just come by, the recursion does not
    end: no bound on its depth is enough for it to return. *)
Theorem compute_dfdv_diverges_on_cycle
    (G : state) (root : ptr) (p0 : list ptr) (c v : ptr) (p : list ptr) :
  walk G None root (p0 ++ [c]) v ->
  walk G (Some c) v (p ++ [c]) v ->
  forall n, compute_dfdv n root None G = None.
Proof.
  intros H0 Hp n. rewrite compute_dfdv_refines.
  destruct (dfdv_spec n G root None) as [res|] eqn:Hspec; [|done]. exfalso.
  destruct (walk_iterate _ _ _ _ n Hp) as (q & Hn & Hq & _).
  assert (Hw : walk G None root ((p0 ++ [c]) ++ q) v).
  { eapply walk_app; [exact H0|]. by rewrite arrive_snoc. }
  pose proof (dfdv_spec_bounds_walks _ _ _ _ _ _ _ Hspec Hw) as Hlt.
  rewrite length_app in Hlt. lia.
Qed.

(** Subtracting the negation of a double is adding the double. *)
Lemma SFsub_opp x y : SFsub prec emax x (SFopp y) = SFadd prec emax x y.
Proof.
  destruct x as [sx|sx| |sx mx ex], y as [sy|sy| |sy my ey]; simpl;
    repeat match goal with s : bool |- _ => destruct s end; simpl; try reflexivity.
  all: f_equal; lia.
Qed.

Lemma sub_opp (a z : float) : (a - - z = a + z)%float.
Proof.
  apply Prim2SF_inj.
  rewrite FloatAxioms.sub_spec, FloatAxioms.add_spec, FloatAxioms.opp_spec.
  apply SFsub_opp.
Qed.

(** Either loop of the recursion adds to the value accumulated the values
    at the far ends of the constraints it follows. *)
Lemma edges_spec_value rec G last fwd range : forall a0 ws0 a' ws',
  edges_spec rec G last fwd range (a0, ws0) = Some (a', ws') ->
  exists zs,
    Forall2 (fun k zk => fst <$> rec k.2 (Some k.1) = Some zk)
            (kids G last fwd range) zs /\
    a' = fold_left PrimFloat.add zs a0.
Proof.
  induction range as [|c range IH]; intros a0 ws0 a' ws' H; simpl in H.
  - injection H as <- _. exists []. split; [constructor | done].
  - unfold kids. simpl. unfold kid at 1.
    destruct (bool_decide (Some c ≠ last)); [|by apply IH in H].
    destruct (cons G !! c) as [cr|]; [|done].
    destruct (active cr); [|by apply IH in H].
    destruct (rec _ _) as [[z ws]|] eqn:Er; [|done]. simpl in H.
    apply IH in H as (zs & Hzs & ->). exists (z :: zs). split.
    + constructor; [|exact Hzs]. simpl. by rewrite Er.
    + simpl. destruct fwd; [done|]. by rewrite sub_opp.
Qed.

(** X7: the value [compute_dfdv] returns at a variable is [2 * (x - d)]
    plus, added in turn, the values it returns at the far ends of the
    constraints it follows, the outgoing ones first and then the incoming
    ones. The direction of a constraint is the sign of its multiplier and
    nothing more: subtracting the negated value of an incoming constraint adds
    the value exactly. *)
Theorem compute_dfdv_adds_far_end_values
    (n : nat) (v : ptr) (last : option ptr) (G : state) (z : float) (G' : state)
    (vr : Var) :
  compute_dfdv (S n) v last G = Some (z, G') ->
  vars G !! v = Some vr ->
  exists zs,
    Forall2 (fun k zk => fst <$> compute_dfdv n k.2 (Some k.1) G = Some zk)
            (all_kids G last vr) zs /\
    z = fold_left PrimFloat.add zs (2 * (x vr - d vr))%float.
Proof.
  rewrite compute_dfdv_refines. simpl. intros H Hv. rewrite Hv in H.
  destruct (edges_spec _ _ _ true _ _) as [[a1 ws1]|] eqn:E1; [|done].
  destruct (edges_spec _ _ _ false _ _) as [[a2 ws2]|] eqn:E2; [|done].
  injection H as <- _.
  apply edges_spec_value in E1 as (zs1 & H1 & ->).
  apply edges_spec_value in E2 as (zs2 & H2 & ->).
  exists (zs1 ++ zs2). split; [|by rewrite fold_left_app].
  apply Forall2_app.
  - eapply Forall2_impl; [exact H1|]. intros k zk Hk. simpl in Hk.
    rewrite compute_dfdv_refines. by destruct (dfdv_spec n G k.2 (Some k.1)) as [[]|].
  - eapply Forall2_impl; [exact H2|]. intros k zk Hk. simpl in Hk.
    rewrite compute_dfdv_refines. by destruct (dfdv_spec n G k.2 (Some k.1)) as [[]|].
Qed.

(** ** computeLagrangians *)

Lemma resets_fst range : (resets range).*1 = range.
Proof. unfold resets. rewrite <- list_fmap_compose. apply list_fmap_id. Qed.

(** After the loop over [C] each constraint of the list has multiplier
    zero. *)
Lemma writes_resets range : forall G c cr,
  c ∈ range -> cons G !! c = Some cr ->
  cons (writes (resets range) G) !! c = Some (set_lm 0%float cr).
Proof.
  induction range as [|c0 range IH]; intros G c cr Hc HG; [by apply elem_of_nil in Hc|].
  simpl. destruct (decide (c ∈ range)) as [Hin|Hnin].
  - destruct (decide (c0 = c)) as [->|Hne].
    + rewrite (IH _ c (set_lm 0%float cr)); [done|done|].
      simpl. by rewrite lookup_alter_eq, HG.
    + apply IH; [done|]. simpl. by rewrite lookup_alter_ne.
  - apply elem_of_cons in Hc as [->|Hc]; [|done].
    rewrite writes_not_in by by rewrite resets_fst.
    simpl. by rewrite lookup_alter_eq, HG.
Qed.

(** The loop over [C] returns only when each pointer of the list
    addresses a constraint. *)
Lemma reset_loop_inv range : forall st u st',
  for_each range (fun _ c => reset_lm c) tt st = Some (u, st') ->
  Forall (fun c => is_Some (cons st !! c)) range.
Proof.
  induction range as [|c range IH]; intros st u st' H; [constructor|].
  simpl in H. apply bind_Some in H as ([] & s1 & Hu & H).
  apply upd_con_inv in Hu as (cr & Hc & ->).
  constructor; [eauto|].
  eapply Forall_impl; [exact (IH _ _ _ H)|]. intros c' [cr' Hc']. simpl in Hc'.
  destruct (decide (c = c')) as [<-|Hne]; [eauto|].
  rewrite lookup_insert_ne in Hc' by done. eauto.
Qed.

(** The parts of a call of [computeLagrangians] that returns. *)
Lemma computeLagrangians_inv n this st u st' B :
  computeLagrangians n this st = Some (u, st') ->
  blks st !! this = Some B ->
  exists root z ws,
    Forall (fun c => is_Some (cons st !! c)) (C B) /\
    V B !! 0 = Some root /\
    dfdv_spec n (writes (resets (C B)) st) root None = Some (z, ws) /\
    st' = writes ws (writes (resets (C B)) st).
Proof.
  unfold computeLagrangians. intros H HB.
  rewrite (bind_eq _ _ _ _ _ (get_blk_Some _ _ _ HB)) in H.
  apply bind_Some in H as ([] & s1 & Hr & H).
  pose proof (reset_loop_inv _ _ _ _ Hr) as HC.
  rewrite (reset_loop _ _ HC) in Hr. injection Hr as <-.
  assert (HB0 : blks (writes (resets (C B)) st) !! this = Some B)
    by by rewrite writes_blks.
  rewrite (bind_eq _ _ _ _ _ (get_blk_Some _ _ _ HB0)) in H.
  destruct (V B !! 0) as [root|]; [|done].
  unfold bind at 1, lift at 1 in H.
  apply bind_Some in H as (z & s2 & Hd & H).
  rewrite compute_dfdv_refines in Hd.
  destruct (dfdv_spec n _ root None) as [[z' ws]|] eqn:Hspec; [|done].
  injection Hd as <- <-. injection H as <-.
  by exists root, z', ws.
Qed.

Lemma computeLagrangians_run n this st B root z ws :
  blks st !! this = Some B ->
  Forall (fun c => is_Some (cons st !! c)) (C B) ->
  V B !! 0 = Some root ->
  dfdv_spec n st root None = Some (z, ws) ->
  computeLagrangians n this st = Some (tt, writes ws (writes (resets (C B)) st)).
Proof.
  intros HB HC Hroot Hspec. unfold computeLagrangians.
  rewrite (bind_eq _ _ _ _ _ (get_blk_Some _ _ _ HB)).
  rewrite (bind_eq _ _ _ _ _ (reset_loop _ _ HC)).
  assert (HB0 : blks (writes (resets (C B)) st) !! this = Some B)
    by by rewrite writes_blks.
  rewrite (bind_eq _ _ _ _ _ (get_blk_Some _ _ _ HB0)), Hroot.
  unfold bind at 1, lift at 1. unfold bind at 1.
  rewrite compute_dfdv_refines.
  rewrite (dfdv_spec_same_graph n _ st) by apply same_graph_sym, same_graph_writes.
  by rewrite Hspec.
Qed.

(** X8: [computeLagrangians] on a block without members does not return:
    it reads [V[0]], which the vector does not have. *)
Theorem computeLagrangians_needs_a_member (n : nat) (this : ptr) (st : state) (B : Block) :
  blks st !! this = Some B -> V B = [] ->
  computeLagrangians n this st = None.
Proof.
  intros HB HV.
  destruct (computeLagrangians n this st) as [[u st']|] eqn:H; [|done].
  destruct (computeLagrangians_inv _ _ _ _ _ _ H HB) as (root & _ & _ & _ & Hroot & _).
  by rewrite HV in Hroot.
Qed.

(** X9: a call of [computeLagrangians] that returns leaves every inactive
    constraint of the block's list [C] with multiplier zero, whatever it was
    before, and changes nothing but multipliers. *)
Theorem computeLagrangians_zeroes_inactive
    (n : nat) (this : ptr) (st : state) (u : unit) (st' : state) (B : Block) :
  computeLagrangians n this st = Some (u, st') ->
  blks st !! this = Some B ->
  vars st' = vars st /\ blks st' = blks st /\
  (forall c, option_Forall2 same_edge (cons st !! c) (cons st' !! c)) /\
  forall c cr, c ∈ C B -> cons st !! c = Some cr -> active cr = false ->
    cons st' !! c = Some (set_lm 0%float cr).
Proof.
  intros H HB.
  destruct (computeLagrangians_inv _ _ _ _ _ _ H HB)
    as (root & z & ws & HC & Hroot & Hspec & ->).
  rewrite !writes_vars, !writes_blks. do 2 (split; [done|]). split.
  - apply (same_graph_trans _ (writes (resets (C B)) st)); apply same_graph_writes.
  - intros c cr Hc Hcr Ha.
    pose proof (writes_resets _ _ _ _ Hc Hcr) as H0.
    rewrite writes_not_in; [done|]. intros Hin.
    destruct (dfdv_spec_sound _ _ _ _ _ _ _ Hspec Hin) as (p & w & Hw).
    apply walk_snoc_inv in Hw as (y & _ & (vy & cr' & _ & Hc' & Ha' & _)).
    rewrite H0 in Hc'. injection Hc' as <-. simpl in Ha'. congruence.
Qed.

(** X10: on a block whose list [C] addresses constraints and whose first
    member is the root of a tree of active constraints, in a heap as the
    constructors leave it, [computeLagrangians] returns. It has changed
    nothing but multipliers, and every constraint of [C] that is not in the
    tree has multiplier zero. *)
Theorem computeLagrangians_on_tree (this : ptr) (st : state) (B : Block) (root : ptr) :
  graph_ok st ->
  blks st !! this = Some B ->
  Forall (fun c => is_Some (cons st !! c)) (C B) ->
  V B !! 0 = Some root ->
  is_Some (vars st !! root) ->
  acyclic st root ->
  exists st',
    computeLagrangians (size (vars st)) this st = Some (tt, st') /\
    same_graph st st' /\ blks st' = blks st /\
    forall c cr, c ∈ C B -> cons st !! c = Some cr -> ¬ tree_edge st root c ->
      cons st' !! c = Some (set_lm 0%float cr).
Proof.
  intros HG HB HC Hroot Hr Hac.
  pose proof (acyclic_unique_walks _ _ HG Hac) as HU.
  destruct (dfdv_spec_total st (size (vars st)) root None HG Hr
              (tree_walks_bounded _ _ HG Hr HU)) as [[z ws] Hspec].
  eexists. split; [by eapply computeLagrangians_run|]. split; [|split].
  - apply (same_graph_trans _ (writes (resets (C B)) st)); apply same_graph_writes.
  - by rewrite !writes_blks.
  - intros c cr Hc Hcr Hn.
    rewrite writes_not_in; [by apply writes_resets|].
    intros Hin. apply Hn. by eapply dfdv_spec_sound.
Qed.

Lemma writes_lookup ws : forall G0 G c acc,
  cons G !! c = written acc <$> cons G0 !! c ->
  cons (writes ws G) !! c = written (last_write ws c acc) <$> cons G0 !! c.
Proof.
  induction ws as [|w ws IH]; intros G0 G c acc HG; simpl; [done|].
  apply IH. simpl. case_decide as Hw.
  - subst c. rewrite lookup_alter_eq, HG.
    destruct (cons G0 !! w.1) as [cr|]; [|done]. by destruct acc.
  - by rewrite lookup_alter_ne.
Qed.

Lemma last_write_acc ws : forall c acc,
  last_write ws c acc =
    match last_write ws c None with
    | Some z => Some z
    | None => acc
    end.
Proof.
  induction ws as [|w ws IH]; intros c acc; simpl; [done|].
  case_decide; [|apply IH].
  rewrite (IH c (Some w.2)). by destruct (last_write ws c None).
Qed.

Lemma writes_cons_ext ws : forall G1 G2,
  vars G1 = vars G2 -> blks G1 = blks G2 -> vs G1 = vs G2 -> cs G1 = cs G2 ->
  blocks G1 = blocks G2 -> inactive G1 = inactive G2 ->
  (forall c, cons (writes ws G1) !! c = cons G2 !! c) ->
  writes ws G1 = G2.
Proof.
  intros G1 G2 Hv Hb Hvs Hcs Hbl Hin Hc.
  destruct (writes_solver ws G1) as (Hvs' & Hcs' & Hbl' & Hin').
  pose proof (writes_vars ws G1) as Hv'. pose proof (writes_blks ws G1) as Hb'.
  apply map_eq in Hc.
  destruct (writes ws G1), G2; simpl in *. congruence.
Qed.

(** A sequence of assignments made a second time changes nothing. *)
Lemma writes_twice ws G : writes ws (writes ws G) = writes ws G.
Proof.
  destruct (writes_solver ws G) as (Hvs & Hcs & Hbl & Hin).
  apply writes_cons_ext;
    rewrite ?writes_vars, ?writes_blks; try done.
  intros c.
  assert (H1 : cons (writes ws G) !! c = written (last_write ws c None) <$> cons G !! c).
  { apply writes_lookup. simpl. by destruct (cons G !! c). }
  rewrite (writes_lookup ws G _ c _ H1), H1, (last_write_acc ws c (last_write _ _ _)).
  by destruct (last_write ws c None).
Qed.

(** X11: [computeLagrangians] called again on the state it has left
    returns and changes nothing: the multipliers it computes do not depend on
    the multipliers it finds. *)
Theorem computeLagrangians_again_changes_nothing
    (n : nat) (this : ptr) (st : state) (u : unit) (st1 : state) :
  computeLagrangians n this st = Some (u, st1) ->
  computeLagrangians n this st1 = Some (tt, st1).
Proof.
  intros H.
  destruct (blks st !! this) as [B|] eqn:HB.
  2:{ unfold computeLagrangians, bind at 1, get_blk, bind, get, lift in H.
      by rewrite HB in H. }
  destruct (computeLagrangians_inv _ _ _ _ _ _ H HB)
    as (root & z & ws & HC & Hroot & Hspec & ->).
  rewrite <- writes_app.
  set (st1 := writes (resets (C B) ++ ws) st).
  assert (Hsame : same_graph st st1) by apply same_graph_writes.
  rewrite (computeLagrangians_run n this st1 B root z ws).
  - rewrite <- writes_app. unfold st1. by rewrite writes_twice.
  - unfold st1. by rewrite writes_blks.
  - eapply Forall_impl; [exact HC|]. intros c [cr Hc].
    destruct (writes_cons_Some (resets (C B) ++ ws) _ _ _ Hc) as (cr' & Hc' & _). eauto.
  - done.
  - rewrite <- Hspec. apply dfdv_spec_same_graph.
    apply (same_graph_trans _ st); [by apply same_graph_sym | apply same_graph_writes].
Qed.

(** ** The constructor of the solver, init_blocks and the destructor *)

(** X12: the constructor of the solver reads no object. It leaves the
    heap as it is, takes the two vectors, starts with no block, and has in
    the inactive set the constraints of [cs]: the same pointers, in increasing
    order of address, each once however often [cs] names it. *)
Theorem FeasibleProjectionAlgorithm_ctor_collects_cs (vs0 cs0 : list ptr) (st : state) :
  exists st',
    FeasibleProjectionAlgorithm_ctor vs0 cs0 st = Some (tt, st') /\
    vars st' = vars st /\ cons st' = cons st /\ blks st' = blks st /\
    vs st' = vs0 /\ cs st' = cs0 /\ blocks st' = [] /\
    StronglySorted lt (inactive st') /\ NoDup (inactive st') /\
    (forall c, c ∈ inactive st' <-> c ∈ cs0) /\
    length (inactive st') <= length cs0 /\
    (length (inactive st') = length cs0 <-> NoDup cs0).
Proof.
  eexists. split; [reflexivity|]. simpl. do 6 (split; [done|]).
  destruct (set_of_range_spec cs0) as [Hs He].
  assert (Hnd : NoDup (set_of_range cs0)) by by apply StronglySorted_lt_NoDup.
  assert (Hsub : set_of_range cs0 ⊆+ cs0).
  { apply NoDup_submseteq; [done|]. intros c. apply He. }
  do 3 (split; [done|]). split; [by apply submseteq_length|]. split.
  - intros Hlen. apply submseteq_length_Permutation in Hsub; [|lia].
    by rewrite <- Hsub.
  - intros Hnd0. apply Nat.le_antisymm; [by apply submseteq_length|].
    apply submseteq_length, NoDup_submseteq; [done|]. intros c. apply He.
Qed.

(** A round of the loop of [init_blocks] returns only for a variable of
    the heap. *)
Lemma init_round_inv v st u st' :
  (p <- new_Block ;; Block_ctor p v ;; modify (with_blocks (fun bs => bs ++ [p]))) st
    = Some (u, st') ->
  exists vr, vars st !! v = Some vr /\ st' = after_new_block v vr st.
Proof.
  intros H. destruct (vars st !! v) as [vr|] eqn:Hv.
  - rewrite (init_round_Some _ _ _ Hv) in H. injection H as _ <-. by exists vr.
  - exfalso. unfold new_Block in H.
    unfold bind at 1 in H. unfold bind at 1, get at 1, ret at 1 in H.
    apply bind_Some in H as ([] & s1 & H & _).
    unfold Block_ctor in H. apply bind_Some in H as (vr & s2 & H & _).
    apply get_var_inv in H as [_ H]. congruence.
Qed.

(** The loop of [init_blocks] returns only when every pointer of [range]
    addresses a variable, and the blocks it creates are the only change to
    the heap of blocks. *)
Lemma init_loop_inv (range : list ptr) : forall st u st',
  for_each range (fun (_ : unit) v =>
    p <- new_Block ;; Block_ctor p v ;;
    modify (with_blocks (fun bs => bs ++ [p]))) tt st = Some (u, st') ->
  Forall (fun v => is_Some (vars st !! v)) range /\
  (forall v, is_Some (vars st' !! v) <-> is_Some (vars st !! v)) /\
  exists ps, blocks st' = blocks st ++ ps /\
    forall q, q ∉ ps -> blks st' !! q = blks st !! q.
Proof.
  induction range as [|v range IH]; intros st u st' H; simpl in H.
  - injection H as _ <-. split; [constructor|]. split; [done|].
    exists []. by rewrite app_nil_r.
  - apply bind_Some in H as ([] & s1 & H1 & H).
    apply init_round_inv in H1 as (vr & Hv & ->).
    destruct (IH _ _ _ H) as (Hall & Hdom & ps & Hbl & Hq).
    assert (Hdom1 : forall w, is_Some (vars (after_new_block v vr st) !! w) <->
                              is_Some (vars st !! w)).
    { intros w. simpl. destruct (decide (v = w)) as [<-|Hne].
      - rewrite lookup_insert_eq, Hv. split; eauto.
      - by rewrite lookup_insert_ne. }
    split; [|split].
    + constructor; [eauto|]. eapply Forall_impl; [exact Hall|].
      intros w. apply Hdom1.
    + intros w. by rewrite Hdom, Hdom1.
    + exists (fresh (dom (blks st)) :: ps). split.
      * rewrite Hbl. simpl. by rewrite <- app_assoc.
      * intros q Hn. apply not_elem_of_cons in Hn as [Hne Hn].
        rewrite (Hq q Hn). simpl. by rewrite lookup_insert_ne.
Qed.

(** X13: a call of [init_blocks] that returns had a variable at each
    pointer of [vs]. It has left every constraint, the vectors [vs] and [cs]
    and the inactive set as they were, and every block that existed before;
    a variable keeps its desired position, its position and its two
    constraint lists, and a variable that is not in [vs] keeps its offset and
    its block too. No variable was created or freed. *)
Theorem init_blocks_frame (st : state) (u : unit) (st' : state) :
  init_blocks st = Some (u, st') ->
  Forall (fun v => is_Some (vars st !! v)) (vs st) /\
  cons st' = cons st /\ vs st' = vs st /\ cs st' = cs st /\
  inactive st' = inactive st /\
  (forall q, is_Some (blks st !! q) -> blks st' !! q = blks st !! q) /\
  (forall v, vars st !! v = None -> vars st' !! v = None) /\
  forall v vr, vars st !! v = Some vr ->
    exists vr', vars st' !! v = Some vr' /\
      d vr' = d vr /\ x vr' = x vr /\ in_ vr' = in_ vr /\ out vr' = out vr /\
      (v ∉ vs st -> vr' = vr).
Proof.
  unfold init_blocks, bind at 1, get at 1. intros H.
  destruct (init_loop_inv _ _ _ _ H) as (Hall & Hdom & _).
  destruct (init_loop (vs st) st) as (st2 & ps & Hrun & _ & _ & _ & _ & Hold & _ & Hvars
                                      & Hc & Hvs & Hcs & Hin).
  { by apply Forall_forall. }
  assert (st2 = st') as -> by congruence.
  split; [done|]. do 4 (split; [done|]). split; [done|]. split.
  - intros v Hv. destruct (vars st' !! v) eqn:E; [|done].
    destruct (proj1 (Hdom v)) as [vr Hvr]; [eauto | congruence].
  - intros v vr Hv.
    destruct (Hvars v vr Hv) as (vr' & Hv' & Hd & Hx & Hi & Ho & _ & Hout).
    by exists vr'.
Qed.

(** X14: [init_blocks] does not look for the blocks that exist. Called a
    second time it creates another block for each entry of [vs], equal in
    content to the one of the first call, which is still there, at its place
    in [blocks] and with the variable as member. The block pointer of the
    variable addresses a block of the second call, one created for an entry
    of [vs] that names the variable, with that same content; when [vs] names
    each variable once, it is the block created for this entry. *)
Theorem init_blocks_again_adds_blocks (st : state) :
  Forall (fun v => is_Some (vars st !! v)) (vs st) ->
  exists st1 st2 ps1 ps2,
    init_blocks st = Some (tt, st1) /\
    init_blocks st1 = Some (tt, st2) /\
    blocks st2 = blocks st ++ ps1 ++ ps2 /\
    length ps1 = length (vs st) /\ length ps2 = length (vs st) /\
    NoDup (ps1 ++ ps2) /\
    forall i v, vs st !! i = Some v ->
      exists p1 p2 B vr q j,
        ps1 !! i = Some p1 /\ ps2 !! i = Some p2 /\
        blks st2 !! p1 = Some B /\ blks st2 !! p2 = Some B /\ V B = [v] /\
        vars st2 !! v = Some vr /\
        block vr = Some q /\ ps2 !! j = Some q /\ vs st !! j = Some v /\
        blks st2 !! q = Some B /\ q ≠ p1 /\
        (NoDup (vs st) -> q = p2).
Proof.
  intros Hok.
  destruct (init_loop (vs st) st) as (st1 & ps1 & Hrun1 & Hbl1 & Hlen1 & Hnd1 & Hfresh1
                                      & _ & Hnew1 & Hvars1 & _ & Hvs1 & _).
  { by apply Forall_forall. }
  destruct (init_loop (vs st) st1) as (st2 & ps2 & Hrun2 & Hbl2 & Hlen2 & Hnd2 & Hfresh2
                                       & Hold2 & Hnew2 & Hvars2 & _).
  { intros v Hv. rewrite Forall_forall in Hok. destruct (Hok v Hv) as [vr Hvr].
    destruct (Hvars1 v vr Hvr) as (vr' & -> & _). eauto. }
  assert (Halloc1 : forall p, p ∈ ps1 -> is_Some (blks st1 !! p)).
  { intros p Hp. apply list_elem_of_lookup in Hp as [i Hi].
    destruct (lookup_lt_is_Some_2 (vs st) i) as [v Hv].
    { rewrite <- Hlen1. by eapply lookup_lt_Some. }
    destruct (Hnew1 i v Hv) as (p' & vr & vr' & Hp' & _ & HB & _).
    assert (p' = p) as -> by congruence. eauto. }
  exists st1, st2, ps1, ps2.
  split; [by unfold init_blocks, bind at 1, get at 1|]. split.
  { unfold init_blocks, bind at 1, get at 1. by rewrite Hvs1. }
  split; [by rewrite Hbl2, Hbl1, <- app_assoc|]. do 2 (split; [done|]). split.
  { apply NoDup_app. split; [done|]. split; [|done].
    intros p Hp1 Hp2. destruct (Halloc1 p Hp1) as [B HB].
    by rewrite (Hfresh2 p Hp2) in HB. }
  intros i v Hi.
  destruct (Hnew1 i v Hi) as (p1 & vr & vr1 & Hp1 & Hvr & HB1 & Hvr1 & _).
  destruct (Hnew2 i v Hi) as (p2 & vr1' & vr2 & Hp2 & Hvr1' & HB2 & Hvr2 & _).
  assert (vr1' = vr1) as -> by congruence.
  destruct (Hvars1 v vr Hvr) as (vr1'' & Hvr1'' & Hd & Hx & _).
  assert (vr1'' = vr1) as -> by congruence.
  assert (Hsame : singleton_block vr1 v = singleton_block vr v).
  { unfold singleton_block. by rewrite Hd, Hx. }
  destruct (Hvars2 v vr1 Hvr1) as (vr2' & Hvr2' & _ & _ & _ & _ & Hown & _).
  assert (vr2' = vr2) as -> by congruence.
  destruct Hown as (_ & q & Hq & Hbq & HV); [by eapply list_elem_of_lookup_2|].
  pose proof Hq as Hq'. apply list_elem_of_lookup in Hq' as [j Hj].
  destruct (lookup_lt_is_Some_2 (vs st) j) as [w Hw].
  { rewrite <- Hlen2. by eapply lookup_lt_Some. }
  destruct (Hnew2 j w Hw) as (q' & wr1 & wr2 & Hq2 & Hwr1 & HBq & _).
  assert (q' = q) as -> by congruence.
  rewrite HBq in HV. simpl in HV. injection HV as ->.
  assert (wr1 = vr1) as -> by congruence.
  exists p1, p2, (singleton_block vr v), vr2, q, j.
  do 2 (split; [done|]). split.
  { rewrite Hold2 by eauto. done. }
  split; [by rewrite HB2, Hsame|].
  do 5 (split; [done|]). split; [by rewrite HBq, Hsame|]. split.
  - intros ->.
    destruct (Halloc1 p1) as [B HB]; [by eapply list_elem_of_lookup_2|].
    by rewrite (Hfresh2 p1 Hq) in HB.
  - intros Hndv. assert (j = i) as -> by by eapply NoDup_lookup.
    congruence.
Qed.

Lemma deleted_lookup range : forall (m : gmap nat Block) q,
  deleted range m !! q = if decide (q ∈ range) then None else m !! q.
Proof.
  induction range as [|p range IH]; intros m q.
  - case_decide as Hin; [by apply elem_of_nil in Hin | done].
  - change (deleted (p :: range) m) with (deleted range (delete p m)).
    rewrite IH. destruct (decide (q ∈ range)) as [Hin|Hnin].
    + rewrite decide_True; [done | by right].
    + destruct (decide (p = q)) as [->|Hne].
      * rewrite lookup_delete_eq, decide_True; [done | by left].
      * rewrite lookup_delete_ne by done. rewrite decide_False; [done|].
        intros [?|?]%elem_of_cons; [congruence | contradiction].
Qed.

Lemma delete_object_inv p st u st' :
  delete_object p st = Some (u, st') ->
  is_Some (blks st !! p) /\ st' = with_blks (delete p) st.
Proof.
  unfold delete_object. intros H.
  apply bind_Some in H as (B & s1 & HB & H).
  apply get_blk_inv in HB as [-> HB]. injection H as _ <-. eauto.
Qed.

Lemma delete_object_Some p st B :
  blks st !! p = Some B -> delete_object p st = Some (tt, with_blks (delete p) st).
Proof.
  intros HB. unfold delete_object.
  by rewrite (bind_eq _ _ _ _ _ (get_blk_Some _ _ _ HB)).
Qed.

(** The loop of the destructor over distinct pointers to blocks. *)
Lemma delete_loop_Some range : forall st,
  NoDup range -> Forall (fun p => is_Some (blks st !! p)) range ->
  for_each range (fun _ p => delete_object p) tt st =
    Some (tt, with_blks (deleted range) st).
Proof.
  induction range as [|p range IH]; intros st Hnd Hall; simpl.
  - by destruct st.
  - apply NoDup_cons in Hnd as [Hp Hnd]. apply Forall_cons in Hall as [[B HB] Hall].
    rewrite (bind_eq _ _ _ _ _ (delete_object_Some _ _ _ HB)).
    rewrite IH; [done|done|].
    apply Forall_forall. intros q Hq. simpl.
    rewrite lookup_delete_ne by (intros ->; contradiction).
    revert q Hq. by apply Forall_forall.
Qed.

(** The loop returns only over distinct pointers to blocks. *)
Lemma delete_loop_inv range : forall st u st',
  for_each range (fun _ p => delete_object p) tt st = Some (u, st') ->
  NoDup range /\ Forall (fun p => is_Some (blks st !! p)) range.
Proof.
  induction range as [|p range IH]; intros st u st' H; simpl in H.
  - split; constructor.
  - apply bind_Some in H as ([] & s1 & H1 & H).
    apply delete_object_inv in H1 as [Hp ->].
    destruct (IH _ _ _ H) as [Hnd Hall]. rewrite Forall_forall in Hall.
    assert (Hq : forall q, q ∈ range -> q ≠ p /\ is_Some (blks st !! q)).
    { intros q Hin. specialize (Hall q Hin). simpl in Hall.
      destruct (decide (p = q)) as [->|Hne].
      - rewrite lookup_delete_eq in Hall. by destruct Hall.
      - rewrite lookup_delete_ne in Hall by done. split; [congruence | done]. }
    split.
    + constructor; [|done]. intros Hin. by destruct (Hq p Hin).
    + constructor; [done|]. apply Forall_forall. intros q Hin. by destruct (Hq q Hin).
Qed.

(** X15: the destructor returns exactly when the pointers of [blocks] are
    pairwise distinct and each addresses a block (a pointer that is there
    twice would be deleted twice). It frees these blocks and nothing else:
    the variables, with their block pointers, and the constraints are as they
    were. *)
Theorem destructor_frees_the_blocks (st : state) :
  (is_Some (FeasibleProjectionAlgorithm_dtor st) <->
   NoDup (blocks st) /\ Forall (fun p => is_Some (blks st !! p)) (blocks st)) /\
  forall u st', FeasibleProjectionAlgorithm_dtor st = Some (u, st') ->
    vars st' = vars st /\ cons st' = cons st /\
    forall q, blks st' !! q = if decide (q ∈ blocks st) then None else blks st !! q.
Proof.
  unfold FeasibleProjectionAlgorithm_dtor, bind at 1, get at 1.
  unfold bind at 1, get at 1. split.
  - split.
    + intros [[u st'] H]. by eapply delete_loop_inv.
    + intros [Hnd Hall]. rewrite delete_loop_Some by done. eauto.
  - intros u st' H. destruct (delete_loop_inv _ _ _ _ H) as [Hnd Hall].
    rewrite delete_loop_Some in H by done. injection H as _ <-. simpl.
    do 2 (split; [done|]). intros q. apply deleted_lookup.
Qed.

(** X16: after [init_blocks] on a solver that has no block yet, the
    destructor returns and the heap of blocks is again as it was before
    [init_blocks]; the variables are as [init_blocks] left them, so that the
    block pointer of every variable of [vs] addresses no block any more. *)
Theorem init_blocks_then_destructor (st : state) :
  blocks st = [] ->
  Forall (fun v => is_Some (vars st !! v)) (vs st) ->
  exists st1 st2,
    init_blocks st = Some (tt, st1) /\
    FeasibleProjectionAlgorithm_dtor st1 = Some (tt, st2) /\
    blks st2 = blks st /\ vars st2 = vars st1 /\ cons st2 = cons st /\
    forall v, v ∈ vs st -> at_var st2 v (dangling st2).
Proof.
  intros Hbs Hok.
  destruct (init_loop (vs st) st) as (st1 & ps & Hrun & Hbl & Hlen & Hnd & Hfresh
                                      & _ & Hnew & Hvars & Hc & _).
  { by apply Forall_forall. }
  rewrite Hbs in Hbl. simpl in Hbl.
  destruct (init_loop_inv _ _ _ _ Hrun) as (_ & _ & ps' & Hbl' & Hq).
  rewrite Hbs, Hbl in Hbl'. simpl in Hbl'. subst ps'.
  assert (Hall : Forall (fun p => is_Some (blks st1 !! p)) ps).
  { apply Forall_forall. intros p Hp. apply list_elem_of_lookup in Hp as [i Hi].
    destruct (lookup_lt_is_Some_2 (vs st) i) as [v Hv].
    { rewrite <- Hlen. by eapply lookup_lt_Some. }
    destruct (Hnew i v Hv) as (p' & vr & vr' & Hp' & _ & HB & _).
    assert (p' = p) as -> by congruence. eauto. }
  exists st1, (with_blks (deleted ps) st1).
  split; [by unfold init_blocks, bind at 1, get at 1|]. split.
  { unfold FeasibleProjectionAlgorithm_dtor, bind at 1, get at 1. rewrite Hbl.
    by apply delete_loop_Some. }
  assert (Hblks : deleted ps (blks st1) = blks st).
  { apply map_eq. intros q. rewrite deleted_lookup. case_decide as Hin.
    - symmetry. by apply Hfresh.
    - by apply Hq. }
  simpl. split; [done|]. split; [done|]. split; [done|].
  intros v Hv. unfold at_var. simpl.
  rewrite Forall_forall in Hok. destruct (Hok v Hv) as [vr Hvr].
  destruct (Hvars v vr Hvr) as (vr' & -> & _ & _ & _ & _ & Hin & _).
  destruct (Hin Hv) as (_ & p & Hp & Hblock & _).
  exists p. split; [done|]. simpl. rewrite Hblks. by apply Hfresh.
Qed.

(** ** The order of doubles, continued *)

Section float_order_total.
Local Open Scope float_scope.

Ltac cmp_split :=
  repeat match goal with
  | |- context [(?a ?= ?b)%Z] => destruct (Z.compare_spec a b)
  | |- context [(?a ?= ?b)%positive] => destruct (Pos.compare_spec a b)
  | H : context [(?a ?= ?b)%Z] |- _ => destruct (Z.compare_spec a b)
  | H : context [(?a ?= ?b)%positive] |- _ => destruct (Pos.compare_spec a b)
  end; simpl in *; try discriminate; try reflexivity; try lia.

Ltac sf_split :=
  rewrite ?SFcompare_finite; simpl; try discriminate; try reflexivity;
  repeat match goal with s : bool |- _ => destruct s end; simpl;
  try discriminate; try reflexivity; cmp_split.

Lemma SFltb_leb_trans u v w : SFltb u v = true -> SFleb v w = true -> SFltb u w = true.
Proof.
  unfold SFltb, SFleb.
  destruct u as [su|su| |su mu eu], v as [sv|sv| |sv mv ev], w as [sw|sw| |sw mw ew];
    sf_split.
Qed.

Lemma SFltb_leb u v : SFltb u v = true -> SFleb u v = true.
Proof.
  unfold SFltb, SFleb.
  destruct u as [su|su| |su mu eu], v as [sv|sv| |sv mv ev]; sf_split.
Qed.

(** Two doubles that are not NaN compare one way or the other. *)
Lemma SFleb_total u v :
  SFleb u u = true -> SFleb v v = true -> SFltb u v = false -> SFleb v u = true.
Proof.
  unfold SFltb, SFleb.
  destruct u as [su|su| |su mu eu], v as [sv|sv| |sv mv ev]; sf_split.
Qed.

Lemma SFleb_refl_l u v : SFleb u v = true -> SFleb u u = true.
Proof.
  unfold SFleb.
  destruct u as [su|su| |su mu eu], v as [sv|sv| |sv mv ev];
    rewrite ?SFcompare_finite; simpl; try discriminate; try reflexivity;
    repeat match goal with s : bool |- _ => destruct s end; simpl;
    try discriminate; try reflexivity; intros _;
    rewrite ?Z.compare_refl, ?Pos.compare_refl; reflexivity.
Qed.

Lemma ltb_leb_trans u v w : (u <? v) = true -> (v <=? w) = true -> (u <? w) = true.
Proof. rewrite FloatAxioms.leb_spec, !FloatAxioms.ltb_spec. apply SFltb_leb_trans. Qed.

Lemma ltb_leb u v : (u <? v) = true -> (u <=? v) = true.
Proof. rewrite FloatAxioms.leb_spec, FloatAxioms.ltb_spec. apply SFltb_leb. Qed.

Lemma leb_total u v w :
  (u <=? w) = true -> (v <=? v) = true -> (u <? v) = false -> (v <=? u) = true.
Proof.
  rewrite !FloatAxioms.leb_spec, FloatAxioms.ltb_spec. intros Hu.
  apply SFleb_total. by eapply SFleb_refl_l.
Qed.

Lemma nan_leb u : (nan <=? u) = false.
Proof. rewrite FloatAxioms.leb_spec. reflexivity. Qed.

Lemma infinity_leb_DBL_MAX : (infinity <=? DBL_MAX) = false.
Proof. reflexivity. Qed.

End float_order_total.

(** ** The search for the safe step *)

Lemma alpha_of_inactive h st c : alpha_of (with_inactive h st) c = alpha_of st c.
Proof.
  unfold alpha_of. rewrite constraint_alpha_inactive.
  by destruct (constraint_alpha c st) as [[a s]|].
Qed.

Lemma taken_inactive h st c : taken (with_inactive h st) c <-> taken st c.
Proof. unfold taken. by rewrite alpha_of_inactive. Qed.

(** A search that returns has found the objects of every constraint of
    its range. *)
Lemma for_each_MaxSafeAlpha_searchable range : forall f0 st f st',
  for_each range MaxSafeAlpha_call f0 st = Some (f, st') ->
  Forall (fun c => is_Some (constraint_alpha c st)) range.
Proof.
  induction range as [|c range IH]; intros f0 st f st' H; [constructor|].
  simpl in H. apply bind_Some in H as (f1 & s1 & H1 & H).
  pose proof (MaxSafeAlpha_call_state _ _ _ _ _ H1) as ->.
  constructor; [|by eapply IH].
  unfold MaxSafeAlpha_call in H1. apply bind_Some in H1 as (a & s2 & Ha & _). eauto.
Qed.

Lemma safe_step_search_searchable st r : safe_step_search st = Some r -> searchable st.
Proof.
  destruct r as [f st']. unfold safe_step_search, bind at 1, get.
  apply for_each_MaxSafeAlpha_searchable.
Qed.

(** The fraction the search holds never exceeds [DBL_MAX]. *)
Lemma for_each_MaxSafeAlpha_bounded range : forall f0 st f st',
  for_each range MaxSafeAlpha_call f0 st = Some (f, st') ->
  (safeAlpha f0 <=? DBL_MAX)%float = true ->
  (safeAlpha f <=? DBL_MAX)%float = true.
Proof.
  induction range as [|c range IH]; intros f0 st f st' H H0; simpl in H.
  - by injection H as <- _.
  - apply bind_Some in H as (f1 & s1 & H1 & H).
    apply (IH _ _ _ _ H). unfold MaxSafeAlpha_call in H1.
    apply bind_Some in H1 as (a & s2 & _ & H1).
    destruct (a <? safeAlpha f0)%float eqn:Hlt; injection H1 as <- _; [|done].
    simpl. apply ltb_leb. by eapply ltb_leb_trans.
Qed.

Lemma safe_step_search_bounded st f st' :
  safe_step_search st = Some (f, st') -> (safeAlpha f <=? DBL_MAX)%float = true.
Proof.
  unfold safe_step_search, bind at 1, get. intros H.
  by apply (for_each_MaxSafeAlpha_bounded _ _ _ _ _ H).
Qed.

(** X17: a pass of the search that returns has changed nothing, and the
    fraction it returns is at most [DBL_MAX]: it is neither a NaN nor plus
    infinity, whatever the fractions of the constraints are. *)
Theorem safe_step_search_fraction_is_bounded (st : state) (f : MaxSafeAlpha) (st' : state) :
  safe_step_search st = Some (f, st') ->
  st' = st /\
  (safeAlpha f <=? DBL_MAX)%float = true /\
  safeAlpha f ≠ nan /\ safeAlpha f ≠ infinity.
Proof.
  intros H. pose proof (safe_step_search_bounded _ _ _ H) as Hb.
  split; [by eapply safe_step_search_state|]. split; [exact Hb|]. split.
  - intros E. rewrite E, nan_leb in Hb. discriminate.
  - intros E. rewrite E, infinity_leb_DBL_MAX in Hb. discriminate.
Qed.

Lemma StronglySorted_lookup {A} (R : A -> A -> Prop) (s : list A) :
  StronglySorted R s ->
  forall i j a1 a2, i < j -> s !! i = Some a1 -> s !! j = Some a2 -> R a1 a2.
Proof.
  induction 1 as [|a s _ IH Hall]; intros i j a1 a2 Hij Hi Hj.
  - by rewrite lookup_nil in Hi.
  - destruct j as [|j]; [lia|]. simpl in Hj. destruct i as [|i]; simpl in Hi.
    + injection Hi as <-. rewrite Forall_forall in Hall.
      apply Hall. by eapply list_elem_of_lookup_2.
    + apply (IH i j); [lia|done|done].
Qed.

(** X18: the inactive set is gone through in increasing order of address,
    so that among constraints with the same least step fraction the search
    returns the one at the lowest address: every constraint of the set at a
    lower address than the one returned has a fraction that is not less than
    or equal to the one returned. *)
Theorem safe_step_search_breaks_ties_by_address
    (st : state) (f : MaxSafeAlpha) (c : ptr) :
  StronglySorted lt (inactive st) ->
  safe_step_search st = Some (f, st) ->
  safeC f = Some c ->
  c ∈ inactive st /\ alpha_of st c = safeAlpha f /\
  forall c', c' ∈ inactive st -> c' < c ->
    (alpha_of st c' <=? safeAlpha f)%float = false.
Proof.
  intros Hsorted Hrun HC.
  destruct (searchable_alphas _ (safe_step_search_searchable _ _ Hrun)) as [alphas Hal].
  destruct (for_each_MaxSafeAlpha st _ _ Hal MaxSafeAlpha_ctor)
    as (f' & Hrun' & _ & Hsel).
  assert (f' = f) as ->.
  { unfold safe_step_search, bind at 1, get in Hrun. congruence. }
  destruct Hsel as [->|(i & c0 & Hi & Hai & HC0 & _ & Hfirst)]; [discriminate HC|].
  assert (c0 = c) as -> by congruence.
  assert (Hof : forall j c' a, inactive st !! j = Some c' -> alphas !! j = Some a ->
            alpha_of st c' = a).
  { intros j c' a Hc' Ha. unfold alpha_of.
    by rewrite (Forall2_lookup_lr _ _ _ _ _ _ Hal Hc' Ha). }
  split; [by eapply list_elem_of_lookup_2|]. split; [by eapply Hof|].
  intros c' Hc' Hlt. apply list_elem_of_lookup in Hc' as [j Hj].
  destruct (Forall2_lookup_l _ _ _ _ _ Hal Hj) as (a & Ha & _).
  rewrite (Hof _ _ _ Hj Ha). apply (Hfirst j); [|done].
  destruct (Nat.lt_trichotomy j i) as [?|[->|Hgt]]; [done| |].
  - rewrite Hi in Hj. injection Hj as ->. lia.
  - pose proof (StronglySorted_lookup _ _ Hsorted _ _ _ _ Hgt Hi Hj). lia.
Qed.

(** What a pass of the search has found, in terms of the step fractions of
    the constraints of the inactive set. *)
Lemma safe_step_search_least st f :
  safe_step_search st = Some (f, st) ->
  (forall c, c ∈ inactive st -> (alpha_of st c <? safeAlpha f)%float = false) /\
  (safeC f = None /\ safeAlpha f = DBL_MAX \/
   exists c, safeC f = Some c /\ c ∈ inactive st /\ alpha_of st c = safeAlpha f).
Proof.
  intros Hrun.
  destruct (searchable_alphas _ (safe_step_search_searchable _ _ Hrun)) as [alphas Hal].
  destruct (for_each_MaxSafeAlpha st _ _ Hal MaxSafeAlpha_ctor)
    as (f' & Hrun' & Hmin & Hsel).
  assert (f' = f) as ->.
  { unfold safe_step_search, bind at 1, get in Hrun. congruence. }
  assert (Hof : forall i c a, inactive st !! i = Some c -> alphas !! i = Some a ->
            alpha_of st c = a).
  { intros i c a Hc Ha. unfold alpha_of.
    by rewrite (Forall2_lookup_lr _ _ _ _ _ _ Hal Hc Ha). }
  split.
  - intros c Hc. apply list_elem_of_lookup in Hc as [i Hi].
    destruct (Forall2_lookup_l _ _ _ _ _ Hal Hi) as (a & Ha & _).
    rewrite (Hof _ _ _ Hi Ha). apply Hmin. by eapply list_elem_of_lookup_2.
  - destruct Hsel as [->|(i & c & Hi & Hai & HC & _)]; [by left|].
    right. exists c. split; [done|]. split; [by eapply list_elem_of_lookup_2|].
    by eapply Hof.
Qed.

(** When the loop of [make_optimal] is left, no constraint of the inactive
    set has a step fraction below 1. *)
Lemma safe_step_search_exit st f :
  safe_step_search st = Some (f, st) -> (safeAlpha f <? 1)%float = false ->
  Forall (fun c => ¬ taken st c) (inactive st).
Proof.
  intros Hrun Hge. destruct (safe_step_search_least _ _ Hrun) as [Hmin _].
  pose proof (safe_step_search_bounded _ _ _ Hrun) as Hb.
  apply Forall_forall. intros c Hc Ht. unfold taken in Ht.
  assert (H1 : (1 <=? safeAlpha f)%float = true).
  { by apply (leb_total _ _ DBL_MAX). }
  pose proof (ltb_leb_trans _ _ _ Ht H1) as Hlt.
  rewrite (Hmin c Hc) in Hlt. discriminate.
Qed.

(** ** make_optimal *)

Lemma filter_all {A} (P : A -> Prop) `{!forall a, Decision (P a)} (s : list A) :
  Forall P s -> filter P s = s.
Proof.
  induction 1 as [|a s Ha _ IH]; [done|].
  rewrite filter_cons, decide_True by done. by rewrite IH.
Qed.

(** The loop of [make_optimal], entered after a pass of the search: it
    takes the constraints with a step fraction below 1, each once, in the
    order of their fractions, and leaves the others. *)
Lemma activation_loop_partition n : forall f st acts st',
  safe_step_search st = Some (f, st) ->
  activation_loop n f st = Some (acts, st') ->
  inactive st' = filter (fun c => ¬ taken st c) (inactive st) /\
  Forall (fun a => exists c, a = Some c /\ c ∈ inactive st /\ taken st c) acts /\
  NoDup acts /\
  StronglySorted (fun a1 a2 => (act_alpha st a2 <? act_alpha st a1)%float = false) acts.
Proof.
  induction n as [|n IH]; intros f st acts st' Hrun H; simpl in H;
    destruct (safeAlpha f <? 1)%float eqn:Hlt; try discriminate.
  - injection H as <- <-. split; [|by repeat constructor].
    symmetry. by apply filter_all, (safe_step_search_exit _ f).
  - unfold make_active in H. unfold bind at 1, ret at 1 in H.
    unfold bind at 1, modify at 1 in H.
    apply bind_Some in H as (f' & s1 & Hs & H).
    pose proof (safe_step_search_state _ _ _ Hs) as ->.
    apply bind_Some in H as (acts' & s2 & Hl & H).
    injection H as <- <-.
    destruct (safe_step_search_least _ _ Hrun) as [Hmin [[_ HD]|(c & HC & Hc & Hac)]].
    { rewrite HD in Hlt. discriminate Hlt. }
    assert (Htc : taken st c) by (unfold taken; by rewrite Hac).
    destruct (IH _ _ _ _ Hs Hl) as (Hin & Hacts & Hnd & Hsort).
    rewrite HC in *. simpl in Hin, Hacts.
    assert (Hacts' : Forall (fun a => exists c', a = Some c' /\
              c' ∈ inactive st /\ c' ≠ c /\ taken st c') acts').
    { eapply Forall_impl; [exact Hacts|]. intros a (c' & -> & Hc' & Ht).
      apply list_elem_of_filter in Hc' as [Hne Hc'].
      exists c'. by rewrite taken_inactive in Ht. }
    split; [|split; [|split]].
    + rewrite Hin.
      rewrite (list_filter_iff (fun c0 => ¬ taken (with_inactive (set_erase (Some c)) st) c0)
                 (fun c0 => ¬ taken st c0)).
      2:{ intros c0. by rewrite taken_inactive. }
      apply list_filter_filter_l. intros c0 Hn ->. by apply Hn.
    + constructor; [by exists c|].
      eapply Forall_impl; [exact Hacts'|]. intros a (c' & -> & ? & _ & ?). by exists c'.
    + constructor; [|done]. intros Hin'.
      rewrite Forall_forall in Hacts'.
      destruct (Hacts' _ Hin') as (c' & [= <-] & _ & Hne & _). done.
    + constructor.
      * clear -Hsort. induction Hsort as [|a s _ IHs Hall]; constructor; [done|].
        eapply Forall_impl; [exact Hall|]. intros a'.
        destruct a as [c1|], a' as [c2|]; simpl; by rewrite ?alpha_of_inactive.
      * eapply Forall_impl; [exact Hacts'|]. intros a (c' & -> & Hc' & _ & _).
        simpl. rewrite Hac. by apply Hmin.
  - injection H as <- <-. split; [|by repeat constructor].
    symmetry. by apply filter_all, (safe_step_search_exit _ f).
Qed.

Lemma erase_all_elem acts : forall s c,
  c ∈ erase_all acts s <-> c ∈ s /\ Some c ∉ acts.
Proof.
  unfold erase_all.
  induction acts as [|a acts IH]; intros s c; simpl.
  - rewrite elem_of_nil. tauto.
  - rewrite IH, not_elem_of_cons. destruct a as [c0|]; simpl.
    + rewrite list_elem_of_filter. split.
      * intros [[Hne Hc] Hn]. split; [done|]. split; [congruence|done].
      * intros [Hc [Hne Hn]]. split; [|done]. split; [congruence|done].
    + split; [intros [? ?]|intros [? [_ ?]]]; auto.
Qed.

(** The parts of a call of [make_optimal] that returns. *)
Lemma make_optimal_inv n st acts st' :
  make_optimal n st = Some (acts, st') ->
  exists f,
    safe_step_search st = Some (f, st) /\
    activation_loop n f st = Some (acts, with_inactive (erase_all acts) st) /\
    st' = with_blks (steps_taken (blocks st)) (with_inactive (erase_all acts) st).
Proof.
  unfold make_optimal. intros H.
  apply bind_Some in H as (f & s1 & Hs & H).
  pose proof (safe_step_search_state _ _ _ Hs) as ->.
  apply bind_Some in H as (acts' & s2 & Hl & H).
  pose proof (activation_loop_state _ _ _ _ _ Hl) as ->.
  unfold bind at 1, get at 1 in H.
  apply bind_Some in H as ([] & s3 & Hf & H).
  apply for_each_step_state in Hf as ->.
  injection H as <- <-. by exists f.
Qed.

(** The constraints handed to [make_active] are those of the inactive set
    with a step fraction below 1. *)
Lemma make_optimal_acts n st acts st' :
  make_optimal n st = Some (acts, st') ->
  forall c, Some c ∈ acts <-> c ∈ inactive st /\ taken st c.
Proof.
  intros H. destruct (make_optimal_inv _ _ _ _ H) as (f & Hrun & Hloop & ->).
  destruct (activation_loop_partition _ _ _ _ _ Hrun Hloop) as (Hin & Hacts & _).
  simpl in Hin. intros c. split.
  - intros Hc. rewrite Forall_forall in Hacts.
    by destruct (Hacts _ Hc) as (c' & [= <-] & ? & ?).
  - intros [Hc Ht].
    destruct (decide (Some c ∈ acts)) as [|Hn]; [done|]. exfalso.
    assert (Hk : c ∈ erase_all acts (inactive st)) by by apply erase_all_elem.
    rewrite Hin in Hk. by apply list_elem_of_filter in Hk as [Hk _].
Qed.

(** X19: a call of [make_optimal] that returns has handed to [make_active]
    exactly the constraints of the inactive set whose step fraction, in the
    state at the call, is below 1, each of them once and never a null
    pointer; the inactive set afterwards holds the other constraints, in
    their order. *)
Theorem make_optimal_takes_fractions_below_one
    (n : nat) (st : state) (acts : list (option ptr)) (st' : state) :
  make_optimal n st = Some (acts, st') ->
  inactive st' = filter (fun c => ¬ taken st c) (inactive st) /\
  NoDup acts /\ (None ∉ acts) /\
  forall c, Some c ∈ acts <-> c ∈ inactive st /\ taken st c.
Proof.
  intros H. pose proof (make_optimal_acts _ _ _ _ H) as Hiff.
  destruct (make_optimal_inv _ _ _ _ H) as (f & Hrun & Hloop & ->).
  destruct (activation_loop_partition _ _ _ _ _ Hrun Hloop) as (Hin & Hacts & Hnd & _).
  simpl in Hin. split; [exact Hin|]. split; [exact Hnd|]. split; [|exact Hiff].
  intros Hnone. rewrite Forall_forall in Hacts.
  by destruct (Hacts _ Hnone) as (c & ? & _).
Qed.

(** X20: a constraint that has its objects is handed to [make_active], by
    a call of [make_optimal] that returns, exactly when it is in the inactive
    set, is not satisfied where the blocks are to go
    ([X_l + b_l + g <= X_r + b_r] fails) and the quotient
    [(g + Al - Ar) / (Br - Bl)] is below 1. A constraint that is satisfied at
    the targets is never taken. *)
Theorem make_optimal_takes_violated_constraints
    (n : nat) (st : state) (acts : list (option ptr)) (st' : state)
    (c : ptr) (cr : Constraint) (vl vr : Var) (BL BR : Block) :
  make_optimal n st = Some (acts, st') ->
  resolves st c cr vl vr BL BR ->
  (Some c ∈ acts <->
   c ∈ inactive st /\
   (X BL + b vl + g cr <=? X BR + b vr)%float = false /\
   ((g cr + (XI BL + b vl) - (XI BR + b vr)) /
    (X BR - XI BR - (X BL - XI BL)) <? 1)%float = true).
Proof.
  intros H Hres. rewrite (make_optimal_acts _ _ _ _ H c).
  unfold taken, alpha_of. rewrite (constraint_alpha_unfold _ _ _ _ _ _ _ Hres).
  destruct (X BL + b vl + g cr <=? X BR + b vr)%float.
  - split; [intros [_ Hlt]; discriminate Hlt | intros (_ & Hf & _); discriminate Hf].
  - tauto.
Qed.

(** X21: the constraints are handed to [make_active] in the order of their
    step fractions: no constraint has a fraction below that of a constraint
    taken before it. *)
Theorem make_optimal_takes_least_fraction_first
    (n : nat) (st : state) (acts : list (option ptr)) (st' : state) :
  make_optimal n st = Some (acts, st') ->
  forall i j a1 a2, i < j -> acts !! i = Some a1 -> acts !! j = Some a2 ->
    (act_alpha st a2 <? act_alpha st a1)%float = false.
Proof.
  intros H. destruct (make_optimal_inv _ _ _ _ H) as (f & Hrun & Hloop & _).
  destruct (activation_loop_partition _ _ _ _ _ Hrun Hloop) as (_ & _ & _ & Hsort).
  by apply StronglySorted_lookup.
Qed.

Lemma step_taken_idemp B : step_taken (step_taken B) = step_taken B.
Proof. by destruct B. Qed.

(** X22: a second call of [make_optimal] moves no block: the blocks are
    where the first call left them (each block of [blocks] has [XI] equal to
    [X] already), and the variables and the constraints are untouched; the
    second call can only take further constraints out of the inactive set. *)
Theorem make_optimal_again_moves_no_block
    (n m : nat) (st : state) (acts1 acts2 : list (option ptr)) (st1 st2 : state) :
  make_optimal n st = Some (acts1, st1) ->
  make_optimal m st1 = Some (acts2, st2) ->
  vars st2 = vars st1 /\ cons st2 = cons st1 /\ blks st2 = blks st1 /\
  blocks st2 = blocks st1 /\
  inactive st2 = erase_all acts2 (inactive st1) /\
  (forall c, c ∈ inactive st2 -> c ∈ inactive st1).
Proof.
  intros H1 H2.
  destruct (make_optimal_inv _ _ _ _ H1) as (f1 & _ & _ & ->).
  destruct (make_optimal_inv _ _ _ _ H2) as (f2 & _ & _ & ->).
  simpl. do 2 (split; [done|]). split; [|split; [done|split; [done|]]].
  - apply map_eq. intros p. rewrite !steps_taken_lookup. case_decide; [|done].
    destruct (blks st !! p) as [B|]; simpl; [|done]. by rewrite step_taken_idemp.
  - intros c Hc. by apply erase_all_elem in Hc as [Hc _].
Qed.

Lemma constraint_alpha_resolves c st :
  is_Some (constraint_alpha c st) <->
  exists cr vl vr BL BR, resolves st c cr vl vr BL BR.
Proof.
  split.
  - intros [[a st'] H]. unfold constraint_alpha in H.
    apply bind_Some in H as (cr & s1 & H1 & H). apply get_con_inv in H1 as [-> H1].
    apply bind_Some in H as (vl & s2 & H2 & H). apply get_var_inv in H2 as [-> H2].
    apply bind_Some in H as (vr & s3 & H3 & H). apply get_var_inv in H3 as [-> H3].
    apply bind_Some in H as (pl & s4 & H4 & H).
    unfold lift in H4. destruct (block vl) as [pl'|] eqn:El; [|discriminate].
    injection H4 as -> ->.
    apply bind_Some in H as (pr & s5 & H5 & H).
    unfold lift in H5. destruct (block vr) as [pr'|] eqn:Er; [|discriminate].
    injection H5 as -> ->.
    apply bind_Some in H as (BL & s6 & H6 & H). apply get_blk_inv in H6 as [-> H6].
    apply bind_Some in H as (BR & s7 & H7 & _). apply get_blk_inv in H7 as [-> H7].
    exists cr, vl, vr, BL, BR. unfold resolves. rewrite El, Er. auto.
  - intros (cr & vl & vr & BL & BR & Hres).
    rewrite (constraint_alpha_unfold _ _ _ _ _ _ _ Hres). eauto.
Qed.

Lemma for_each_step_inv range : forall st u st',
  for_each range (fun _ p => upd_blk p (fun B => set_XI (X B) B)) tt st = Some (u, st') ->
  Forall (fun p => is_Some (blks st !! p)) range.
Proof.
  induction range as [|p range IH]; intros st u st' H; [constructor|].
  simpl in H. apply bind_Some in H as ([] & s1 & Hu & H).
  apply upd_blk_inv in Hu as (B & HB & ->).
  constructor; [eauto|].
  eapply Forall_impl; [exact (IH _ _ _ H)|]. intros q [Bq Hq]. simpl in Hq.
  destruct (decide (p = q)) as [<-|Hne]; [eauto|].
  rewrite lookup_insert_ne in Hq by done. eauto.
Qed.

(** [make_optimal] returns when given as much fuel as the inactive set has
    constraints. *)
Lemma make_optimal_total n st :
  length (inactive st) <= n ->
  searchable st ->
  Forall (fun p => is_Some (blks st !! p)) (blocks st) ->
  exists acts,
    make_optimal n st =
      Some (acts, with_blks (steps_taken (blocks st)) (with_inactive (erase_all acts) st)).
Proof.
  intros Hn Hs Hb.
  destruct (safe_step_search_total _ Hs) as [f Hrun].
  destruct (activation_loop_total n f st Hn Hs Hrun) as (acts & Hloop & _).
  exists acts. unfold make_optimal.
  rewrite (bind_eq _ _ _ _ _ Hrun), (bind_eq _ _ _ _ _ Hloop).
  unfold bind at 1, get at 1.
  change (blocks (with_inactive (erase_all acts) st)) with (blocks st).
  by rewrite (bind_eq _ _ _ _ _
                (for_each_step_total (blocks st) (with_inactive (erase_all acts) st) Hb)).
Qed.

(** X23: the pointers [make_optimal] follows. Given fuel for as many
    rounds as the inactive set has constraints, it returns exactly when each
    constraint of the inactive set has its objects (the constraint, its two
    variables and the block of each) and each pointer of [blocks] addresses a
    block. *)
Theorem make_optimal_returns_iff (n : nat) (st : state) :
  length (inactive st) <= n ->
  (is_Some (make_optimal n st) <->
   Forall (fun c => exists cr vl vr BL BR, resolves st c cr vl vr BL BR) (inactive st) /\
   Forall (fun p => is_Some (blks st !! p)) (blocks st)).
Proof.
  intros Hn. split.
  - intros [[acts st'] H]. unfold make_optimal in H.
    apply bind_Some in H as (f & s1 & Hs & H).
    pose proof (safe_step_search_searchable _ _ Hs) as Hsr.
    pose proof (safe_step_search_state _ _ _ Hs) as ->.
    apply bind_Some in H as (acts' & s2 & Hl & H).
    pose proof (activation_loop_state _ _ _ _ _ Hl) as ->.
    unfold bind at 1, get at 1 in H.
    apply bind_Some in H as ([] & s3 & Hf & _).
    apply for_each_step_inv in Hf. split; [|exact Hf].
    eapply Forall_impl; [exact Hsr|]. intros c. apply constraint_alpha_resolves.
  - intros [Hres Hb].
    destruct (make_optimal_total n st Hn) as [acts Hrun]; [|done|eauto].
    eapply Forall_impl; [exact Hres|]. intros c. apply constraint_alpha_resolves.
Qed.

(** X24: construct the solver over variables [vs0] of the heap and
    constraints [cs0] between variables of [vs0], call [init_blocks] and then
    [make_optimal] with as much fuel as there are constraints: every call
    returns. No constraint has changed and no variable has moved ([x] is as
    it was), while the block of each variable of [vs0] has the variable as its
    only member and stands, with [XI] equal to [X], at the variable's desired
    position, whatever the constraints require. *)
Theorem solver_moves_blocks_to_desired_positions
    (vs0 cs0 : list ptr) (st : state) :
  Forall (fun v => is_Some (vars st !! v)) vs0 ->
  Forall (fun c => at_con st c (fun cr => l cr ∈ vs0 /\ r cr ∈ vs0)) cs0 ->
  exists acts st',
    (FeasibleProjectionAlgorithm_ctor vs0 cs0 ;; init_blocks ;;
     make_optimal (length cs0)) st = Some (acts, st') /\
    cons st' = cons st /\
    (forall v vr, vars st !! v = Some vr ->
       exists vr', vars st' !! v = Some vr' /\ x vr' = x vr /\ d vr' = d vr) /\
    forall v vr, v ∈ vs0 -> vars st !! v = Some vr ->
      exists vr' p, vars st' !! v = Some vr' /\ b vr' = 0%float /\
        block vr' = Some p /\
        blks st' !! p = Some (mkBlock (d vr) (d vr) [v] []).
Proof.
  intros Hvs Hcs.
  set (st0 := mkState (vars st) (cons st) (blks st) vs0 cs0 [] (set_of_range cs0)).
  destruct (set_of_range_spec cs0) as [Hsorted Helem].
  destruct (init_loop vs0 st0) as (st1 & ps & Hrun & Hbl & Hlen & Hnd & Hfresh
                                   & _ & Hnew & Hvars & Hc & _ & _ & Hin).
  { by apply Forall_forall. }
  simpl in Hbl, Hc, Hin, Hnew, Hvars.
  (* the block of a variable of [vs0] *)
  assert (Hblock : forall v vr, v ∈ vs0 -> vars st !! v = Some vr ->
            exists vr' p, vars st1 !! v = Some vr' /\ x vr' = x vr /\ d vr' = d vr /\
              b vr' = 0%float /\ block vr' = Some p /\ p ∈ ps /\
              blks st1 !! p = Some (singleton_block vr v)).
  { intros v vr Hv Hvr.
    destruct (Hvars v vr Hvr) as (vr' & Hv' & Hd & Hx & _ & _ & Hown & _).
    destruct (Hown Hv) as (Hb0 & p & Hp & Hbp & HV).
    exists vr', p. do 6 (split; [done|]).
    apply list_elem_of_lookup in Hp as [i Hi].
    destruct (lookup_lt_is_Some_2 vs0 i) as [w Hw].
    { rewrite <- Hlen. by eapply lookup_lt_Some. }
    destruct (Hnew i w Hw) as (p' & wr & wr' & Hp' & Hwr & HB & _).
    assert (p' = p) as -> by congruence.
    rewrite HB in HV. simpl in HV. injection HV as ->. congruence. }
  assert (Hs : searchable st1).
  { unfold searchable. rewrite Hin. apply Forall_forall. intros c Hc'.
    apply Helem in Hc'. rewrite Forall_forall in Hcs. specialize (Hcs c Hc').
    unfold at_con in Hcs. destruct (cons st !! c) as [cr|] eqn:Hcr; [|done].
    destruct Hcs as [Hl Hr]. rewrite Forall_forall in Hvs.
    destruct (Hvs _ Hl) as [vl Hvl], (Hvs _ Hr) as [vr Hvr].
    destruct (Hblock _ _ Hl Hvl) as (vl' & pl & Hvl' & _ & _ & _ & Hbl' & _ & HBl).
    destruct (Hblock _ _ Hr Hvr) as (vr' & pr & Hvr' & _ & _ & _ & Hbr' & _ & HBr).
    erewrite constraint_alpha_unfold; [eauto|].
    split; [by rewrite Hc|]. split; [exact Hvl'|]. split; [exact Hvr'|].
    split; [by rewrite Hbl' | by rewrite Hbr']. }
  assert (Hb : Forall (fun p => is_Some (blks st1 !! p)) (blocks st1)).
  { rewrite Hbl. apply Forall_forall. intros p Hp.
    apply list_elem_of_lookup in Hp as [i Hi].
    destruct (lookup_lt_is_Some_2 vs0 i) as [w Hw].
    { rewrite <- Hlen. by eapply lookup_lt_Some. }
    destruct (Hnew i w Hw) as (p' & wr & wr' & Hp' & Hwr & HB & _).
    assert (p' = p) as -> by congruence. eauto. }
  destruct (make_optimal_total (length cs0) st1) as [acts Hopt]; [|done|done|].
  { rewrite Hin. apply submseteq_length, NoDup_submseteq.
    - by apply StronglySorted_lt_NoDup.
    - intros c. apply Helem. }
  eexists acts, _. split.
  { unfold FeasibleProjectionAlgorithm_ctor. unfold bind at 1, modify at 1. fold st0.
    unfold init_blocks. unfold bind at 1. unfold bind at 1, get at 1.
    change (vs st0) with vs0. rewrite Hrun. exact Hopt. }
  simpl. split; [done|]. split.
  - intros v vr Hvr. destruct (Hvars v vr Hvr) as (vr' & Hv' & Hd & Hx & _). eauto.
  - intros v vr Hv Hvr.
    destruct (Hblock _ _ Hv Hvr) as (vr' & p & Hv' & _ & _ & Hb0 & Hbp & Hp & HB).
    exists vr', p. do 3 (split; [done|]).
    rewrite steps_taken_lookup, Hbl, decide_True, HB by done. reflexivity.
Qed.

(** * The further properties at the examples *)

Lemma Constraint_ctor_graph_ok_witness :
  exists st', Constraint_ctor 10 1 2 2%float ex_vars = Some (tt, st') /\ graph_ok st'.
Proof.
  apply Constraint_ctor_graph_ok.
  - decide_it.
  - reflexivity.
  - by eexists.
  - by eexists.
Defined.

Lemma Constraint_ctor_new_constraint_is_ignored_witness :
  fst <$> compute_dfdv 1 2 None (mkState (vars ex_built) (cons ex_built) ∅ [] [] [] []) =
  fst <$> compute_dfdv 1 2 None ex_vars.
Proof.
  destruct (Constraint_ctor_new_constraint_is_ignored 10 1 2 2%float ex_vars tt
              (mkState (vars ex_built) (cons ex_built) ∅ [] [] [] [])) as [_ Hsame].
  - decide_it.
  - reflexivity.
  - vm_compute. reflexivity.
  - exact (proj2 (Hsame 1 2 None)).
Defined.

Lemma optBlockPos_of_no_member_witness :
  optBlockPos 0 ex_hollow = Some (nan, ex_hollow).
Proof. by apply (optBlockPos_of_no_member 0 ex_hollow (mkBlock 0 0 [] [])). Defined.

Lemma compute_dfdv_changes_multipliers_only_witness :
  vars ex_chain_done = vars ex_chain /\ blks ex_chain_done = blks ex_chain /\
  option_Forall2 same_edge (cons ex_chain !! 10) (cons ex_chain_done !! 10).
Proof.
  destruct (compute_dfdv_changes_multipliers_only 2 2 None ex_chain 0%float ex_chain_done)
    as (Hv & Hb & _ & _ & _ & _ & Hc & _).
  - vm_compute. reflexivity.
  - split; [exact Hv|]. split; [exact Hb | exact (Hc 10)].
Defined.

Lemma compute_dfdv_at_leaf_witness :
  compute_dfdv 1 1 None ex_built = Some ((2 * (0 - 0))%float, ex_built).
Proof.
  apply (compute_dfdv_at_leaf 0 1 None ex_built (mkVar 0 0 0 None [] [10])).
  - reflexivity.
  - decide_it.
Defined.

(** In [ex_cycle] the traversal from the first variable reaches the second
    by constraint 10 and comes back to it by constraint 10, around the
    cycle. *)
Lemma ex_cycle_walks :
  walk ex_cycle None 1 ([] ++ [10]) 2 /\ walk ex_cycle (Some 10) 2 ([11] ++ [10]) 2.
Proof.
  assert (H10 : forall last, Some 10 ≠ last -> hop ex_cycle last 1 10 2).
  { intros last Hne. eexists _, _. split; [reflexivity|]. split; [reflexivity|].
    split; [reflexivity|]. split; [exact Hne|]. left. split; [decide_it | reflexivity]. }
  assert (H11 : hop ex_cycle (Some 10) 2 11 1).
  { eexists _, _. split; [reflexivity|]. split; [reflexivity|].
    split; [reflexivity|]. split; [discriminate|]. right. split; [decide_it | reflexivity]. }
  split.
  - econstructor; [by apply H10 | constructor].
  - econstructor; [exact H11|]. econstructor; [by apply H10 | constructor].
Qed.

Lemma compute_dfdv_diverges_on_cycle_witness :
  walk ex_cycle None 1 ([] ++ [10]) 2 /\
  walk ex_cycle (Some 10) 2 ([11] ++ [10]) 2 /\
  forall n, compute_dfdv n 1 None ex_cycle = None.
Proof.
  split; [exact (proj1 ex_cycle_walks)|]. split; [exact (proj2 ex_cycle_walks)|].
  exact (compute_dfdv_diverges_on_cycle ex_cycle 1 [] 10 2 [11]
           (proj1 ex_cycle_walks) (proj2 ex_cycle_walks)).
Defined.

Example compute_dfdv_ex_cycle : compute_dfdv 50 1 None ex_cycle = None.
Proof. vm_compute. reflexivity. Qed.

Lemma compute_dfdv_adds_far_end_values_witness :
  exists zs,
    Forall2 (fun k zk => fst <$> compute_dfdv 1 k.2 (Some k.1) ex_chain = Some zk)
            [(11, 3); (10, 1)] zs /\
    0%float = fold_left PrimFloat.add zs (2 * (0 - 0))%float.
Proof.
  apply (compute_dfdv_adds_far_end_values 1 2 None ex_chain 0%float ex_chain_done
           (mkVar 0 0 0 (Some 0) [10] [11])).
  - vm_compute. reflexivity.
  - reflexivity.
Defined.

Lemma computeLagrangians_needs_a_member_witness :
  computeLagrangians 1 0 ex_hollow = None.
Proof. by apply (computeLagrangians_needs_a_member 1 0 ex_hollow (mkBlock 0 0 [] [])). Defined.

Lemma computeLagrangians_zeroes_inactive_witness :
  cons ex_half_done !! 11 = Some (set_lm 0%float (mkConstraint 2 3 1 false 7)).
Proof.
  destruct (computeLagrangians_zeroes_inactive 2 0 ex_half tt ex_half_done
              (mkBlock 0 0 [2; 1; 3] [10; 11])) as (_ & _ & _ & Hz).
  - vm_compute. reflexivity.
  - reflexivity.
  - apply (Hz 11); [decide_it | reflexivity | reflexivity].
Defined.

(** The steps possible in [ex_half]: along the active constraint only. *)
Lemma ex_half_hops last v c w :
  hop ex_half last v c w ->
  Some c ≠ last /\ c = 10 /\ ((v = 1 /\ w = 2) \/ (v = 2 /\ w = 1)).
Proof.
  intros (vr & cr & Hv & Hc & Ha & Hne & Hd). split; [done|].
  assert (Hvs : v = 1 \/ v = 2 \/ v = 3).
  { assert (Hin : v ∈ elements (dom (vars ex_half)))
      by (apply elem_of_elements, elem_of_dom; eauto).
    vm_compute in Hin. repeat (apply elem_of_cons in Hin as [->|Hin]); auto.
    by apply elem_of_nil in Hin. }
  destruct Hvs as [->|[->| ->]]; vm_compute in Hv; injection Hv as <-;
    simpl in Hd; destruct Hd as [[Hin ->]|[Hin ->]];
    repeat (apply elem_of_cons in Hin as [->|Hin]);
    try (by apply elem_of_nil in Hin);
    vm_compute in Hc; injection Hc as <-; simpl in *; try discriminate; auto.
Qed.

Lemma ex_half_acyclic : acyclic ex_half 2.
Proof.
  intros p0 u p _ Hp.
  inversion Hp as [|? ? c1 w1 p1 ? Hh1 Hw1]; subst; [done|].
  apply ex_half_hops in Hh1 as (_ & -> & Hvw).
  inversion Hw1 as [|? ? c2 w2 p2 ? Hh2 Hw2]; subst; [lia|].
  by apply ex_half_hops in Hh2 as (Hne & -> & _).
Qed.

Lemma ex_half_not_tree_edge : ¬ tree_edge ex_half 2 11.
Proof.
  intros (p & u & Hw). apply walk_snoc_inv in Hw as (y & _ & Hh).
  by apply ex_half_hops in Hh as (_ & ? & _).
Qed.

Lemma computeLagrangians_on_tree_witness :
  exists st',
    computeLagrangians 3 0 ex_half = Some (tt, st') /\
    cons st' !! 11 = Some (mkConstraint 2 3 1 false 0).
Proof.
  destruct (computeLagrangians_on_tree 0 ex_half (mkBlock 0 0 [2; 1; 3] [10; 11]) 2)
    as (st' & Hrun & _ & _ & Hz).
  - decide_it.
  - reflexivity.
  - decide_it.
  - reflexivity.
  - by eexists.
  - exact ex_half_acyclic.
  - exists st'. split; [exact Hrun|].
    apply (Hz 11 (mkConstraint 2 3 1 false 7)); [decide_it | reflexivity |].
    exact ex_half_not_tree_edge.
Defined.

Lemma computeLagrangians_again_changes_nothing_witness :
  computeLagrangians 2 0 ex_chain_done = Some (tt, ex_chain_done).
Proof.
  apply (computeLagrangians_again_changes_nothing 2 0 ex_chain tt ex_chain_done).
  vm_compute. reflexivity.
Defined.

Lemma init_blocks_frame_witness :
  cons ex_blocks = cons ex_built /\ inactive ex_blocks = inactive ex_built.
Proof.
  destruct (init_blocks_frame ex_built tt ex_blocks) as (_ & Hc & _ & _ & Hin & _).
  - vm_compute. reflexivity.
  - split; [exact Hc | exact Hin].
Defined.

Lemma init_blocks_again_adds_blocks_witness :
  exists st1 st2 p1 q B vr,
    init_blocks ex_built = Some (tt, st1) /\
    init_blocks st1 = Some (tt, st2) /\
    length (blocks st2) = 4 /\
    blks st2 !! p1 = Some B /\ blks st2 !! q = Some B /\ V B = [1] /\
    vars st2 !! 1 = Some vr /\ block vr = Some q /\ q ≠ p1.
Proof.
  destruct (init_blocks_again_adds_blocks ex_built)
    as (st1 & st2 & ps1 & ps2 & H1 & H2 & Hbl & Hl1 & Hl2 & _ & Hnew).
  - decide_it.
  - destruct (Hnew 0 1 eq_refl)
      as (p1 & p2 & B & vr & q & j & _ & _ & HB1 & _ & HV & Hvr & Hq & _ & _ & HBq & Hne & _).
    exists st1, st2, p1, q, B, vr. do 2 (split; [assumption|]). split.
    { rewrite Hbl, !length_app, Hl1, Hl2. reflexivity. }
    auto 10.
Defined.

Lemma init_blocks_then_destructor_witness :
  exists st1 st2,
    init_blocks ex_built = Some (tt, st1) /\
    FeasibleProjectionAlgorithm_dtor st1 = Some (tt, st2) /\
    blks st2 = blks ex_built /\
    at_var st2 1 (dangling st2).
Proof.
  destruct (init_blocks_then_destructor ex_built) as (st1 & st2 & H1 & H2 & Hb & _ & _ & Hd).
  - reflexivity.
  - decide_it.
  - exists st1, st2. do 3 (split; [assumption|]). apply Hd. decide_it.
Defined.

Lemma safe_step_search_fraction_is_bounded_witness :
  (1 / 3 <=? DBL_MAX)%float = true /\ (1 / 3)%float ≠ nan.
Proof.
  destruct (safe_step_search_fraction_is_bounded ex_tie
              (mkMaxSafeAlpha (Some 10) (1 / 3)%float) ex_tie) as (_ & Hb & Hn & _).
  - vm_compute. reflexivity.
  - split; [exact Hb | exact Hn].
Defined.

Lemma safe_step_search_breaks_ties_by_address_witness :
  10 ∈ inactive ex_tie /\ alpha_of ex_tie 10 = (1 / 3)%float /\
  forall c', c' ∈ inactive ex_tie -> c' < 10 ->
    (alpha_of ex_tie c' <=? 1 / 3)%float = false.
Proof.
  apply (safe_step_search_breaks_ties_by_address ex_tie
           (mkMaxSafeAlpha (Some 10) (1 / 3)%float) 10).
  - decide_it.
  - vm_compute. reflexivity.
  - reflexivity.
Defined.

Lemma make_optimal_takes_fractions_below_one_witness :
  inactive ex_tie_done = filter (fun c => ¬ taken ex_tie c) (inactive ex_tie) /\
  (Some 10 ∈ [Some 10; Some 11] <-> 10 ∈ inactive ex_tie /\ taken ex_tie 10).
Proof.
  destruct (make_optimal_takes_fractions_below_one 2 ex_tie [Some 10; Some 11] ex_tie_done)
    as (Hin & _ & _ & Hacts).
  - vm_compute. reflexivity.
  - split; [exact Hin | exact (Hacts 10)].
Defined.

Lemma make_optimal_takes_violated_constraints_witness :
  Some 10 ∈ [Some 10; Some 11] <->
  10 ∈ inactive ex_tie /\
  (0 + 0 + 2 <=? 0 + 0)%float = false /\
  ((2 + (0 + 0) - (3 + 0)) / (0 - 3 - (0 - 0)) <? 1)%float = true.
Proof.
  apply (make_optimal_takes_violated_constraints 2 ex_tie [Some 10; Some 11] ex_tie_done
           10 (mkConstraint 1 2 2 false 0)
           (mkVar 0 0 0 (Some 0) [] [10]) (mkVar 0 3 0 (Some 1) [10] [11])
           (mkBlock 0 0 [1] []) (mkBlock 0 3 [2] [])).
  - vm_compute. reflexivity.
  - repeat split.
Defined.

Lemma make_optimal_takes_least_fraction_first_witness :
  (act_alpha ex_tie (Some 11%nat) <? act_alpha ex_tie (Some 10%nat))%float = false.
Proof.
  apply (make_optimal_takes_least_fraction_first 2 ex_tie [Some 10; Some 11] ex_tie_done
           (ltac:(vm_compute; reflexivity)) 0 1); [lia|reflexivity|reflexivity].
Defined.

Lemma make_optimal_again_moves_no_block_witness :
  exists st1 acts2 st2,
    make_optimal 2 ex_tie = Some ([Some 10; Some 11], st1) /\
    make_optimal 0 st1 = Some (acts2, st2) /\
    blks st2 = blks st1 /\ vars st2 = vars st1.
Proof.
  exists ex_tie_done, [], ex_tie_done.
  assert (H1 : make_optimal 2 ex_tie = Some ([Some 10; Some 11], ex_tie_done))
    by (vm_compute; reflexivity).
  assert (H2 : make_optimal 0 ex_tie_done = Some ([], ex_tie_done))
    by (vm_compute; reflexivity).
  destruct (make_optimal_again_moves_no_block 2 0 ex_tie [Some 10; Some 11] []
              ex_tie_done ex_tie_done H1 H2) as (Hv & _ & Hb & _).
  split; [exact H1|]. split; [exact H2|]. split; [exact Hb | exact Hv].
Defined.

Lemma make_optimal_returns_iff_witness :
  is_Some (make_optimal 2 ex_tie) <->
  Forall (fun c => exists cr vl vr BL BR, resolves ex_tie c cr vl vr BL BR)
         (inactive ex_tie) /\
  Forall (fun p => is_Some (blks ex_tie !! p)) (blocks ex_tie).
Proof. apply (make_optimal_returns_iff 2 ex_tie). simpl. lia. Defined.

Lemma solver_moves_blocks_to_desired_positions_witness :
  exists acts st',
    (FeasibleProjectionAlgorithm_ctor [1; 2] [10] ;; init_blocks ;;
     make_optimal 1) ex_built = Some (acts, st') /\
    exists vr' p, vars st' !! 2 = Some vr' /\ x vr' = 2%float /\
      block vr' = Some p /\ blks st' !! p = Some (mkBlock 0 0 [2] []).
Proof.
  destruct (solver_moves_blocks_to_desired_positions [1; 2] [10] ex_built)
    as (acts & st' & Hrun & _ & Hx & Hb).
  - decide_it.
  - decide_it.
  - exists acts, st'. split; [exact Hrun|].
    destruct (Hb 2 (mkVar 0 2 0 None [10] [])) as (vr' & p & Hv & _ & Hp & HB);
      [decide_it | reflexivity |].
    destruct (Hx 2 (mkVar 0 2 0 None [10] [])) as (vr2 & Hv2 & Hx2 & _); [reflexivity|].
    assert (vr2 = vr') as -> by congruence.
    exists vr', p. split; [exact Hv|]. split; [exact Hx2|]. split; [exact Hp | exact HB].
Defined.
